(** * ptyrodactyl: electron forward model and ptychographic inversion

    A shallow embedding of [ptyrodactyl/electrons/forward.py],
    [ptyrodactyl/tools/loss_functions.py] and
    [ptyrodactyl/electrons/inverse.py] in exact real arithmetic.

    Floating numbers are real numbers, complex numbers are pairs of reals,
    arrays are nested lists whose nesting follows the order of the source's
    axes, and the library transforms ([fft2], [ifft2], [fftshift],
    [fftfreq]) are the finite sums and index maps of their documentation. *)

From Stdlib Require Import String.
From Stdlib Require Import Reals Lra Lia Psatz List Arith ZArith Bool.
Import ListNotations.

Local Open Scope R_scope.

(* ================================================================== *)
(** * Part I: the embedding *)
(* ================================================================== *)

(** ** Complex numbers *)

Definition C : Type := (R * R)%type.

Definition Re (z : C) : R := fst z.
Definition Im (z : C) : R := snd z.

Definition C0 : C := (0, 0).
Definition C1 : C := (1, 0).
Definition RtoC (x : R) : C := (x, 0).
Definition Copp (a : C) : C := (- Re a, - Im a).

Definition Cadd (a b : C) : C := (Re a + Re b, Im a + Im b).
Definition Cmul (a b : C) : C :=
  (Re a * Re b - Im a * Im b, Re a * Im b + Im a * Re b).
Definition Cscal (r : R) (a : C) : C := (r * Re a, r * Im a).

(** [jnp.abs] of a complex entry. *)
Definition Cabs (z : C) : R := sqrt (Re z * Re z + Im z * Im z).

(** [jnp.exp(1j * t)] for a real [t]. *)
Definition Cexp_i (t : R) : C := (cos t, sin t).

Declare Scope cx_scope.
Delimit Scope cx_scope with C.
Infix "+" := Cadd : cx_scope.
Infix "*" := Cmul : cx_scope.

(** ** Arrays *)

(** [tab n f] is the one-axis array [[f 0; ...; f (n-1)]]. *)
Definition tab {A : Type} (n : nat) (f : nat -> A) : list A :=
  map f (seq 0 n).

Definition tab2 {A : Type} (H W : nat) (f : nat -> nat -> A)
  : list (list A) :=
  tab H (fun y => tab W (fun x => f y x)).

Definition tab3 {A : Type} (H W M : nat) (f : nat -> nat -> nat -> A)
  : list (list (list A)) :=
  tab H (fun y => tab W (fun x => tab M (fun m => f y x m))).

(** A complex 2-D array, axes (H, W). *)
Definition matrixC : Type := list (list C).
(** A real 2-D array. *)
Definition matrixR : Type := list (list R).
(** A complex 3-D array, axes (H, W, M): the slice or mode axis is last. *)
Definition array3 : Type := list (list (list C)).

Definition getR2 (a : matrixR) (y x : nat) : R := nth x (nth y a []) 0.
Definition get2 (a : matrixC) (y x : nat) : C := nth x (nth y a []) C0.
Definition get3 (a : array3) (y x m : nat) : C :=
  nth m (nth x (nth y a []) []) C0.

(** [a.shape[0]], [a.shape[1]], [a.shape[2]]. *)
Definition shape0 {A : Type} (a : list A) : nat := length a.
Definition shape1 {A : Type} (a : list (list A)) : nat :=
  length (nth 0%nat a []).
Definition shape2 {A : Type} (a : list (list (list A))) : nat :=
  length (nth 0%nat (nth 0%nat a []) []).

(** Rectangular nested lists: the arrays proper. *)
Definition rect2 (a : matrixC) : Prop :=
  a = tab2 (shape0 a) (shape1 a) (get2 a).
Definition rect3 (a : array3) : Prop :=
  a = tab3 (shape0 a) (shape1 a) (shape2 a) (get3 a).

(** [a * r[..., jnp.newaxis]]: the entrywise product of a 3-D array with a
    plane, broadcast over the last axis. *)
Definition mul_newaxis (a : array3) (r : nat -> nat -> C) : array3 :=
  tab3 (shape0 a) (shape1 a) (shape2 a)
       (fun y x m => (get3 a y x m * r y x)%C).

(** An argument annotated ["H W *M"]: a 2-D or a 3-D array. *)
Inductive ndarray : Type :=
| Arr2 (a : matrixC)
| Arr3 (a : array3).

(** [jnp.atleast_3d]: a 2-D array (H, W) becomes (H, W, 1). *)
Definition atleast_3d (a : ndarray) : array3 :=
  match a with
  | Arr2 m => map (map (fun z => [z])) m
  | Arr3 t => t
  end.

(** Finite sums. *)
Fixpoint Csum (n : nat) (f : nat -> C) : C :=
  match n with
  | O => C0
  | S k => (Csum k f + f k)%C
  end.

Fixpoint Rsum (n : nat) (f : nat -> R) : R :=
  match n with
  | O => 0
  | S k => Rsum k f + f k
  end.

(** ** Discrete Fourier transforms *)

(** The kernel [exp (s * 2 pi i * k * y / N)]. *)
Definition twiddle (s : R) (N k y : nat) : C :=
  Cexp_i (s * (2 * PI) * (INR k * INR y) / INR N).

(** One-axis forward and inverse transforms (numpy's conventions: no scaling
    forward, [1/N] backward). *)
Definition dft1 (N : nat) (g : nat -> C) (k : nat) : C :=
  Csum N (fun y => (g y * twiddle (-1) N k y)%C).

Definition idft1 (N : nat) (G : nat -> C) (y : nat) : C :=
  Cscal (/ INR N) (Csum N (fun k => (G k * twiddle 1 N k y)%C)).

(** Two-axis transforms: a one-axis transform along each axis in turn. *)
Definition dft2 (H W : nat) (f : nat -> nat -> C) (k l : nat) : C :=
  dft1 H (fun y => dft1 W (fun x => f y x) l) k.

Definition idft2 (H W : nat) (F : nat -> nat -> C) (y x : nat) : C :=
  idft1 H (fun k => idft1 W (fun l => F k l) x) y.

(** [jnp.fft.fft2(a, axes=(0, 1))] and [jnp.fft.ifft2(a, axes=(0, 1))] on a
    3-D array: each index of the last axis is transformed on its own. *)
Definition fft2 (a : array3) : array3 :=
  tab3 (shape0 a) (shape1 a) (shape2 a)
       (fun k l m => dft2 (shape0 a) (shape1 a) (fun y x => get3 a y x m) k l).

Definition ifft2 (a : array3) : array3 :=
  tab3 (shape0 a) (shape1 a) (shape2 a)
       (fun y x m => idft2 (shape0 a) (shape1 a) (fun k l => get3 a k l m) y x).

(** [jnp.fft.ifft2] on a 2-D array. *)
Definition ifft2_2d (a : matrixC) : matrixC :=
  tab2 (shape0 a) (shape1 a) (idft2 (shape0 a) (shape1 a) (get2 a)).

(** [jnp.fft.fftshift(a, axes=(0, 1))]: each axis is rolled by [n // 2], so
    entry [j] of the result is entry [(j - n // 2) mod n] of the input. *)
Definition shift_index (n j : nat) : nat := ((j + (n - n / 2)) mod n)%nat.

Definition fftshift (a : array3) : array3 :=
  tab3 (shape0 a) (shape1 a) (shape2 a)
       (fun y x m => get3 a (shift_index (shape0 a) y)
                             (shift_index (shape1 a) x) m).

(** [jnp.fft.fftfreq(n, d)]: the integers [0 .. (n-1)//2] followed by
    [-(n//2) .. -1], divided by [d * n]. *)
Definition fftfreq (n : nat) (d : R) : list R :=
  tab n (fun i =>
           (if (i <? (n - 1) / 2 + 1)%nat then INR i else INR i - INR n)
           / (d * INR n)).

(** ** forward.py *)

(** Physical constants as written in the source. *)
Definition m_e : R := 9.109383e-31.
Definition e_e : R := 1.602177e-19.
Definition c_light : R := 299792458.0.
Definition h_planck : R := 6.62607e-34.

(** [wavelength_ang(voltage_kV)]. *)
Definition wavelength_ang (voltage_kV : R) : R :=
  let m := m_e in
  let e := e_e in
  let c := c_light in
  let h := h_planck in
  let eV := voltage_kV * 1000.0 * e in
  let numerator := Rsqr h * Rsqr c in
  let denominator := eV * ((2 * m * Rsqr c) + eV) in
  let wavelength_meters := sqrt (numerator / denominator) in
  1e10 * wavelength_meters.

(** The interaction constant [sigma] of [transmission_func]. *)
Definition sigma (voltage_kV : R) : R :=
  let voltage := voltage_kV * 1000.0 in
  let eV := e_e * voltage in
  let lambda_angstrom := wavelength_ang voltage_kV in
  let einstein_energy := m_e * Rsqr c_light in
  ((2 * PI / (lambda_angstrom * voltage)) * (einstein_energy + eV))
  / ((2 * einstein_energy) + eV).

(** [transmission_func(pot_slice, voltage_kV)]: the potential is a real 2-D
    array, the result [exp(1j * sigma * pot_slice)] has its shape. *)
Definition transmission_func (pot_slice : matrixR) (voltage_kV : R)
  : matrixC :=
  map (map (fun p => Cexp_i (sigma voltage_kV * p))) pot_slice.

(** [propagation_func(imsize_y, imsize_x, thickness_ang, voltage_kV,
    calib_ang)]. *)
Definition propagation_func (imsize_y imsize_x : nat)
           (thickness_ang voltage_kV calib_ang : R) : matrixC :=
  let qy := fftfreq imsize_y calib_ang in
  let qx := fftfreq imsize_x calib_ang in
  let Lya := fun y (_ : nat) => nth y qy 0 in
  let Lxa := fun (_ : nat) x => nth x qx 0 in
  let lambda_angstrom := wavelength_ang voltage_kV in
  tab2 imsize_y imsize_x
       (fun y x =>
          let L_sq := Rsqr (Lxa y x) + Rsqr (Lya y x) in
          Cexp_i (- (PI * lambda_angstrom * thickness_ang * L_sq))).

(** One step of the scan inside [cbed]: the wave is multiplied by slice
    [slice_idx] of [pot_slice] (broadcast over the modes) and, unless the
    slice is the last one, propagated to the next slice. *)
Definition propagate (slice_transmission : matrixC) (w : array3) : array3 :=
  let w_k := fft2 w in
  let w_k := mul_newaxis w_k (get2 slice_transmission) in
  ifft2 w_k.

Definition scan_fn (pot_slice : array3) (slice_transmission : matrixC)
           (num_slices : nat) (carry : array3) (slice_idx : nat) : array3 :=
  let wave := carry in
  let trans_slice := fun y x => get3 pot_slice y x slice_idx in
  let wave := mul_newaxis wave trans_slice in
  let is_last_slice := (slice_idx =? num_slices - 1)%nat in
  if is_last_slice then wave else propagate slice_transmission wave.

(** The end of [cbed]: transform to the diffraction plane, centre the zero
    frequency, square the magnitudes and sum them over the mode axis. *)
Definition far_field_intensity (final_wave : array3) : matrixR :=
  let fourier_space_pattern := fftshift (fft2 final_wave) in
  let intensity_per_mode :=
    fun y x m => Rsqr (Cabs (get3 fourier_space_pattern y x m)) in
  tab2 (shape0 fourier_space_pattern) (shape1 fourier_space_pattern)
       (fun y x => Rsum (shape2 fourier_space_pattern)
                        (fun m => intensity_per_mode y x m)).

(** [cbed(pot_slice, beam, slice_thickness, voltage_kV, calib_ang)]. *)
Definition cbed (pot_slice beam : ndarray)
           (slice_thickness voltage_kV calib_ang : R) : matrixR :=
  let pot_slice := atleast_3d pot_slice in
  let beam := atleast_3d beam in
  let num_slices := shape2 pot_slice in
  let slice_transmission :=
    propagation_func (shape0 beam) (shape1 beam)
                     slice_thickness voltage_kV calib_ang in
  let init_wave := beam in
  let final_wave :=
    fold_left (scan_fn pot_slice slice_transmission num_slices)
              (seq 0 num_slices) init_wave in
  far_field_intensity final_wave.

(** [shift_beam_fourier(beam, pos, calib_ang)]; [pos] is the (P, 2) array
    of (y, x) positions, a single position being the one-row array. *)
Definition phase_ramp (qy qx : list R) (y_shift x_shift : R)
  : nat -> nat -> C :=
  let qya := fun y (_ : nat) => nth y qy 0 in
  let qxa := fun (_ : nat) x => nth x qx 0 in
  let phase :=
    fun y x => -2.0 * PI * ((qya y x * y_shift) + (qxa y x * x_shift)) in
  fun y x => Cexp_i (phase y x).

Definition apply_shift (beam_k : array3) (qy qx : list R) (pos : matrixR)
           (position_idx : nat) : array3 :=
  let y_shift := getR2 pos position_idx 0 in
  let x_shift := getR2 pos position_idx 1 in
  let phase_shift := phase_ramp qy qx y_shift x_shift in
  let shifted_beam_k := mul_newaxis beam_k phase_shift in
  ifft2 shifted_beam_k.

(** The position array has at least one row: on an empty one the source
    raises when it reads [pos[position_idx, 0]], and the model, which
    returns no beam there, does not apply. *)
Definition shift_beam_fourier (beam : ndarray) (pos : matrixR)
           (calib_ang : R) : list array3 :=
  let our_beam := atleast_3d beam in
  let H := shape0 our_beam in
  let W := shape1 our_beam in
  let num_positions := shape0 pos in
  let qy := fftfreq H calib_ang in
  let qx := fftfreq W calib_ang in
  let beam_k := fft2 our_beam in
  tab num_positions (apply_shift beam_k qy qx pos).

(** [stem_4D(pot_slice, beam, positions, slice_thickness, voltage_kV,
    calib_ang)]. *)
Definition stem_4D (pot_slice beam : array3) (positions : matrixR)
           (slice_thickness voltage_kV calib_ang : R) : list matrixR :=
  let shifted_beams := shift_beam_fourier (Arr3 beam) positions calib_ang in
  let process_single_position := fun pos_idx =>
    let current_beam := nth pos_idx shifted_beams [] in
    cbed (Arr3 pot_slice) (Arr3 current_beam)
         slice_thickness voltage_kV calib_ang in
  tab (shape0 positions) process_single_position.

(** The pattern the specification compares [cbed] with: the squared
    magnitude of the centred 2-D Fourier transform of a single-mode beam. *)
Definition fraunhofer (beam : ndarray) : matrixR :=
  let f := fftshift (fft2 (atleast_3d beam)) in
  tab2 (shape0 f) (shape1 f) (fun y x => Rsqr (Cabs (get3 f y x 0))).

(** The partial sums of the geometric progression of a root of unity, used
    to invert the transforms. *)
Definition geom (N : nat) (theta : R) : C :=
  Csum N (fun k => Cexp_i (INR k * theta)).

(** The closed form the specification quotes for the wavelength. *)
Definition wavelength_closed_form (V : R) : R :=
  1e10 * h_planck
  / sqrt (2 * m_e * e_e * (1000 * V)
          * (1 + e_e * (1000 * V) / (2 * m_e * (c_light * c_light)))).

(** ** Exceptions, effects and the monad of the reconstruction loops *)

(** The exceptions the modelled code raises. *)
Inductive exn : Type :=
| ValueError (msg : string)
| KeyError (key : string)
| TypeError (msg : string)
| ZeroDivisionError (msg : string).

(** The array computations and the output a reconstruction call performs,
    in the order it performs them. *)
Inductive event : Type :=
| EvOptimizerInit (shape : list nat)   (* [optimizer.init(shape)] *)
| EvIfft2                              (* [jnp.fft.ifft2] *)
| EvArray                              (* [jnp.array(...)] *)
| EvZeros (shape : list nat)           (* [jnp.zeros(shape)] *)
| EvUpdateStep (ii : nat)              (* [update_step(...)], iteration [ii] *)
| EvPrint (ii : nat) (loss : R)        (* [print(...)] *)
| EvAtSet (saver : nat).               (* [buf.at[:, :, saver].set(...)] *)

(** A computation carries the trace of events so far and either raises or
    returns. *)
Definition M (A : Type) : Type := list event -> (exn + A) * list event.

Definition ret {A : Type} (a : A) : M A := fun tr => (inr a, tr).

Definition bind {A B : Type} (m : M A) (k : A -> M B) : M B :=
  fun tr =>
    match m tr with
    | (inl e, tr') => (inl e, tr')
    | (inr a, tr') => k a tr'
    end.

Definition raise {A : Type} (e : exn) : M A := fun tr => (inl e, tr).

Definition emit (ev : event) : M unit := fun tr => (inr tt, tr ++ [ev]).

(** A pure computation that may raise. *)
Definition lift {A : Type} (r : exn + A) : M A :=
  match r with
  | inl e => raise e
  | inr a => ret a
  end.

Notation "x <- c1 ;; c2" := (bind c1 (fun x => c2))
  (at level 61, c1 at next level, right associativity).
Notation "' pat <- c1 ;; c2" := (bind c1 (fun x => match x with pat => c2 end))
  (at level 61, pat pattern, c1 at next level, right associativity).
Notation "c1 ;;; c2" := (bind c1 (fun _ => c2))
  (at level 61, right associativity).

(** [for ii in iters: state = body(ii, state)]. *)
Fixpoint for_loop {S : Type} (iters : list nat) (body : nat -> S -> M S)
         (s : S) : M S :=
  match iters with
  | [] => ret s
  | ii :: rest => s' <- body ii s ;; for_loop rest body s'
  end.

(** ** loss_functions.py *)

Definition zip_with {A B D : Type} (f : A -> B -> D)
           (l1 : list A) (l2 : list B) : list D :=
  map (fun p => f (fst p) (snd p)) (combine l1 l2).

(** [jnp.mean] over all entries of a (P, H, W) array. *)
Definition mean (a : list matrixR) : R :=
  let entries := concat (concat a) in
  fold_right Rplus 0 entries / INR (length entries).

Definition map3 (f : R -> R) (a : list matrixR) : list matrixR :=
  map (map (map f)) a.

Definition mae_loss (diff : list matrixR) : R := mean (map3 Rabs diff).
Definition mse_loss (diff : list matrixR) : R := mean (map3 Rsqr diff).
Definition rmse_loss (diff : list matrixR) : R :=
  sqrt (mean (map3 Rsqr diff)).

(** A dictionary with string keys, in insertion order. *)
Definition dict (V : Type) : Type := list (string * V).

Fixpoint dict_get {V : Type} (key : string) (d : dict V) : option V :=
  match d with
  | [] => None
  | (k, v) :: rest => if String.eqb key k then Some v else dict_get key rest
  end.

Definition dict_contains {V : Type} (key : string) (d : dict V) : bool :=
  match dict_get key d with
  | Some _ => true
  | None => false
  end.

Definition loss_functions : dict (list matrixR -> R) :=
  [("mae"%string, mae_loss); ("mse"%string, mse_loss);
   ("rmse"%string, rmse_loss)].

(** [create_loss_function(forward_function, experimental_data, loss_type)]:
    the lookup [loss_functions[loss_type]] raises [KeyError] when the key is
    missing; the returned closure is not evaluated here.  The difference
    [model_output - experimental_data] is taken entry by entry, which is
    what the source computes when the two arrays have one shape; arrays of
    different shapes, which the source broadcasts or rejects, are outside
    the model. *)
Definition create_loss_function {P : Type}
           (forward_function : P -> list matrixR)
           (experimental_data : list matrixR) (loss_type : string)
  : exn + (P -> R) :=
  match dict_get loss_type loss_functions with
  | None => inl (KeyError loss_type)
  | Some selected_loss_fn =>
      inr (fun params =>
             let model_output := forward_function params in
             let diff :=
               zip_with (zip_with (zip_with Rminus))
                        model_output experimental_data in
             selected_loss_fn diff)
  end.

(** ** inverse.py *)

(** Element types of the arrays handed to an optimizer. *)
Inductive dtype : Type := Complex128 | Float64.

Definition elt (t : dtype) : Type :=
  match t with
  | Complex128 => C
  | Float64 => R
  end.

Definition array2 (t : dtype) : Type := list (list (elt t)).

(** A real array of any rank, for learning rates: a scalar is the 0-d
    array. *)
Unset Elimination Schemes.
Inductive rarray : Type :=
| RScalar (r : R)
| RList (items : list rarray).
Set Elimination Schemes.

(** [pte.CalibratedArray]. *)
Record CalibratedArray : Type := mkCalibratedArray {
  data_array : matrixC;
  calib_y : R;
  calib_x : R;
  real_space : bool
}.

(** [ptt.Optimizer(init, update)]: [init] receives a shape, [update] the
    parameters, their gradient, the optimizer state and the learning
    rate. *)
Record Optimizer (OptState : Type) : Type := mkOptimizer {
  init : list nat -> OptState;
  update : forall t : dtype,
      array2 t -> array2 t -> OptState -> rarray -> array2 t * OptState
}.
Arguments init {OptState} _ _.
Arguments update {OptState} _ _ _ _ _ _.

(** [len(a)] of an array: a 0-d array has no length. *)
Definition py_len (a : rarray) : exn + nat :=
  match a with
  | RScalar _ => inl (TypeError "len() of unsized object")
  | RList items => inr (length items)
  end.

(** [a[1]]; an index past the end is clamped to the last entry. *)
Definition index_1 (a : rarray) : exn + rarray :=
  match a with
  | RScalar _ => inl (TypeError "Too many indices for array")
  | RList items => inr (nth 1 items (last items (RScalar 0)))
  end.

(** The [learning_rate] argument of [single_slice_poscorrected], annotated
    [Union[scalar_float, Float[Array, "2"]]]. *)
Inductive learning_rate_arg : Type :=
| LrScalar (r : R)
| LrPair (r0 r1 : R).

(** [jnp.array(learning_rate)]. *)
Definition jnp_array (lr : learning_rate_arg) : M rarray :=
  emit EvArray ;;;
  ret (match lr with
       | LrScalar r => RScalar r
       | LrPair r0 r1 => RList [RScalar r0; RScalar r1]
       end).

(** [jnp.array([a, a])]. *)
Definition jnp_array_pair (a : rarray) : M rarray :=
  emit EvArray ;;; ret (RList [a; a]).

(** A value used as a dimension or as an index: a Python integer, or a
    floating-point array such as [jnp.floor] returns. *)
Inductive dim : Type :=
| IntDim (n : nat)
| FloatDim (x : R).

(** The error [jnp.zeros] raises for a dimension that is not an integer, and
    the one [.at[...].set(...)] raises for such an index; the messages are
    abridged. *)
Definition float_dimension_error : exn :=
  TypeError "Shapes must be 1D sequences of concrete values of integer type".
Definition float_index_error : exn :=
  TypeError "Indexer must have integer or boolean type".

(** [jnp.floor(a / b)] for Python integers [a] and [b]: the true division
    raises when [b] is zero and gives a float otherwise, and [jnp.floor]
    returns a floating-point array. *)
Definition floor_div (a b : nat) : M dim :=
  if (b =? 0)%nat then raise (ZeroDivisionError "division by zero")
  else ret (FloatDim (INR (a / b))).

(** [a % b] for Python integers. *)
Definition py_mod (a b : nat) : M nat :=
  if (b =? 0)%nat then raise (ZeroDivisionError "integer modulo by zero")
  else ret (a mod b)%nat.

(** [jnp.zeros(shape=(H, W, S))]: every dimension has to be an integer. *)
Definition jnp_zeros (H W : nat) (S : dim) : M array3 :=
  match S with
  | IntDim s =>
      emit (EvZeros [H; W; s]) ;;; ret (tab3 H W s (fun _ _ _ => C0))
  | FloatDim _ => raise float_dimension_error
  end.

Definition jnp_zeros_real (H W : nat) (S : dim) : M (list matrixR) :=
  match S with
  | IntDim s =>
      emit (EvZeros [H; W; s]) ;;; ret (tab3 H W s (fun _ _ _ => 0))
  | FloatDim _ => raise float_dimension_error
  end.

(** [buf.at[:, :, saver].set(value)]: a new array, equal to [buf] except in
    plane [saver] of the last axis; [buf] itself is not changed, and an
    index outside the axis changes nothing.  The index has to be an
    integer. *)
Definition at_set (buf : array3) (saver : dim) (value : matrixC) : M array3 :=
  match saver with
  | IntDim s =>
      emit (EvAtSet s) ;;;
      ret (tab3 (shape0 buf) (shape1 buf) (shape2 buf)
                (fun y x k => if (k =? s)%nat then get2 value y x
                              else get3 buf y x k))
  | FloatDim _ => raise float_index_error
  end.

Definition at_set_real (buf : list matrixR) (saver : dim) (value : matrixR)
  : M (list matrixR) :=
  match saver with
  | IntDim s =>
      emit (EvAtSet s) ;;;
      ret (tab3 (shape0 buf) (shape1 buf) (shape2 buf)
                (fun y x k => if (k =? s)%nat then getR2 value y x
                              else nth k (nth x (nth y buf []) []) 0))
  | FloatDim _ => raise float_index_error
  end.

Section Reconstruction.

(** The optimizer update rules of [ptyrodactyl.tools] and reverse-mode
    differentiation are not part of the sources: they are parameters. *)
Variable OptState : Type.
Variables adam adagrad rmsprop : Optimizer OptState.

(** [jax.grad] of a loss in two and in three arguments. *)
Variable grad2 :
  (matrixC * matrixC -> R) -> matrixC * matrixC -> matrixC * matrixC.
Variable grad3 :
  (matrixC * matrixC * matrixR -> R) ->
  matrixC * matrixC * matrixR -> matrixC * matrixC * matrixR.

Definition OPTIMIZERS : dict (Optimizer OptState) :=
  [("adam"%string, adam); ("adagrad"%string, adagrad);
   ("rmsprop"%string, rmsprop)].

(** [get_optimizer(optimizer_name)]. *)
Definition get_optimizer (optimizer_name : string)
  : exn + Optimizer OptState :=
  if negb (dict_contains optimizer_name OPTIMIZERS) then
    inl (ValueError (String.append "Unknown optimizer: " optimizer_name))
  else
    match dict_get optimizer_name OPTIMIZERS with
    | Some o => inr o
    | None => inl (KeyError optimizer_name)
    end.

Definition optimizer_init (optimizer : Optimizer OptState)
           (shape : list nat) : M OptState :=
  emit (EvOptimizerInit shape) ;;; ret (init optimizer shape).

Definition jnp_ifft2 (a : matrixC) : M matrixC :=
  emit EvIfft2 ;;; ret (ifft2_2d a).

(** *** single_slice_ptychography *)

Definition ssp_state : Type :=
  (matrixC * matrixC * OptState * OptState)%type.

(** [update_step] of [single_slice_ptychography], with [loss_and_grad]
    inlined. *)
Definition ssp_update_step (optimizer : Optimizer OptState)
           (loss_func : matrixC * matrixC -> R) (learning_rate : rarray)
           (st : ssp_state) : ssp_state * R :=
  let '(pot_slice, beam, pot_slice_state, beam_state) := st in
  let loss := loss_func (pot_slice, beam) in
  let grads := grad2 loss_func (pot_slice, beam) in
  let '(pot_slice, pot_slice_state) :=
    update optimizer Complex128 pot_slice (fst grads)
           pot_slice_state learning_rate in
  let '(beam, beam_state) :=
    update optimizer Complex128 beam (snd grads)
           beam_state learning_rate in
  ((pot_slice, beam, pot_slice_state, beam_state), loss).

(** The body of the loop [for ii in range(num_iterations)]: one update
    and, every [save_every] iterations, the report and the two
    [.at[...].set(...)] expressions, whose values are not bound to any
    name: the buffers the loop was given stay as they are. *)
Definition ssp_loop_body (optimizer : Optimizer OptState)
           (loss_func : matrixC * matrixC -> R) (learning_rate : rarray)
           (save_every : nat)
           (intermediate_potslice intermediate_beam : array3)
           (ii : nat) (st : ssp_state) : M ssp_state :=
  emit (EvUpdateStep ii) ;;;
  let '(st, loss) := ssp_update_step optimizer loss_func learning_rate st in
  let '(pot_slice, beam, _, _) := st in
  remainder <- py_mod ii save_every ;;
  if (remainder =? 0)%nat then
    emit (EvPrint ii loss) ;;;
    saver <- floor_div ii save_every ;;
    _ <- at_set intermediate_potslice saver pot_slice ;;
    _ <- at_set intermediate_beam saver beam ;;
    ret st
  else ret st.

Definition single_slice_ptychography
           (experimental_4dstem : list matrixR)
           (initial_potential initial_beam : CalibratedArray)
           (pos_list : matrixR)
           (slice_thickness voltage_kV calib_ang : R)
           (save_every num_iterations : nat)
           (learning_rate : R)
           (loss_type optimizer_name : string)
  : M (CalibratedArray * CalibratedArray * array3 * array3) :=
  let forward_fn := fun p : matrixC * matrixC =>
    stem_4D [fst p] [snd p] pos_list
            slice_thickness voltage_kV calib_ang in
  loss_func <-
    lift (create_loss_function forward_fn experimental_4dstem loss_type) ;;
  optimizer <- lift (get_optimizer optimizer_name) ;;
  pot_slice_state <-
    optimizer_init optimizer
      [shape0 (data_array initial_potential);
       shape1 (data_array initial_potential)] ;;
  beam_state <-
    optimizer_init optimizer
      [shape0 (data_array initial_beam);
       shape1 (data_array initial_beam)] ;;
  let pot_slice := data_array initial_potential in
  beam <-
    (if real_space initial_beam then ret (data_array initial_beam)
     else jnp_ifft2 (data_array initial_beam)) ;;
  slots <- floor_div num_iterations save_every ;;
  intermediate_potslice <-
    jnp_zeros (shape0 pot_slice) (shape1 pot_slice) slots ;;
  slots <- floor_div num_iterations save_every ;;
  intermediate_beam <- jnp_zeros (shape0 beam) (shape1 beam) slots ;;
  final <-
    for_loop (seq 0 num_iterations)
      (ssp_loop_body optimizer loss_func (RScalar learning_rate) save_every
                     intermediate_potslice intermediate_beam)
      (pot_slice, beam, pot_slice_state, beam_state) ;;
  let '(pot_slice, beam, _, _) := final in
  let final_potential :=
    mkCalibratedArray pot_slice (calib_y initial_potential)
                      (calib_x initial_potential) true in
  let final_beam :=
    mkCalibratedArray beam (calib_y initial_beam)
                      (calib_x initial_beam) true in
  ret (final_potential, final_beam,
       intermediate_potslice, intermediate_beam).

(** *** single_slice_poscorrected *)

(** The attribute [initial_beam.dtype] of a [pte.CalibratedArray]; the
    class is not part of the sources, so the lookup is a parameter. *)
Variable calibrated_dtype : CalibratedArray -> exn + dtype.

Definition psc_state : Type :=
  (matrixC * matrixC * matrixR * OptState * OptState * OptState)%type.

(** [update_step] of [single_slice_poscorrected]: the potential and the
    beam are updated with the whole [learning_rate] array, the positions
    with [learning_rate[1]]. *)
Definition psc_update_step (optimizer : Optimizer OptState)
           (loss_func : matrixC * matrixC * matrixR -> R)
           (learning_rate : rarray)
           (st : psc_state) : exn + (psc_state * R) :=
  let '(pot_slice, beam, pos_list, pot_slice_state, beam_state, pos_state)
    := st in
  let loss := loss_func (pot_slice, beam, pos_list) in
  let grads := grad3 loss_func (pot_slice, beam, pos_list) in
  let '(pot_slice, pot_slice_state) :=
    update optimizer Complex128 pot_slice (fst (fst grads))
           pot_slice_state learning_rate in
  let '(beam, beam_state) :=
    update optimizer Complex128 beam (snd (fst grads))
           beam_state learning_rate in
  match index_1 learning_rate with
  | inl e => inl e
  | inr learning_rate_1 =>
      let '(pos_list, pos_state) :=
        update optimizer Float64 pos_list (snd grads)
               pos_state learning_rate_1 in
      inr ((pot_slice, beam, pos_list,
            pot_slice_state, beam_state, pos_state), loss)
  end.

Definition psc_loop_body (optimizer : Optimizer OptState)
           (loss_func : matrixC * matrixC * matrixR -> R)
           (learning_rate : rarray) (save_every : nat)
           (intermediate_potslices intermediate_beams : array3)
           (intermediate_positions : list matrixR)
           (ii : nat) (st : psc_state) : M psc_state :=
  emit (EvUpdateStep ii) ;;;
  '(st, loss) <-
    lift (psc_update_step optimizer loss_func learning_rate st) ;;
  let '(pot_guess, beam_guess, pos_guess, _, _, _) := st in
  remainder <- py_mod ii save_every ;;
  if (remainder =? 0)%nat then
    emit (EvPrint ii loss) ;;;
    saver <- floor_div ii save_every ;;
    _ <- at_set intermediate_potslices saver pot_guess ;;
    _ <- at_set intermediate_beams saver beam_guess ;;
    _ <- at_set_real intermediate_positions saver pos_guess ;;
    ret st
  else ret st.

Definition single_slice_poscorrected
           (experimental_4dstem : list matrixR)
           (initial_potential initial_beam : CalibratedArray)
           (initial_pos_list : matrixR)
           (slice_thickness voltage_kV calib_ang : R)
           (save_every num_iterations : nat)
           (learning_rate : learning_rate_arg)
           (loss_type optimizer_name : string)
  : M (CalibratedArray * CalibratedArray * matrixR
       * array3 * array3 * list matrixR) :=
  let forward_fn := fun p : matrixC * matrixC * matrixR =>
    stem_4D [fst (fst p)] [snd (fst p)] (snd p)
            slice_thickness voltage_kV calib_ang in
  loss_func <-
    lift (create_loss_function forward_fn experimental_4dstem loss_type) ;;
  optimizer <- lift (get_optimizer optimizer_name) ;;
  pot_slice_state <-
    optimizer_init optimizer
      [shape0 (data_array initial_potential);
       shape1 (data_array initial_potential)] ;;
  beam_state <-
    optimizer_init optimizer
      [shape0 (data_array initial_beam);
       shape1 (data_array initial_beam)] ;;
  pos_state <-
    optimizer_init optimizer
      [shape0 initial_pos_list; shape1 initial_pos_list] ;;
  learning_rate <- jnp_array learning_rate ;;
  len_learning_rate <- lift (py_len learning_rate) ;;
  learning_rate <-
    (if (len_learning_rate =? 1)%nat then jnp_array_pair learning_rate
     else ret learning_rate) ;;
  let pot_guess := data_array initial_potential in
  let beam_guess := data_array initial_beam in
  let pos_guess := initial_pos_list in
  slots <- floor_div num_iterations save_every ;;
  intermediate_potslices <-
    jnp_zeros (shape0 pot_guess) (shape1 pot_guess) slots ;;
  slots <- floor_div num_iterations save_every ;;
  _ <- lift (calibrated_dtype initial_beam) ;;
  intermediate_beams <-
    jnp_zeros (shape0 beam_guess) (shape1 beam_guess) slots ;;
  slots <- floor_div num_iterations save_every ;;
  intermediate_positions <-
    jnp_zeros_real (shape0 pos_guess) (shape1 pos_guess) slots ;;
  final <-
    for_loop (seq 0 num_iterations)
      (psc_loop_body optimizer loss_func learning_rate save_every
                     intermediate_potslices intermediate_beams
                     intermediate_positions)
      (pot_guess, beam_guess, pos_guess,
       pot_slice_state, beam_state, pos_state) ;;
  let '(pot_guess, beam_guess, pos_guess, _, _, _) := final in
  let final_potential :=
    mkCalibratedArray pot_guess (calib_y initial_potential)
                      (calib_x initial_potential) true in
  let final_beam :=
    mkCalibratedArray beam_guess (calib_y initial_beam)
                      (calib_x initial_beam) true in
  ret (final_potential, final_beam, pos_guess,
       intermediate_potslices, intermediate_beams,
       intermediate_positions).

(** *** single_slice_multi_modal *)

(** The beam of [single_slice_multi_modal] is a [pte.ProbeModes], a class
    that is not part of the sources.  The call is modelled up to the
    optimizer lookup; the forward closure over a [ProbeModes] and the rest
    of the body, which handles it, are parameters. *)
Variable ProbeModes : Type.
Variable MultiModalResult : Type.
Variable probe_modes_forward_fn :
  R -> R -> R -> matrixC * ProbeModes * matrixR -> list matrixR.
Variable single_slice_multi_modal_body :
  (matrixC * ProbeModes * matrixR -> R) -> Optimizer OptState ->
  matrixC -> ProbeModes -> matrixR -> nat -> nat -> rarray ->
  M MultiModalResult.

Definition single_slice_multi_modal
           (experimental_4dstem : list matrixR)
           (initial_pot_slice : matrixC) (initial_beam : ProbeModes)
           (initial_pos_list : matrixR)
           (slice_thickness voltage_kV calib_ang : R)
           (save_every num_iterations : nat)
           (learning_rate : rarray)
           (loss_type optimizer_name : string)
  : M MultiModalResult :=
  let forward_fn :=
    probe_modes_forward_fn slice_thickness voltage_kV calib_ang in
  loss_func <-
    lift (create_loss_function forward_fn experimental_4dstem loss_type) ;;
  optimizer <- lift (get_optimizer optimizer_name) ;;
  single_slice_multi_modal_body
    loss_func optimizer initial_pot_slice initial_beam initial_pos_list
    save_every num_iterations learning_rate.

(** *** multi_slice_multi_modal *)

Definition msm_update_step (optimizer : Optimizer OptState)
           (loss_func : matrixC * matrixC * matrixR -> R)
           (learning_rate pos_learning_rate : R)
           (st : psc_state) : psc_state * R :=
  let '(pot_slice, beam, pos_list, pot_slice_state, beam_state, pos_state)
    := st in
  let loss := loss_func (pot_slice, beam, pos_list) in
  let grads := grad3 loss_func (pot_slice, beam, pos_list) in
  let '(pot_slice, pot_slice_state) :=
    update optimizer Complex128 pot_slice (fst (fst grads))
           pot_slice_state (RScalar learning_rate) in
  let '(beam, beam_state) :=
    update optimizer Complex128 beam (snd (fst grads))
           beam_state (RScalar learning_rate) in
  let '(pos_list, pos_state) :=
    update optimizer Float64 pos_list (snd grads)
           pos_state (RScalar pos_learning_rate) in
  ((pot_slice, beam, pos_list, pot_slice_state, beam_state, pos_state),
   loss).

Definition msm_loop_body (optimizer : Optimizer OptState)
           (loss_func : matrixC * matrixC * matrixR -> R)
           (learning_rate pos_learning_rate : R) (save_every : nat)
           (intermediate_potslice intermediate_beam : array3)
           (ii : nat) (st : psc_state) : M psc_state :=
  emit (EvUpdateStep ii) ;;;
  let '(st, loss) :=
    msm_update_step optimizer loss_func
                    learning_rate pos_learning_rate st in
  let '(pot_slice, beam, _, _, _, _) := st in
  remainder <- py_mod ii save_every ;;
  if (remainder =? 0)%nat then
    emit (EvPrint ii loss) ;;;
    saver <- floor_div ii save_every ;;
    _ <- at_set intermediate_potslice saver pot_slice ;;
    _ <- at_set intermediate_beam saver beam ;;
    ret st
  else ret st.

Definition multi_slice_multi_modal
           (experimental_4dstem : list matrixR)
           (initial_pot_slice initial_beam : matrixC)
           (initial_pos_list : matrixR)
           (slice_thickness voltage_kV calib_ang : R)
           (save_every num_iterations : nat)
           (learning_rate pos_learning_rate : R)
           (loss_type optimizer_name : string)
  : M (matrixC * matrixC * matrixR * array3 * array3) :=
  let forward_fn := fun p : matrixC * matrixC * matrixR =>
    stem_4D [fst (fst p)] [snd (fst p)] (snd p)
            slice_thickness voltage_kV calib_ang in
  loss_func <-
    lift (create_loss_function forward_fn experimental_4dstem loss_type) ;;
  optimizer <- lift (get_optimizer optimizer_name) ;;
  pot_slice_state <-
    optimizer_init optimizer
      [shape0 initial_pot_slice; shape1 initial_pot_slice] ;;
  beam_state <-
    optimizer_init optimizer [shape0 initial_beam; shape1 initial_beam] ;;
  pos_state <-
    optimizer_init optimizer
      [shape0 initial_pos_list; shape1 initial_pos_list] ;;
  let pot_slice := initial_pot_slice in
  let beam := initial_beam in
  let pos_list := initial_pos_list in
  slots <- floor_div num_iterations save_every ;;
  intermediate_potslice <-
    jnp_zeros (shape0 initial_pot_slice) (shape1 initial_pot_slice) slots ;;
  slots <- floor_div num_iterations save_every ;;
  intermediate_beam <-
    jnp_zeros (shape0 initial_beam) (shape1 initial_beam) slots ;;
  final <-
    for_loop (seq 0 num_iterations)
      (msm_loop_body optimizer loss_func learning_rate pos_learning_rate
                     save_every intermediate_potslice intermediate_beam)
      (pot_slice, beam, pos_list, pot_slice_state, beam_state, pos_state) ;;
  let '(pot_slice, beam, pos_list, _, _, _) := final in
  ret (pot_slice, beam, pos_list, intermediate_potslice, intermediate_beam).

End Reconstruction.

(** The error a call with an unregistered optimizer name ends with: the loss
    type is looked up first, the optimizer second. *)
Definition setup_error (loss_type optimizer_name : string) : exn :=
  if in_dec string_dec loss_type ["mae"; "mse"; "rmse"]%string
  then ValueError (String.append "Unknown optimizer: " optimizer_name)
  else KeyError loss_type.

(** An optimizer that returns the parameters it is given, as every update
    rule does at learning rate zero; it instantiates the parameters of the
    model in the examples. *)
Definition frozen_optimizer : Optimizer unit :=
  mkOptimizer unit (fun _ => tt) (fun t params _ state _ => (params, state)).

(** The error the allocation of the first snapshot buffer ends with: the
    division [num_iterations / save_every] comes first, [jnp.zeros]
    second. *)
Definition allocation_error (save_every : nat) : exn :=
  if (save_every =? 0)%nat then ZeroDivisionError "division by zero"
  else float_dimension_error.

(** The events of a setup before its buffers: the optimizer states, the
    transform of the beam and the conversion of the learning rate.  An
    allocation and the events of the loop are not among them. *)
Definition setup_event (ev : event) : Prop :=
  match ev with
  | EvOptimizerInit _ | EvIfft2 | EvArray => True
  | _ => False
  end.

(** A call that ends in an exception during its setup: no buffer was
    allocated, no iteration ran and nothing is returned. *)
Definition raises_during_setup {A : Type} (run : (exn + A) * list event)
  : Prop :=
  exists e tr, run = (inl e, tr) /\ Forall setup_event tr.

(** The trace of the setup of [single_slice_ptychography] up to the
    allocation of the buffers. *)
Definition ssp_setup_trace (initial_potential initial_beam : CalibratedArray)
  : list event :=
  [EvOptimizerInit [shape0 (data_array initial_potential);
                    shape1 (data_array initial_potential)];
   EvOptimizerInit [shape0 (data_array initial_beam);
                    shape1 (data_array initial_beam)]]
  ++ (if real_space initial_beam then [] else [EvIfft2]).

(** The parameters of the model, instantiated: every update rule is
    [frozen_optimizer] and the gradient of a loss is its argument. *)
Definition example_grad2 (_ : matrixC * matrixC -> R)
           (p : matrixC * matrixC) : matrixC * matrixC := p.
Definition example_grad3 (_ : matrixC * matrixC * matrixR -> R)
           (p : matrixC * matrixC * matrixR) : matrixC * matrixC * matrixR := p.
Definition example_dtype (_ : CalibratedArray) : exn + dtype :=
  inr Complex128.
Definition example_forward_fn (_ _ _ : R)
           (_ : matrixC * unit * matrixR) : list matrixR := [].
Definition example_body (_ : matrixC * unit * matrixR -> R)
           (_ : Optimizer unit) (_ : matrixC) (_ : unit) (_ : matrixR)
           (_ _ : nat) (_ : rarray) : M unit := ret tt.

Definition unit_pixel (flag : bool) : CalibratedArray :=
  mkCalibratedArray [[C1]] 1 2 flag.

(** ** The remaining array functions of forward.py *)

(** [aberration(fourier_coord, lambda_angstrom, defocus, c3, c5)]. *)
Definition aberration (fourier_coord : matrixR)
           (lambda_angstrom defocus c3 c5 : R) : matrixR :=
  map (map (fun q =>
              let p := lambda_angstrom * q in
              let chi :=
                ((defocus * p ^ 2) / 2)
                + ((c3 * 1e7 * p ^ 4) / 4)
                + ((c5 * 1e7 * p ^ 6) / 6) in
              (2 * PI * chi) / lambda_angstrom))
      fourier_coord.

(** A calibration argument annotated [Float[Array, ""] | Float[Array, "2"]]:
    one pixel size for both axes, or one per axis. *)
Inductive calibration : Type :=
| CalScalar (c : R)
| CalPair (cy cx : R).

Definition calib_axis (c : calibration) (axis : nat) : R :=
  match c with
  | CalScalar c => c
  | CalPair cy cx => match axis with O => cy | _ => cx end
  end.

(** [fourier_calib(real_space_calib, sizebeam)]. *)
Definition fourier_calib (real_space_calib : calibration)
           (sizebeam : nat * nat) : R * R :=
  let field_of_view :=
    (INR (fst sizebeam) * calib_axis real_space_calib 0,
     INR (snd sizebeam) * calib_axis real_space_calib 1) in
  (1 / fst field_of_view, 1 / snd field_of_view).

(** [jnp.arange(-n / 2, n / 2, 1)]: the [n] values [-n/2 + i]. *)
Definition arange_centered (n : nat) : list R :=
  tab n (fun i => - (INR n / 2) + INR i).

(** [jnp.roll(l, shift)]: entry [i] moves to entry [(i + shift) mod n]. *)
Definition roll (l : list R) (shift : nat) : list R :=
  let n := length l in
  tab n (fun j => nth ((j + (n - shift mod n)) mod n) l 0).

(** A [pte.CalibratedArray] that holds a real array. *)
Record CalibratedReal : Type := mkCalibratedReal {
  cr_data_array : matrixR;
  cr_calib_y : R;
  cr_calib_x : R;
  cr_real_space : bool
}.

(** [fourier_coords(calibration, image_size)].  The entries [[1]] and [[0]]
    of the two frequency axes are read for the calibrations: an index past
    the end is clamped, and an empty axis has no entry to read, in which
    case there is no result. *)
Definition fourier_coords (calibration : calibration)
           (image_size : nat * nat) : option CalibratedReal :=
  let real_fov :=
    (INR (fst image_size) * calib_axis calibration 0,
     INR (snd image_size) * calib_axis calibration 1) in
  let inverse_arr_y :=
    map (fun v => v / fst real_fov) (arange_centered (fst image_size)) in
  let inverse_arr_x :=
    map (fun v => v / snd real_fov) (arange_centered (snd image_size)) in
  let shifter_y := (fst image_size / 2)%nat in
  let shifter_x := (snd image_size / 2)%nat in
  let inverse_shifted_y := roll inverse_arr_y shifter_y in
  let inverse_shifted_x := roll inverse_arr_x shifter_x in
  let inverse_xx := fun (_ : nat) c => nth c inverse_shifted_x 0 in
  let inverse_yy := fun r (_ : nat) => nth r inverse_shifted_y 0 in
  let inv_squared :=
    fun r c => inverse_yy r c * inverse_yy r c
               + inverse_xx r c * inverse_xx r c in
  let inverse_array :=
    tab2 (length inverse_shifted_y) (length inverse_shifted_x)
         (fun r c => sqrt (inv_squared r c)) in
  match inverse_arr_y, inverse_arr_x with
  | [], _ | _, [] => None
  | _, _ =>
      let calib_inverse_y :=
        nth 1 inverse_arr_y (last inverse_arr_y 0) - nth 0 inverse_arr_y 0 in
      let calib_inverse_x :=
        nth 1 inverse_arr_x (last inverse_arr_x 0) - nth 0 inverse_arr_x 0 in
      let inverse_space := false in
      Some (mkCalibratedReal inverse_array calib_inverse_y calib_inverse_x
                             inverse_space)
  end.

(** [normalize_mode_weights(weights)]. *)
Definition normalize_mode_weights (weights : list R) : list R :=
  map (fun w => w / fold_right Rplus 0 weights) weights.

(** ** Auxiliary notions for the properties of Part V *)

(** Mode [m] of a beam as a single-mode beam, [beam[:, :, m:m+1]]. *)
Definition single_mode (beam : array3) (m : nat) : array3 :=
  tab3 (shape0 beam) (shape1 beam) 1 (fun y x _ => get3 beam y x m).

(** Mode [m] of the multi-mode wave [w] is the only mode of [wm]. *)
Definition modewise (w wm : array3) (m : nat) : Prop :=
  shape0 w = shape0 wm /\ shape1 w = shape1 wm
  /\ (m < shape2 w)%nat /\ shape2 wm = 1%nat
  /\ forall y x : nat, (y < shape0 w)%nat -> (x < shape1 w)%nat ->
                       get3 w y x m = get3 wm y x 0.

(** [jnp.roll(a, (ny, nx), axis=(0, 1))]: the periodic translation of a
    3-D array by whole pixels. *)
Definition roll_pixels (a : array3) (ny nx : nat) : array3 :=
  tab3 (shape0 a) (shape1 a) (shape2 a)
       (fun y x m =>
          get3 a ((y + (shape0 a - ny mod shape0 a)) mod shape0 a)
                 ((x + (shape1 a - nx mod shape1 a)) mod shape1 a) m).

(** The pattern [stem_4D] computes for one row [(y, x)] of its position
    array. *)
Definition pattern_at (pot_slice beam : array3) (t V calib : R)
           (row : list R) : matrixR :=
  cbed (Arr3 pot_slice)
       (Arr3 (ifft2 (mul_newaxis
                       (fft2 beam)
                       (phase_ramp (fftfreq (shape0 beam) calib)
                                   (fftfreq (shape1 beam) calib)
                                   (nth 0 row 0) (nth 1 row 0)))))
       t V calib.

(** Entrywise sum and product of arrays of one shape. *)
Definition add2 (a b : matrixR) : matrixR := zip_with (zip_with Rplus) a b.
Definition mul2 (a b : matrixC) : matrixC := zip_with (zip_with Cmul) a b.

(** Finite products. *)
Fixpoint Cprod (n : nat) (f : nat -> C) : C :=
  match n with
  | O => C1
  | S k => (Cprod k f * f k)%C
  end.

(** The slices of a stack multiplied together, as a single slice. *)
Definition projected_slice (pot : array3) (H W : nat) : array3 :=
  tab3 H W 1 (fun y x _ => Cprod (shape2 pot) (fun s => get3 pot y x s)).

(** The total of the squared magnitudes of a wave, [jnp.sum(jnp.abs(w) ** 2)],
    and the total of a pattern, [jnp.sum(p)]. *)
Definition wave_energy (w : array3) : R :=
  Rsum (shape0 w)
       (fun y => Rsum (shape1 w)
                      (fun x => Rsum (shape2 w)
                                     (fun m => Rsqr (Cabs (get3 w y x m))))).

Definition pattern_total (p : matrixR) : R :=
  Rsum (shape0 p) (fun y => Rsum (shape1 p) (fun x => getR2 p y x)).

(** The complex conjugate. *)
Definition Cconj (z : C) : C := (Re z, - Im z).

(* ================================================================== *)
(** * Part II: auxiliary lemmas *)
(* ================================================================== *)

(** ** Tabulated lists *)

Section TabFacts.
Context {A : Type}.

Lemma tab_length (n : nat) (f : nat -> A) : length (tab n f) = n.
Proof. unfold tab. now rewrite length_map, length_seq. Qed.

Lemma nth_tab (n : nat) (f : nat -> A) (i : nat) (d : A) :
  (i < n)%nat -> nth i (tab n f) d = f i.
Proof.
  intros Hi. unfold tab.
  rewrite (nth_indep _ d (f 0%nat)) by now rewrite length_map, length_seq.
  rewrite map_nth, seq_nth by assumption. reflexivity.
Qed.

Lemma tab_ext (n : nat) (f g : nat -> A) :
  (forall i, (i < n)%nat -> f i = g i) -> tab n f = tab n g.
Proof.
  intros Hfg. unfold tab. apply map_ext_in.
  intros i Hi. apply in_seq in Hi. apply Hfg. lia.
Qed.

Lemma tab_nth (l : list A) (d : A) :
  tab (length l) (fun i => nth i l d) = l.
Proof.
  apply nth_ext with (d := d) (d' := d).
  - apply tab_length.
  - intros i Hi. rewrite tab_length in Hi. now apply nth_tab.
Qed.

Lemma tab_S (n : nat) (f : nat -> A) :
  tab (S n) f = tab n f ++ [f n].
Proof. unfold tab. now rewrite seq_S, map_app. Qed.
End TabFacts.

Lemma shape_tab3 {A : Type} (H W M : nat) (f : nat -> nat -> nat -> A) :
  (0 < H)%nat -> (0 < W)%nat ->
  shape0 (tab3 H W M f) = H /\ shape1 (tab3 H W M f) = W
  /\ shape2 (tab3 H W M f) = M.
Proof.
  intros HH HW. unfold shape0, shape1, shape2, tab3.
  rewrite tab_length. repeat split.
  - rewrite nth_tab by assumption. apply tab_length.
  - rewrite nth_tab by assumption. rewrite nth_tab by assumption.
    apply tab_length.
Qed.

Lemma get3_tab3 (H W M : nat) (f : nat -> nat -> nat -> C) (y x m : nat) :
  (y < H)%nat -> (x < W)%nat -> (m < M)%nat ->
  get3 (tab3 H W M f) y x m = f y x m.
Proof.
  intros Hy Hx Hm. unfold get3, tab3.
  now rewrite !nth_tab by assumption.
Qed.

Lemma tab3_ext {A : Type} (H W M : nat) (f g : nat -> nat -> nat -> A) :
  (forall y x m, (y < H)%nat -> (x < W)%nat -> (m < M)%nat ->
                 f y x m = g y x m) ->
  tab3 H W M f = tab3 H W M g.
Proof.
  intros Hfg. unfold tab3.
  apply tab_ext; intros y Hy. apply tab_ext; intros x Hx.
  apply tab_ext; intros m Hm. now apply Hfg.
Qed.

Lemma tab2_ext {A : Type} (H W : nat) (f g : nat -> nat -> A) :
  (forall y x, (y < H)%nat -> (x < W)%nat -> f y x = g y x) ->
  tab2 H W f = tab2 H W g.
Proof.
  intros Hfg. unfold tab2.
  apply tab_ext; intros y Hy. apply tab_ext; intros x Hx. now apply Hfg.
Qed.

(** A tabulated array with no rows or no columns is empty or a list of
    empty rows; its transforms are computed over an empty index set. *)
Lemma tab3_rect (H W M : nat) (f : nat -> nat -> nat -> C) :
  (0 < H)%nat -> (0 < W)%nat -> rect3 (tab3 H W M f).
Proof.
  intros HH HW. unfold rect3.
  destruct (shape_tab3 H W M f HH HW) as (-> & -> & ->).
  apply tab3_ext. intros. now rewrite get3_tab3.
Qed.

(** ** Complex arithmetic *)

Lemma Cmul_1_r (z : C) : (z * C1)%C = z.
Proof. destruct z; unfold Cmul, C1; simpl; f_equal; ring. Qed.

Lemma Cmul_0_r (z : C) : (z * C0)%C = C0.
Proof. destruct z; unfold Cmul, C0; simpl; f_equal; ring. Qed.

Lemma Cmul_comm (a b : C) : (a * b)%C = (b * a)%C.
Proof. destruct a, b; unfold Cmul; simpl; f_equal; ring. Qed.

Lemma Cmul_assoc (a b c : C) : (a * (b * c))%C = ((a * b) * c)%C.
Proof. destruct a, b, c; unfold Cmul; simpl; f_equal; ring. Qed.

Lemma Cadd_0_l (z : C) : (C0 + z)%C = z.
Proof. destruct z; unfold Cadd, C0; simpl; f_equal; ring. Qed.

Lemma Cadd_0_r (z : C) : (z + C0)%C = z.
Proof. destruct z; unfold Cadd, C0; simpl; f_equal; ring. Qed.

Lemma Cadd_comm (a b : C) : (a + b)%C = (b + a)%C.
Proof. destruct a, b; unfold Cadd; simpl; f_equal; ring. Qed.

Lemma Cadd_assoc (a b c : C) : (a + (b + c))%C = ((a + b) + c)%C.
Proof. destruct a, b, c; unfold Cadd; simpl; f_equal; ring. Qed.

Lemma Cmul_add_distr_r (a b c : C) : ((a + b) * c)%C = (a * c + b * c)%C.
Proof. destruct a, b, c; unfold Cadd, Cmul; simpl; f_equal; ring. Qed.

Lemma Cmul_add_distr_l (a b c : C) : (a * (b + c))%C = (a * b + a * c)%C.
Proof. destruct a, b, c; unfold Cadd, Cmul; simpl; f_equal; ring. Qed.

Lemma Cscal_add (r : R) (a b : C) :
  Cscal r (a + b)%C = (Cscal r a + Cscal r b)%C.
Proof. destruct a, b; unfold Cadd, Cscal; simpl; f_equal; ring. Qed.

Lemma Cscal_mul_l (r : R) (a b : C) :
  Cscal r (a * b)%C = (Cscal r a * b)%C.
Proof. destruct a, b; unfold Cmul, Cscal; simpl; f_equal; ring. Qed.

Lemma Cscal_Cscal (r s : R) (a : C) : Cscal r (Cscal s a) = Cscal (r * s) a.
Proof. destruct a; unfold Cscal; simpl; f_equal; ring. Qed.

Lemma Cscal_1 (a : C) : Cscal 1 a = a.
Proof. destruct a; unfold Cscal; simpl; f_equal; ring. Qed.

Lemma Cscal_0_r (r : R) : Cscal r C0 = C0.
Proof. unfold Cscal, C0; simpl; f_equal; ring. Qed.

(** The complex numbers have no zero divisors. *)
Lemma Cmul_integral (a b : C) : (a * b)%C = C0 -> b <> C0 -> a = C0.
Proof.
  destruct a as [a1 a2], b as [b1 b2]. unfold Cmul, C0; simpl.
  intros Heq Hb. injection Heq as H1 H2.
  assert (Hn : 0 < b1 * b1 + b2 * b2).
  { destruct (Req_dec b1 0) as [-> | Hb1].
    - destruct (Req_dec b2 0) as [-> | Hb2]; [now elim Hb | nra].
    - nra. }
  assert (Ha : (a1 * a1 + a2 * a2) * (b1 * b1 + b2 * b2) = 0) by nra.
  assert (Hz : a1 * a1 + a2 * a2 = 0).
  { apply Rmult_integral in Ha. destruct Ha; lra. }
  f_equal; nra.
Qed.

Lemma Cexp_i_add (a b : R) : Cexp_i (a + b) = (Cexp_i a * Cexp_i b)%C.
Proof.
  unfold Cexp_i, Cmul; simpl. rewrite cos_plus, sin_plus. f_equal; ring.
Qed.

Lemma Cexp_i_0 : Cexp_i 0 = C1.
Proof. unfold Cexp_i, C1. now rewrite cos_0, sin_0. Qed.

Lemma Cabs_Cexp_i (t : R) : Cabs (Cexp_i t) = 1.
Proof.
  unfold Cabs, Cexp_i; simpl.
  replace (cos t * cos t + sin t * sin t) with 1.
  - apply sqrt_1.
  - pose proof (sin2_cos2 t) as Hsc. unfold Rsqr in Hsc. lra.
Qed.

Lemma Cabs_nonneg (z : C) : 0 <= Cabs z.
Proof. apply sqrt_pos. Qed.

(** [exp(2 pi i n) = 1] for every integer [n]. *)
Lemma Cexp_i_2PI_nat (n : nat) : Cexp_i (2 * PI * INR n) = C1.
Proof.
  unfold Cexp_i, C1.
  replace (2 * PI * INR n) with (0 + 2 * INR n * PI) by ring.
  now rewrite cos_period, sin_period, cos_0, sin_0.
Qed.

Lemma Cexp_i_neg_2PI_nat (n : nat) : Cexp_i (- (2 * PI * INR n)) = C1.
Proof.
  pose proof (Cexp_i_2PI_nat n) as Hn. unfold Cexp_i, C1 in *.
  injection Hn as Hc Hs.
  rewrite cos_neg, sin_neg, Hc, Hs. f_equal. ring.
Qed.

(** On the open interval [(0, 2 pi)] the exponential differs from one. *)
Lemma Cexp_i_neq_1 (t : R) : 0 < t < 2 * PI -> Cexp_i t <> C1.
Proof.
  intros [Ht0 Ht1] Heq. unfold Cexp_i, C1 in Heq. injection Heq as Hc Hs.
  destruct (Rlt_or_le t PI) as [Hlt | Hge].
  - pose proof (sin_gt_0 t Ht0 Hlt). lra.
  - destruct (Req_dec t PI) as [-> | Hne].
    + rewrite cos_PI in Hc. lra.
    + assert (HltPI : PI < t) by lra.
      pose proof (sin_lt_0 t HltPI Ht1). lra.
Qed.

Lemma Cexp_i_neg_neq_1 (t : R) : 0 < t < 2 * PI -> Cexp_i (- t) <> C1.
Proof.
  intros Ht Heq. apply (Cexp_i_neq_1 t Ht).
  unfold Cexp_i, C1 in *. injection Heq as Hc Hs.
  rewrite cos_neg in Hc. rewrite sin_neg in Hs. f_equal; lra.
Qed.

(** ** Finite sums *)

Lemma Csum_ext (n : nat) (f g : nat -> C) :
  (forall i, (i < n)%nat -> f i = g i) -> Csum n f = Csum n g.
Proof.
  induction n as [|n IH]; intros Hfg; simpl; [reflexivity|].
  rewrite IH by (intros; apply Hfg; lia). now rewrite Hfg by lia.
Qed.

Lemma Csum_zero (n : nat) : Csum n (fun _ => C0) = C0.
Proof.
  induction n as [|n IH]; simpl; [reflexivity|].
  now rewrite IH, Cadd_0_r.
Qed.

Lemma Csum_add (n : nat) (f g : nat -> C) :
  Csum n (fun i => (f i + g i)%C) = (Csum n f + Csum n g)%C.
Proof.
  induction n as [|n IH]; simpl.
  - now rewrite Cadd_0_r.
  - rewrite IH. destruct (Csum n f), (Csum n g), (f n), (g n).
    unfold Cadd; simpl; f_equal; ring.
Qed.

Lemma Csum_mul_r (n : nat) (f : nat -> C) (c : C) :
  Csum n (fun i => (f i * c)%C) = (Csum n f * c)%C.
Proof.
  induction n as [|n IH]; simpl.
  - now rewrite Cmul_comm, Cmul_0_r.
  - now rewrite IH, Cmul_add_distr_r.
Qed.

Lemma Csum_mul_l (n : nat) (f : nat -> C) (c : C) :
  Csum n (fun i => (c * f i)%C) = (c * Csum n f)%C.
Proof.
  induction n as [|n IH]; simpl.
  - now rewrite Cmul_0_r.
  - now rewrite IH, Cmul_add_distr_l.
Qed.

Lemma Csum_scal (n : nat) (r : R) (f : nat -> C) :
  Csum n (fun i => Cscal r (f i)) = Cscal r (Csum n f).
Proof.
  induction n as [|n IH]; simpl.
  - now rewrite Cscal_0_r.
  - now rewrite IH, Cscal_add.
Qed.

(** Exchange of two finite sums. *)
Lemma Csum_swap (n m : nat) (f : nat -> nat -> C) :
  Csum n (fun i => Csum m (fun j => f i j))
  = Csum m (fun j => Csum n (fun i => f i j)).
Proof.
  induction n as [|n IH]; simpl.
  - now rewrite Csum_zero.
  - now rewrite IH, <- Csum_add.
Qed.

(** A sum whose terms vanish away from one index. *)
Lemma Csum_single (n j : nat) (f : nat -> C) :
  (j < n)%nat -> (forall i, (i < n)%nat -> i <> j -> f i = C0) ->
  Csum n f = f j.
Proof.
  induction n as [|n IH]; intros Hj Hz; [lia|]. simpl.
  destruct (Nat.eq_dec j n) as [-> | Hne].
  - rewrite (Csum_ext n f (fun _ => C0)).
    + now rewrite Csum_zero, Cadd_0_l.
    + intros i Hi. apply Hz; lia.
  - rewrite IH by (try lia; intros; apply Hz; lia).
    rewrite (Hz n) by lia. apply Cadd_0_r.
Qed.

Lemma Rsum_nonneg (n : nat) (f : nat -> R) :
  (forall i, (i < n)%nat -> 0 <= f i) -> 0 <= Rsum n f.
Proof.
  induction n as [|n IH]; intros Hf; simpl; [lra|].
  assert (0 <= Rsum n f) by (apply IH; intros; apply Hf; lia).
  assert (0 <= f n) by (apply Hf; lia). lra.
Qed.

(** ** Roots of unity and the inversion of the discrete transforms *)

Lemma geom_telescope (N : nat) (theta : R) :
  (geom N theta * (Cexp_i theta + Copp C1))%C
  = (Cexp_i (INR N * theta) + Copp C1)%C.
Proof.
  unfold geom. induction N as [|N IH].
  - simpl. rewrite Rmult_0_l, Cexp_i_0.
    unfold Cmul, Cadd, Copp, C0, C1; simpl. f_equal; ring.
  - cbn [Csum]. rewrite Cmul_add_distr_r, IH.
    rewrite S_INR.
    replace ((INR N + 1) * theta) with (INR N * theta + theta) by ring.
    rewrite Cexp_i_add.
    destruct (Cexp_i (INR N * theta)) as [a b].
    destruct (Cexp_i theta) as [c d].
    unfold Cmul, Cadd, Copp, C1; simpl. f_equal; ring.
Qed.

Lemma geom_vanishes (N : nat) (theta : R) :
  Cexp_i theta <> C1 -> Cexp_i (INR N * theta) = C1 -> geom N theta = C0.
Proof.
  intros Hw HN.
  apply Cmul_integral with (b := (Cexp_i theta + Copp C1)%C).
  - rewrite geom_telescope, HN.
    unfold Cadd, Copp, C1, C0; simpl. f_equal; ring.
  - intros Hz. apply Hw.
    destruct (Cexp_i theta) as [c d].
    unfold Cadd, Copp, C1, C0 in *; simpl in *.
    injection Hz as H1 H2. f_equal; lra.
Qed.

Lemma geom_at_0 (N : nat) : geom N 0 = RtoC (INR N).
Proof.
  unfold geom. induction N as [|N IH].
  - reflexivity.
  - cbn [Csum]. rewrite IH, Rmult_0_r, Cexp_i_0, S_INR.
    unfold Cadd, RtoC, C1; simpl. f_equal; ring.
Qed.

(** The angle between two distinct indices below [N] is a proper fraction
    of the full turn. *)
Lemma index_angle (N a b : nat) :
  (a < N)%nat -> (b < N)%nat ->
  let theta := 2 * PI * (INR b - INR a) / INR N in
  geom N theta = if (a =? b)%nat then RtoC (INR N) else C0.
Proof.
  intros Ha Hb theta.
  assert (HN : 0 < INR N) by (apply lt_0_INR; lia).
  assert (HPI : 0 < PI) by apply PI_RGT_0.
  destruct (Nat.eqb_spec a b) as [-> | Hne].
  - replace theta with 0 by (unfold theta; field; lra).
    apply geom_at_0.
  - apply geom_vanishes.
    + destruct (Nat.lt_ge_cases a b) as [Hlt | Hge].
      * apply Cexp_i_neq_1. unfold theta.
        assert (H1 : 0 < INR b - INR a) by (apply lt_INR in Hlt; lra).
        assert (H2 : INR b - INR a < INR N).
        { apply lt_INR in Hb. pose proof (pos_INR a). lra. }
        split.
        -- apply Rdiv_lt_0_compat; [nra | assumption].
        -- apply Rmult_lt_reg_r with (INR N); [assumption|].
           unfold Rdiv. rewrite Rmult_assoc, Rinv_l by lra. nra.
      * assert (Hlt : (b < a)%nat) by lia.
        replace theta with (- (2 * PI * (INR a - INR b) / INR N))
          by (unfold theta; field; lra).
        apply Cexp_i_neg_neq_1.
        assert (H1 : 0 < INR a - INR b) by (apply lt_INR in Hlt; lra).
        assert (H2 : INR a - INR b < INR N).
        { apply lt_INR in Ha. pose proof (pos_INR b). lra. }
        split.
        -- apply Rdiv_lt_0_compat; [nra | assumption].
        -- apply Rmult_lt_reg_r with (INR N); [assumption|].
           unfold Rdiv. rewrite Rmult_assoc, Rinv_l by lra. nra.
    + destruct (Nat.lt_ge_cases a b) as [Hlt | Hge].
      * replace (INR N * theta) with (2 * PI * INR (b - a)).
        -- apply Cexp_i_2PI_nat.
        -- rewrite minus_INR by lia. unfold theta. field. lra.
      * replace (INR N * theta) with (- (2 * PI * INR (a - b))).
        -- apply Cexp_i_neg_2PI_nat.
        -- rewrite minus_INR by lia. unfold theta. field. lra.
Qed.

Lemma twiddle_sym (s : R) (N k y : nat) : twiddle s N k y = twiddle s N y k.
Proof. unfold twiddle. f_equal. unfold Rdiv. ring. Qed.

Lemma twiddle_pair (s t : R) (N j a b : nat) :
  s = 1 -> t = -1 ->
  (twiddle t N j a * twiddle s N j b)%C
  = Cexp_i (INR j * (2 * PI * (INR b - INR a) / INR N)).
Proof.
  intros -> ->. unfold twiddle. rewrite <- Cexp_i_add. f_equal.
  unfold Rdiv. ring.
Qed.

Lemma twiddle_pair' (s t : R) (N j a b : nat) :
  s = -1 -> t = 1 ->
  (twiddle t N j a * twiddle s N j b)%C
  = Cexp_i (INR j * (2 * PI * (INR a - INR b) / INR N)).
Proof.
  intros -> ->. unfold twiddle. rewrite <- Cexp_i_add. f_equal.
  unfold Rdiv. ring.
Qed.

(** Orthogonality of the kernels of opposite sign. *)
Lemma twiddle_orth (s t : R) (N a b : nat) :
  (s = 1 /\ t = -1) \/ (s = -1 /\ t = 1) ->
  (a < N)%nat -> (b < N)%nat ->
  Csum N (fun j => (twiddle t N j a * twiddle s N j b)%C)
  = if (a =? b)%nat then RtoC (INR N) else C0.
Proof.
  intros [[Hs Ht] | [Hs Ht]] Ha Hb.
  - rewrite (Csum_ext _ _ (fun j => Cexp_i (INR j * (2 * PI * (INR b - INR a) / INR N)))).
    + apply (index_angle N a b Ha Hb).
    + intros j _. now apply twiddle_pair.
  - rewrite (Csum_ext _ _ (fun j => Cexp_i (INR j * (2 * PI * (INR a - INR b) / INR N)))).
    + rewrite Nat.eqb_sym. apply (index_angle N b a Hb Ha).
    + intros j _. now apply twiddle_pair'.
Qed.

(** The core of both inversion theorems. *)
Lemma double_sum_orth (s t : R) (N : nat) (g : nat -> C) (b : nat) :
  (s = 1 /\ t = -1) \/ (s = -1 /\ t = 1) ->
  (b < N)%nat ->
  Csum N (fun j => (Csum N (fun a => (g a * twiddle t N j a)%C)
                    * twiddle s N j b)%C)
  = (g b * RtoC (INR N))%C.
Proof.
  intros Hst Hb.
  rewrite (Csum_ext _ _
    (fun j => Csum N (fun a => (g a * (twiddle t N j a * twiddle s N j b))%C))).
  2:{ intros j _. rewrite <- Csum_mul_r. apply Csum_ext.
      intros a _. now rewrite Cmul_assoc. }
  rewrite Csum_swap.
  rewrite (Csum_ext _ _
    (fun a => (g a * (if (a =? b)%nat then RtoC (INR N) else C0))%C)).
  2:{ intros a Ha. rewrite Csum_mul_l. f_equal.
      now apply twiddle_orth. }
  rewrite (Csum_single N b).
  - now rewrite Nat.eqb_refl.
  - assumption.
  - intros i _ Hi. destruct (Nat.eqb_spec i b); [contradiction|].
    apply Cmul_0_r.
Qed.

Lemma Cscal_inv_RtoC (N : nat) (z : C) :
  (0 < N)%nat -> Cscal (/ INR N) (z * RtoC (INR N))%C = z.
Proof.
  intros HN. assert (0 < INR N) by (apply lt_0_INR; lia).
  destruct z as [a b]. unfold Cscal, Cmul, RtoC; simpl.
  f_equal; field; lra.
Qed.

Lemma idft1_dft1 (N : nat) (g : nat -> C) (y : nat) :
  (y < N)%nat -> idft1 N (dft1 N g) y = g y.
Proof.
  intros Hy. unfold idft1, dft1.
  rewrite (double_sum_orth 1 (-1)) by (auto; lia).
  apply Cscal_inv_RtoC. lia.
Qed.

Lemma dft1_idft1 (N : nat) (G : nat -> C) (k : nat) :
  (k < N)%nat -> dft1 N (idft1 N G) k = G k.
Proof.
  intros Hk. unfold idft1, dft1.
  rewrite (Csum_ext _ _
    (fun y => Cscal (/ INR N)
                (Csum N (fun a => (G a * twiddle 1 N y a)%C)
                 * twiddle (-1) N y k)%C)).
  2:{ intros y _. rewrite Cscal_mul_l. f_equal. f_equal.
      apply Csum_ext. intros a _. now rewrite twiddle_sym. apply twiddle_sym. }
  rewrite Csum_scal.
  rewrite (double_sum_orth (-1) 1) by (auto; lia).
  apply Cscal_inv_RtoC. lia.
Qed.

Lemma dft1_ext (N : nat) (f g : nat -> C) (k : nat) :
  (forall y, (y < N)%nat -> f y = g y) -> dft1 N f k = dft1 N g k.
Proof.
  intros Hfg. unfold dft1. apply Csum_ext. intros y Hy. now rewrite Hfg.
Qed.

Lemma idft1_ext (N : nat) (F G : nat -> C) (y : nat) :
  (forall k, (k < N)%nat -> F k = G k) -> idft1 N F y = idft1 N G y.
Proof.
  intros Hfg. unfold idft1. f_equal. apply Csum_ext.
  intros k Hk. now rewrite Hfg.
Qed.

(** A transform along one axis commutes with an inverse transform along
    the other. *)
Lemma idft1_dft1_commute (W H : nat) (A : nat -> nat -> C) (k x : nat) :
  idft1 W (fun l => dft1 H (fun y0 => A y0 l) k) x
  = dft1 H (fun y0 => idft1 W (fun l => A y0 l) x) k.
Proof.
  unfold idft1, dft1.
  rewrite (Csum_ext H
    (fun y0 => (Cscal (/ INR W) (Csum W (fun l => (A y0 l * twiddle 1 W l x)%C))
                * twiddle (-1) H k y0)%C)
    (fun y0 => Cscal (/ INR W)
                 (Csum W (fun l => ((A y0 l * twiddle (-1) H k y0)
                                    * twiddle 1 W l x)%C)))).
  2:{ intros y0 _. rewrite <- Cscal_mul_l. f_equal.
      rewrite <- Csum_mul_r. apply Csum_ext. intros l _.
      rewrite <- !Cmul_assoc. f_equal. apply Cmul_comm. }
  rewrite Csum_scal. f_equal.
  rewrite Csum_swap. apply Csum_ext. intros l _.
  now rewrite Csum_mul_r.
Qed.

Lemma dft2_ext (H W : nat) (f g : nat -> nat -> C) (k l : nat) :
  (forall y x, (y < H)%nat -> (x < W)%nat -> f y x = g y x) ->
  dft2 H W f k l = dft2 H W g k l.
Proof.
  intros Hfg. unfold dft2. apply dft1_ext. intros y Hy.
  apply dft1_ext. intros x Hx. now apply Hfg.
Qed.

Lemma idft2_ext (H W : nat) (F G : nat -> nat -> C) (y x : nat) :
  (forall k l, (k < H)%nat -> (l < W)%nat -> F k l = G k l) ->
  idft2 H W F y x = idft2 H W G y x.
Proof.
  intros Hfg. unfold idft2. apply idft1_ext. intros k Hk.
  apply idft1_ext. intros l Hl. now apply Hfg.
Qed.

Lemma idft2_dft2 (H W : nat) (f : nat -> nat -> C) (y x : nat) :
  (y < H)%nat -> (x < W)%nat -> idft2 H W (dft2 H W f) y x = f y x.
Proof.
  intros Hy Hx. unfold idft2, dft2.
  rewrite (idft1_ext H _ (dft1 H (fun y0 => f y0 x))).
  - now rewrite idft1_dft1.
  - intros k _. rewrite idft1_dft1_commute.
    apply dft1_ext. intros y0 _.
    now rewrite (idft1_dft1 W (fun x0 => f y0 x0)).
Qed.

Lemma dft2_idft2 (H W : nat) (F : nat -> nat -> C) (k l : nat) :
  (k < H)%nat -> (l < W)%nat -> dft2 H W (idft2 H W F) k l = F k l.
Proof.
  intros Hk Hl. unfold idft2, dft2.
  rewrite (dft1_ext H _ (idft1 H (fun k0 => F k0 l))).
  - now rewrite dft1_idft1.
  - intros y _. rewrite <- idft1_dft1_commute.
    apply idft1_ext. intros k0 _.
    now rewrite (dft1_idft1 W (fun l0 => F k0 l0)).
Qed.

(** ** Shapes and transforms of arrays *)

Lemma Forall_tab {A : Type} (P : A -> Prop) (n : nat) (f : nat -> A) :
  (forall i, (i < n)%nat -> P (f i)) -> Forall P (tab n f).
Proof.
  intros HP. unfold tab. apply Forall_forall. intros v Hv.
  apply in_map_iff in Hv. destruct Hv as (i & <- & Hi).
  apply in_seq in Hi. apply HP. lia.
Qed.

(** Tabulating over the shape of an array gives an array of that shape,
    also when an axis is empty. *)
Lemma shape_tab3_like {A B : Type} (a : list (list (list A)))
      (f : nat -> nat -> nat -> B) :
  let t := tab3 (shape0 a) (shape1 a) (shape2 a) f in
  shape0 t = shape0 a /\ shape1 t = shape1 a /\ shape2 t = shape2 a.
Proof.
  intros t. unfold t.
  destruct (Nat.eq_dec (shape0 a) 0) as [H0 | H0].
  - unfold shape0 in H0. apply length_zero_iff_nil in H0. subst a.
    now cbn.
  - destruct (Nat.eq_dec (shape1 a) 0) as [W0 | W0].
    + assert (M0 : shape2 a = 0%nat).
      { unfold shape1 in W0. apply length_zero_iff_nil in W0.
        unfold shape2. now rewrite W0. }
      rewrite W0, M0. unfold shape0, shape1, shape2, tab3.
      rewrite tab_length. repeat split.
      * rewrite nth_tab by (unfold shape0 in H0; lia). now cbn.
      * rewrite nth_tab by (unfold shape0 in H0; lia). now cbn.
    + apply shape_tab3; lia.
Qed.

Lemma rect3_tab3_like {A : Type} (a : list (list (list A)))
      (f : nat -> nat -> nat -> C) :
  rect3 (tab3 (shape0 a) (shape1 a) (shape2 a) f).
Proof.
  unfold rect3.
  destruct (shape_tab3_like a f) as (-> & -> & ->).
  apply tab3_ext. intros. now rewrite get3_tab3.
Qed.

Lemma shape_fft2 (a : array3) :
  shape0 (fft2 a) = shape0 a /\ shape1 (fft2 a) = shape1 a
  /\ shape2 (fft2 a) = shape2 a.
Proof. apply (shape_tab3_like a). Qed.

Lemma shape_ifft2 (a : array3) :
  shape0 (ifft2 a) = shape0 a /\ shape1 (ifft2 a) = shape1 a
  /\ shape2 (ifft2 a) = shape2 a.
Proof. apply (shape_tab3_like a). Qed.

Lemma rect3_fft2 (a : array3) : rect3 (fft2 a).
Proof. apply rect3_tab3_like. Qed.

Lemma rect3_ifft2 (a : array3) : rect3 (ifft2 a).
Proof. apply rect3_tab3_like. Qed.

(** Inverse transform after transform, on arrays. *)
Lemma ifft2_fft2 (a : array3) : rect3 a -> ifft2 (fft2 a) = a.
Proof.
  intros Ha. unfold ifft2.
  destruct (shape_fft2 a) as (-> & -> & ->).
  etransitivity; [|symmetry; exact Ha].
  apply tab3_ext. intros y x m Hy Hx Hm.
  rewrite (idft2_ext _ _ _
             (dft2 (shape0 a) (shape1 a) (fun y0 x0 => get3 a y0 x0 m))).
  - now rewrite idft2_dft2.
  - intros k l Hk Hl. unfold fft2. now rewrite get3_tab3.
Qed.

Lemma fft2_ifft2 (a : array3) : rect3 a -> fft2 (ifft2 a) = a.
Proof.
  intros Ha. unfold fft2.
  destruct (shape_ifft2 a) as (-> & -> & ->).
  etransitivity; [|symmetry; exact Ha].
  apply tab3_ext. intros k l m Hk Hl Hm.
  rewrite (dft2_ext _ _ _
             (idft2 (shape0 a) (shape1 a) (fun k0 l0 => get3 a k0 l0 m))).
  - now rewrite dft2_idft2.
  - intros y x Hy Hx. unfold ifft2. now rewrite get3_tab3.
Qed.

Lemma shape_mul_newaxis (a : array3) (r : nat -> nat -> C) :
  shape0 (mul_newaxis a r) = shape0 a /\ shape1 (mul_newaxis a r) = shape1 a
  /\ shape2 (mul_newaxis a r) = shape2 a.
Proof. apply (shape_tab3_like a). Qed.

Lemma rect3_mul_newaxis (a : array3) (r : nat -> nat -> C) :
  rect3 (mul_newaxis a r).
Proof. apply rect3_tab3_like. Qed.

Lemma mul_newaxis_one (a : array3) (r : nat -> nat -> C) :
  rect3 a ->
  (forall y x, (y < shape0 a)%nat -> (x < shape1 a)%nat -> r y x = C1) ->
  mul_newaxis a r = a.
Proof.
  intros Ha Hr. unfold mul_newaxis.
  etransitivity; [|symmetry; exact Ha].
  apply tab3_ext. intros y x m Hy Hx Hm.
  now rewrite Hr, Cmul_1_r.
Qed.

Lemma mul_newaxis_zero (a : array3) (r : nat -> nat -> C) :
  (forall y x, (y < shape0 a)%nat -> (x < shape1 a)%nat -> r y x = C0) ->
  mul_newaxis a r = tab3 (shape0 a) (shape1 a) (shape2 a) (fun _ _ _ => C0).
Proof.
  intros Hr. unfold mul_newaxis.
  apply tab3_ext. intros y x m Hy Hx Hm.
  now rewrite Hr, Cmul_0_r.
Qed.

Lemma mul_newaxis_mul_newaxis (a : array3) (r s : nat -> nat -> C) :
  mul_newaxis (mul_newaxis a r) s = mul_newaxis a (fun y x => (r y x * s y x)%C).
Proof.
  unfold mul_newaxis at 1.
  destruct (shape_mul_newaxis a r) as (-> & -> & ->).
  unfold mul_newaxis. apply tab3_ext. intros y x m Hy Hx Hm.
  now rewrite get3_tab3, Cmul_assoc.
Qed.

(** ** The wavelength *)

Lemma constants_pos : 0 < m_e /\ 0 < e_e /\ 0 < c_light /\ 0 < h_planck.
Proof. unfold m_e, e_e, c_light, h_planck. repeat split; lra. Qed.

(** The denominator under the square root is positive for [V > 0]. *)
Lemma denominator_pos (V : R) :
  0 < V ->
  0 < V * 1000.0 * e_e * (2 * m_e * Rsqr c_light + V * 1000.0 * e_e).
Proof.
  intros HV. destruct constants_pos as (Hm & He & Hc & _).
  assert (0 < V * 1000.0 * e_e) by nra.
  assert (0 < c_light * c_light) by nra.
  assert (0 < 2 * m_e * Rsqr c_light) by (unfold Rsqr; nra).
  apply Rmult_lt_0_compat; lra.
Qed.

Lemma closed_form_radicand_pos (V : R) :
  0 < V ->
  0 < 2 * m_e * e_e * (1000 * V)
      * (1 + e_e * (1000 * V) / (2 * m_e * (c_light * c_light))).
Proof.
  intros HV. destruct constants_pos as (Hm & He & Hc & _).
  assert (0 < c_light * c_light) by nra.
  assert (0 < 2 * m_e * (c_light * c_light)) by nra.
  assert (0 < e_e * (1000 * V)) by nra.
  assert (0 < e_e * (1000 * V) / (2 * m_e * (c_light * c_light)))
    by (apply Rdiv_lt_0_compat; assumption).
  assert (0 < 2 * m_e * e_e * (1000 * V)) by nra.
  apply Rmult_lt_0_compat; lra.
Qed.

Lemma wavelength_ang_eq_closed (V : R) :
  0 < V -> wavelength_ang V = wavelength_closed_form V.
Proof.
  intros HV. unfold wavelength_ang, wavelength_closed_form.
  pose proof (denominator_pos V HV) as HD.
  pose proof (closed_form_radicand_pos V HV) as HX.
  destruct constants_pos as (Hm & He & Hc & Hh).
  set (X := 2 * m_e * e_e * (1000 * V)
            * (1 + e_e * (1000 * V) / (2 * m_e * (c_light * c_light)))) in *.
  cbv zeta.
  replace (Rsqr h_planck * Rsqr c_light
           / (V * 1000.0 * e_e * (2 * m_e * Rsqr c_light + V * 1000.0 * e_e)))
    with (h_planck * h_planck / X).
  - rewrite sqrt_div_alt by assumption.
    rewrite sqrt_square by lra.
    unfold Rdiv. ring.
  - replace 1000.0 with 1000 in * by lra.
    unfold X, Rsqr. field.
    assert (0 < c_light * c_light) by nra.
    assert (0 < 2 * m_e * (c_light * c_light)) by nra.
    assert (0 < e_e * (1000 * V)) by nra.
    unfold Rsqr in HD. repeat split; try lra; nra.
Qed.

(** A two-sided bound on [wavelength_ang] from bounds on its square. *)
Lemma wavelength_ang_between (V lo hi : R) :
  0 < V -> 0 <= lo -> 0 <= hi ->
  let D := V * 1000.0 * e_e * (2 * m_e * Rsqr c_light + V * 1000.0 * e_e) in
  (lo / 1e10) * (lo / 1e10) * D <= Rsqr h_planck * Rsqr c_light ->
  Rsqr h_planck * Rsqr c_light <= (hi / 1e10) * (hi / 1e10) * D ->
  lo <= wavelength_ang V <= hi.
Proof.
  intros HV Hlo Hhi D H1 H2.
  pose proof (denominator_pos V HV) as HD. fold D in HD.
  unfold wavelength_ang. cbv zeta. fold D.
  set (q := Rsqr h_planck * Rsqr c_light / D).
  assert (Hq1 : (lo / 1e10) * (lo / 1e10) <= q).
  { unfold q. apply Rmult_le_reg_r with D; [assumption|].
    replace (Rsqr h_planck * Rsqr c_light / D * D)
      with (Rsqr h_planck * Rsqr c_light) by (field; lra).
    assumption. }
  assert (Hq2 : q <= (hi / 1e10) * (hi / 1e10)).
  { unfold q. apply Rmult_le_reg_r with D; [assumption|].
    replace (Rsqr h_planck * Rsqr c_light / D * D)
      with (Rsqr h_planck * Rsqr c_light) by (field; lra).
    assumption. }
  assert (Hl : lo / 1e10 <= sqrt q).
  { rewrite <- (sqrt_square (lo / 1e10)) by (apply Rle_mult_inv_pos; lra).
    apply sqrt_le_1_alt; assumption. }
  assert (Hh : sqrt q <= hi / 1e10).
  { rewrite <- (sqrt_square (hi / 1e10)) by (apply Rle_mult_inv_pos; lra).
    apply sqrt_le_1_alt; assumption. }
  split; lra.
Qed.

(** ** The multislice engine *)

Lemma Cmul_0_l (z : C) : (C0 * z)%C = C0.
Proof. now rewrite Cmul_comm, Cmul_0_r. Qed.

Lemma dft1_zero (N : nat) (k : nat) : dft1 N (fun _ => C0) k = C0.
Proof.
  unfold dft1. rewrite (Csum_ext _ _ (fun _ => C0)).
  - apply Csum_zero.
  - intros. apply Cmul_0_l.
Qed.

Lemma dft2_zero (H W : nat) (k l : nat) :
  dft2 H W (fun _ _ => C0) k l = C0.
Proof.
  unfold dft2. rewrite (dft1_ext _ _ (fun _ => C0)).
  - apply dft1_zero.
  - intros. apply dft1_zero.
Qed.

Lemma Rsum_zero (n : nat) : Rsum n (fun _ => 0) = 0.
Proof. induction n as [|n IH]; simpl; [reflexivity | rewrite IH; ring]. Qed.

Lemma Rsum_ext (n : nat) (f g : nat -> R) :
  (forall i, (i < n)%nat -> f i = g i) -> Rsum n f = Rsum n g.
Proof.
  induction n as [|n IH]; intros Hfg; simpl; [reflexivity|].
  rewrite IH by (intros; apply Hfg; lia). now rewrite Hfg by lia.
Qed.

Lemma Cabs_C0 : Cabs C0 = 0.
Proof.
  unfold Cabs, C0; simpl. replace (0 * 0 + 0 * 0) with 0 by ring.
  apply sqrt_0.
Qed.

Lemma Cabs_C1 : Cabs C1 = 1.
Proof.
  unfold Cabs, C1; simpl. replace (1 * 1 + 0 * 0) with 1 by ring.
  apply sqrt_1.
Qed.

Lemma shift_index_lt (n j : nat) : (0 < n)%nat -> (shift_index n j < n)%nat.
Proof. intros Hn. unfold shift_index. apply Nat.mod_upper_bound. lia. Qed.

Lemma shape_fftshift (a : array3) :
  shape0 (fftshift a) = shape0 a /\ shape1 (fftshift a) = shape1 a
  /\ shape2 (fftshift a) = shape2 a.
Proof. apply (shape_tab3_like a). Qed.

(** Entries of the centred transform, inside the array. *)
Lemma get3_fftshift_fft2 (a : array3) (y x m : nat) :
  (y < shape0 a)%nat -> (x < shape1 a)%nat -> (m < shape2 a)%nat ->
  get3 (fftshift (fft2 a)) y x m
  = dft2 (shape0 a) (shape1 a) (fun y0 x0 => get3 a y0 x0 m)
         (shift_index (shape0 a) y) (shift_index (shape1 a) x).
Proof.
  intros Hy Hx Hm. unfold fftshift.
  destruct (shape_fft2 a) as (-> & -> & ->).
  rewrite get3_tab3 by assumption.
  unfold fft2. rewrite get3_tab3; [reflexivity | | | assumption].
  - apply shift_index_lt; lia.
  - apply shift_index_lt; lia.
Qed.

Lemma far_field_shape (a : array3) :
  far_field_intensity a
  = tab2 (shape0 a) (shape1 a)
         (fun y x => Rsum (shape2 a)
            (fun m => Rsqr (Cabs (get3 (fftshift (fft2 a)) y x m)))).
Proof.
  unfold far_field_intensity.
  destruct (shape_fftshift (fft2 a)) as (-> & -> & ->).
  destruct (shape_fft2 a) as (-> & -> & ->).
  reflexivity.
Qed.

(** With a single slice the scan is one multiplication and no
    propagation. *)
Lemma cbed_single_slice (pot_slice beam : ndarray) (t V calib : R) :
  shape2 (atleast_3d pot_slice) = 1%nat ->
  cbed pot_slice beam t V calib
  = far_field_intensity
      (mul_newaxis (atleast_3d beam)
                   (fun y x => get3 (atleast_3d pot_slice) y x 0)).
Proof.
  intros HS. unfold cbed. cbv zeta. rewrite HS. reflexivity.
Qed.

Lemma twiddle_0_l (s : R) (N y : nat) : twiddle s N 0 y = C1.
Proof.
  unfold twiddle. cbn [INR].
  replace (s * (2 * PI) * (0 * INR y) / INR N) with 0
    by (unfold Rdiv; ring).
  apply Cexp_i_0.
Qed.

(** ** The monad *)

Lemma bind_ret {A B : Type} (a : A) (k : A -> M B) (tr : list event) :
  bind (ret a) k tr = k a tr.
Proof. reflexivity. Qed.

Lemma bind_raise {A B : Type} (e : exn) (k : A -> M B) (tr : list event) :
  bind (raise e) k tr = (inl e, tr).
Proof. reflexivity. Qed.

Lemma bind_emit {B : Type} (ev : event) (k : unit -> M B) (tr : list event) :
  bind (emit ev) k tr = k tt (tr ++ [ev]).
Proof. reflexivity. Qed.

Lemma bind_assoc {A B D : Type} (m : M A) (k : A -> M B) (h : B -> M D)
      (tr : list event) :
  bind (bind m k) h tr = bind m (fun a => bind (k a) h) tr.
Proof. unfold bind. destruct (m tr) as [[e | a] tr']; reflexivity. Qed.

(** A computation that returned went through each of its steps. *)
Lemma bind_inr {A B : Type} (m : M A) (k : A -> M B) (tr tr' : list event)
      (b : B) :
  bind m k tr = (inr b, tr') ->
  exists a tr1, m tr = (inr a, tr1) /\ k a tr1 = (inr b, tr').
Proof.
  unfold bind. destruct (m tr) as [[e | a] tr1]; intros Heq.
  - discriminate.
  - now exists a, tr1.
Qed.

(** ** Registries *)

Lemma loss_type_registered (loss_type : string) :
  In loss_type ["mae"; "mse"; "rmse"]%string ->
  exists f, dict_get loss_type loss_functions = Some f.
Proof.
  intros [<- | [<- | [<- | []]]]; eexists; reflexivity.
Qed.

Lemma loss_type_unregistered (loss_type : string) :
  ~ In loss_type ["mae"; "mse"; "rmse"]%string ->
  dict_get loss_type loss_functions = None.
Proof.
  intros Hn. unfold loss_functions. cbn [dict_get].
  destruct (String.eqb_spec loss_type "mae") as [-> | _];
    [elim Hn; cbn; auto|].
  destruct (String.eqb_spec loss_type "mse") as [-> | _];
    [elim Hn; cbn; auto|].
  destruct (String.eqb_spec loss_type "rmse") as [-> | _];
    [elim Hn; cbn; auto|].
  reflexivity.
Qed.

Section RegistryFacts.
Context {OptState : Type} (adam adagrad rmsprop : Optimizer OptState).

Lemma get_optimizer_registered (name : string) :
  In name ["adam"; "adagrad"; "rmsprop"]%string ->
  exists o, get_optimizer OptState adam adagrad rmsprop name = inr o.
Proof.
  intros [<- | [<- | [<- | []]]]; eexists; reflexivity.
Qed.

Lemma get_optimizer_unregistered (name : string) :
  ~ In name ["adam"; "adagrad"; "rmsprop"]%string ->
  get_optimizer OptState adam adagrad rmsprop name
  = inl (ValueError (String.append "Unknown optimizer: " name)).
Proof.
  intros Hn. unfold get_optimizer, dict_contains, OPTIMIZERS.
  cbn [dict_get].
  destruct (String.eqb_spec name "adam") as [-> | _];
    [elim Hn; cbn; auto|].
  destruct (String.eqb_spec name "adagrad") as [-> | _];
    [elim Hn; cbn; auto|].
  destruct (String.eqb_spec name "rmsprop") as [-> | _];
    [elim Hn; cbn; auto|].
  reflexivity.
Qed.
End RegistryFacts.

Lemma create_loss_function_registered {P : Type}
      (forward_function : P -> list matrixR) (experimental_data : list matrixR)
      (loss_type : string) :
  In loss_type ["mae"; "mse"; "rmse"]%string ->
  exists loss_fn,
    create_loss_function forward_function experimental_data loss_type
    = inr loss_fn.
Proof.
  intros Hin. unfold create_loss_function.
  destruct (loss_type_registered loss_type Hin) as [f ->]. now eexists.
Qed.

Lemma create_loss_function_unregistered {P : Type}
      (forward_function : P -> list matrixR) (experimental_data : list matrixR)
      (loss_type : string) :
  ~ In loss_type ["mae"; "mse"; "rmse"]%string ->
  create_loss_function forward_function experimental_data loss_type
  = inl (KeyError loss_type).
Proof.
  intros Hn. unfold create_loss_function.
  now rewrite (loss_type_unregistered loss_type Hn).
Qed.

Lemma loss_type_dec (loss_type : string) :
  {In loss_type ["mae"; "mse"; "rmse"]%string}
  + {~ In loss_type ["mae"; "mse"; "rmse"]%string}.
Proof. apply in_dec. apply string_dec. Qed.

(** ** The setup of the reconstruction loops *)

Lemma loss_lookup_fails {P A : Type}
      (forward_fn : P -> list matrixR) (experimental : list matrixR)
      (loss_type : string) (k : (P -> R) -> M A) (tr : list event) :
  ~ In loss_type ["mae"; "mse"; "rmse"]%string ->
  bind (lift (create_loss_function forward_fn experimental loss_type)) k tr
  = (inl (KeyError loss_type), tr).
Proof.
  intros Hn.
  now rewrite (create_loss_function_unregistered
                 forward_fn experimental loss_type Hn).
Qed.

(** The allocation of a snapshot buffer never succeeds: the division raises
    for [save_every = 0], and otherwise the last dimension is a float. *)
Lemma allocation_fails {A : Type} (n save_every H W : nat)
      (k : array3 -> M A) (tr : list event) :
  bind (floor_div n save_every)
       (fun slots => bind (jnp_zeros H W slots) k) tr
  = (inl (allocation_error save_every), tr).
Proof.
  unfold floor_div, allocation_error.
  destruct (save_every =? 0)%nat; reflexivity.
Qed.

Lemma allocation_error_nonzero (save_every : nat) :
  save_every <> 0%nat -> allocation_error save_every = float_dimension_error.
Proof.
  intros Hs. unfold allocation_error.
  destruct (Nat.eqb_spec save_every 0); [contradiction | reflexivity].
Qed.

Lemma setup_trace_events (initial_potential initial_beam : CalibratedArray) :
  Forall setup_event (ssp_setup_trace initial_potential initial_beam).
Proof.
  unfold ssp_setup_trace.
  destruct (real_space initial_beam); repeat constructor.
Qed.

Section SetupFacts.
Context {OptState : Type} (adam adagrad rmsprop : Optimizer OptState).
Context (grad2 :
  (matrixC * matrixC -> R) -> matrixC * matrixC -> matrixC * matrixC).
Context (grad3 :
  (matrixC * matrixC * matrixR -> R) ->
  matrixC * matrixC * matrixR -> matrixC * matrixC * matrixR).
Context (calibrated_dtype : CalibratedArray -> exn + dtype).

(** With registered names [single_slice_ptychography] runs its setup up
    to the first buffer and stops there. *)
Lemma ssp_run_registered
      (experimental : list matrixR)
      (initial_potential initial_beam : CalibratedArray)
      (pos : matrixR) (t V calib : R) (save_every n : nat) (lr : R)
      (loss_type optimizer_name : string) :
  In loss_type ["mae"; "mse"; "rmse"]%string ->
  In optimizer_name ["adam"; "adagrad"; "rmsprop"]%string ->
  single_slice_ptychography OptState adam adagrad rmsprop grad2
    experimental initial_potential initial_beam pos t V calib
    save_every n lr loss_type optimizer_name []
  = (inl (allocation_error save_every),
     ssp_setup_trace initial_potential initial_beam).
Proof.
  intros Hloss Hname. unfold single_slice_ptychography. cbv zeta.
  destruct (create_loss_function_registered
              (fun p : matrixC * matrixC =>
                 stem_4D [fst p] [snd p] pos t V calib)
              experimental loss_type Hloss) as [loss_func ->].
  destruct (get_optimizer_registered adam adagrad rmsprop _ Hname)
    as [optimizer ->].
  cbn [lift]. rewrite !bind_ret.
  unfold optimizer_init, ssp_setup_trace.
  repeat rewrite ?bind_assoc, ?bind_emit, ?bind_ret.
  destruct (real_space initial_beam).
  - rewrite bind_ret, allocation_fails. now rewrite app_nil_r.
  - unfold jnp_ifft2.
    rewrite bind_assoc, bind_emit, bind_ret, allocation_fails.
    reflexivity.
Qed.

(** With registered names [single_slice_poscorrected] stops at
    [len(learning_rate)] for a scalar rate and at the first buffer for a
    pair. *)
Lemma psc_run_registered
      (experimental : list matrixR) (pot beam : CalibratedArray)
      (pos : matrixR) (t V calib : R) (save_every n : nat)
      (lr : learning_rate_arg) (loss_type optimizer_name : string) :
  In loss_type ["mae"; "mse"; "rmse"]%string ->
  In optimizer_name ["adam"; "adagrad"; "rmsprop"]%string ->
  single_slice_poscorrected OptState adam adagrad rmsprop grad3
    calibrated_dtype
    experimental pot beam pos t V calib save_every n lr
    loss_type optimizer_name []
  = (inl (match lr with
          | LrScalar _ => TypeError "len() of unsized object"
          | LrPair _ _ => allocation_error save_every
          end),
     [EvOptimizerInit [shape0 (data_array pot); shape1 (data_array pot)];
      EvOptimizerInit [shape0 (data_array beam); shape1 (data_array beam)];
      EvOptimizerInit [shape0 pos; shape1 pos];
      EvArray]).
Proof.
  intros Hloss Hname. unfold single_slice_poscorrected. cbv zeta.
  destruct (create_loss_function_registered
              (fun p : matrixC * matrixC * matrixR =>
                 stem_4D [fst (fst p)] [snd (fst p)] (snd p) t V calib)
              experimental loss_type Hloss) as [loss_func ->].
  destruct (get_optimizer_registered adam adagrad rmsprop _ Hname)
    as [optimizer ->].
  cbn [lift]. rewrite !bind_ret.
  unfold optimizer_init, jnp_array.
  destruct lr as [r | r0 r1];
    repeat (rewrite ?bind_assoc, ?bind_emit, ?bind_ret;
            cbn [py_len length lift Nat.eqb]).
  - reflexivity.
  - now rewrite allocation_fails.
Qed.

(** With registered names [multi_slice_multi_modal] stops at the first
    buffer. *)
Lemma msm_run_registered
      (experimental : list matrixR) (pot beam : matrixC)
      (pos : matrixR) (t V calib : R) (save_every n : nat) (lr plr : R)
      (loss_type optimizer_name : string) :
  In loss_type ["mae"; "mse"; "rmse"]%string ->
  In optimizer_name ["adam"; "adagrad"; "rmsprop"]%string ->
  multi_slice_multi_modal OptState adam adagrad rmsprop grad3
    experimental pot beam pos t V calib save_every n lr plr
    loss_type optimizer_name []
  = (inl (allocation_error save_every),
     [EvOptimizerInit [shape0 pot; shape1 pot];
      EvOptimizerInit [shape0 beam; shape1 beam];
      EvOptimizerInit [shape0 pos; shape1 pos]]).
Proof.
  intros Hloss Hname. unfold multi_slice_multi_modal. cbv zeta.
  destruct (create_loss_function_registered
              (fun p : matrixC * matrixC * matrixR =>
                 stem_4D [fst (fst p)] [snd (fst p)] (snd p) t V calib)
              experimental loss_type Hloss) as [loss_func ->].
  destruct (get_optimizer_registered adam adagrad rmsprop _ Hname)
    as [optimizer ->].
  cbn [lift]. rewrite !bind_ret.
  unfold optimizer_init.
  repeat rewrite ?bind_assoc, ?bind_emit, ?bind_ret.
  now rewrite allocation_fails.
Qed.
End SetupFacts.

(* ================================================================== *)
(** * Part III: the properties of the forward model *)
(* ================================================================== *)

(** C6 -- for every real potential array and every voltage, every entry of
    [transmission_func] has absolute value one: the transmission function is
    a pure phase object. *)
Theorem transmission_func_unit_magnitude (P : matrixR) (V : R) :
  Forall (Forall (fun z => Cabs z = 1)) (transmission_func P V).
Proof.
  unfold transmission_func.
  apply Forall_forall. intros row Hrow.
  apply in_map_iff in Hrow. destruct Hrow as (r & <- & _).
  apply Forall_forall. intros z Hz.
  apply in_map_iff in Hz. destruct Hz as (p & <- & _).
  apply Cabs_Cexp_i.
Qed.

(** C7 -- for every positive voltage [wavelength_ang] equals the closed-form
    relativistic wavelength [1e10 * h / sqrt (2 m e (1000 V) (1 + e (1000 V)
    / (2 m c^2)))] built from the constants of the code, and its values at
    200, 300 and 1000 kV are 0.02508, 0.0196875 and 0.0087192 angstrom to
    within [1e-6] (the last two even to within [5e-8]). *)
Theorem wavelength_ang_spec :
  (forall V : R, 0 < V ->
     wavelength_ang V =
     1e10 * h_planck
     / sqrt (2 * m_e * e_e * (1000 * V)
             * (1 + e_e * (1000 * V) / (2 * m_e * (c_light * c_light)))))
  /\ Rabs (wavelength_ang 200 - 0.02508) <= 1e-6
  /\ Rabs (wavelength_ang 300 - 0.0196875) <= 5e-8
  /\ Rabs (wavelength_ang 1000 - 0.0087192) <= 5e-8.
Proof.
  split; [exact wavelength_ang_eq_closed|].
  repeat split; apply Rabs_le.
  - enough (0.02508 - 1e-6 <= wavelength_ang 200 <= 0.02508 + 1e-6) by lra.
    apply wavelength_ang_between; unfold m_e, e_e, c_light, h_planck, Rsqr; lra.
  - enough (0.0196875 - 5e-8 <= wavelength_ang 300 <= 0.0196875 + 5e-8) by lra.
    apply wavelength_ang_between; unfold m_e, e_e, c_light, h_planck, Rsqr; lra.
  - enough (0.0087192 - 5e-8 <= wavelength_ang 1000 <= 0.0087192 + 5e-8) by lra.
    apply wavelength_ang_between; unfold m_e, e_e, c_light, h_planck, Rsqr; lra.
Qed.

Lemma wavelength_ang_spec_witness :
  0 < 200 /\
  wavelength_ang 200 =
  1e10 * h_planck
  / sqrt (2 * m_e * e_e * (1000 * 200)
          * (1 + e_e * (1000 * 200) / (2 * m_e * (c_light * c_light)))).
Proof.
  split; [lra | apply (proj1 wavelength_ang_spec 200); lra].
Defined.

(** C9 -- for every stack of slices and every beam, with any number of
    slices and modes, every entry of the pattern returned by [cbed] is a
    non-negative real number. *)
Theorem cbed_nonnegative (pot_slice beam : ndarray) (t V calib : R) :
  Forall (Forall (fun v => 0 <= v)) (cbed pot_slice beam t V calib).
Proof.
  unfold cbed, far_field_intensity. cbv zeta. unfold tab2.
  apply Forall_tab. intros y _. apply Forall_tab. intros x _.
  apply Rsum_nonneg. intros m _. apply Rle_0_sqr.
Qed.

(** The pattern of a one-pixel unit beam, and of [cbed] behind a slice that
    is zero everywhere. *)
Lemma fraunhofer_unit_pixel : fraunhofer (Arr2 [[C1]]) = [[1]].
Proof.
  unfold fraunhofer.
  destruct (shape_fftshift (fft2 (atleast_3d (Arr2 [[C1]])))) as (-> & -> & _).
  destruct (shape_fft2 (atleast_3d (Arr2 [[C1]]))) as (-> & -> & _).
  cbn [atleast_3d map shape0 shape1 length nth tab2 tab seq].
  rewrite get3_fftshift_fft2 by (cbn; lia).
  cbn [atleast_3d map shape0 shape1 length nth].
  unfold shift_index. cbn [Nat.div Nat.sub Nat.add Nat.modulo Nat.divmod fst snd].
  unfold dft2, dft1. cbn [Csum get3 nth].
  rewrite !twiddle_0_l, !Cmul_1_r, !Cadd_0_l, Cabs_C1.
  unfold Rsqr. now rewrite Rmult_1_r.
Qed.

Lemma cbed_zero_slice (pot_slice beam : ndarray) (t V calib : R) :
  shape2 (atleast_3d pot_slice) = 1%nat ->
  (forall y x, (y < shape0 (atleast_3d beam))%nat ->
               (x < shape1 (atleast_3d beam))%nat ->
               get3 (atleast_3d pot_slice) y x 0 = C0) ->
  cbed pot_slice beam t V calib
  = tab2 (shape0 (atleast_3d beam)) (shape1 (atleast_3d beam))
         (fun _ _ => 0).
Proof.
  intros HS Hzero. rewrite cbed_single_slice by assumption.
  rewrite mul_newaxis_zero by assumption.
  set (b := atleast_3d beam).
  set (z := tab3 (shape0 b) (shape1 b) (shape2 b) (fun _ _ _ => C0)).
  rewrite far_field_shape.
  destruct (shape_tab3_like b (fun _ _ _ => C0)) as (E0 & E1 & E2).
  fold z in E0, E1, E2. rewrite E0, E1, E2.
  apply tab2_ext. intros y x Hy Hx.
  rewrite (Rsum_ext _ _ (fun _ => 0)); [apply Rsum_zero|].
  intros m Hm.
  rewrite get3_fftshift_fft2 by (rewrite ?E0, ?E1, ?E2; assumption).
  rewrite E0, E1.
  rewrite (dft2_ext _ _ _ (fun _ _ => C0)).
  - rewrite dft2_zero, Cabs_C0. unfold Rsqr. ring.
  - intros y0 x0 Hy0 Hx0. unfold z. now rewrite get3_tab3.
Qed.

(** C1, as stated, fails: behind a single slice that is zero everywhere the
    one-pixel unit beam gives the zero pattern, not its Fraunhofer
    pattern. *)
Lemma cbed_zero_slice_not_fraunhofer :
  cbed (Arr2 [[C0]]) (Arr2 [[C1]]) 1 200 1 <> fraunhofer (Arr2 [[C1]]).
Proof.
  rewrite fraunhofer_unit_pixel.
  rewrite cbed_zero_slice.
  - cbn. intros Heq. injection Heq as Heq. lra.
  - reflexivity.
  - intros y x Hy Hx. cbn in Hy, Hx.
    assert (y = 0%nat) by lia. assert (x = 0%nat) by lia. subst.
    reflexivity.
Qed.

(** C1, amended -- [cbed] multiplies the wave by the slice array itself
    (it does not apply [transmission_func]).  For a single-mode beam and
    exactly one slice: when the slice is one everywhere (transmission
    identically 1) the pattern is the Fraunhofer pattern of the unperturbed
    probe, the squared magnitude of the centred 2-D Fourier transform of the
    beam; when the slice is zero everywhere the pattern is zero
    everywhere. *)
Theorem cbed_unit_slice_fraunhofer (pot_slice beam : ndarray) (t V calib : R) :
  rect3 (atleast_3d beam) ->
  shape2 (atleast_3d beam) = 1%nat ->
  shape2 (atleast_3d pot_slice) = 1%nat ->
  ((forall y x, (y < shape0 (atleast_3d beam))%nat ->
                (x < shape1 (atleast_3d beam))%nat ->
                get3 (atleast_3d pot_slice) y x 0 = C1) ->
   cbed pot_slice beam t V calib = fraunhofer beam)
  /\
  ((forall y x, (y < shape0 (atleast_3d beam))%nat ->
                (x < shape1 (atleast_3d beam))%nat ->
                get3 (atleast_3d pot_slice) y x 0 = C0) ->
   cbed pot_slice beam t V calib
   = tab2 (shape0 (atleast_3d beam)) (shape1 (atleast_3d beam))
          (fun _ _ => 0)).
Proof.
  intros Hrect HM HS. split.
  - intros Hone. rewrite cbed_single_slice by assumption.
    rewrite mul_newaxis_one by assumption.
    rewrite far_field_shape. unfold fraunhofer.
    destruct (shape_fftshift (fft2 (atleast_3d beam))) as (-> & -> & _).
    destruct (shape_fft2 (atleast_3d beam)) as (-> & -> & _).
    rewrite HM. apply tab2_ext. intros y x _ _.
    cbn [Rsum]. apply Rplus_0_l.
  - intros Hzero. now apply cbed_zero_slice.
Qed.

Lemma cbed_unit_slice_fraunhofer_witness :
  rect3 (atleast_3d (Arr2 [[C1]]))
  /\ shape2 (atleast_3d (Arr2 [[C1]])) = 1%nat
  /\ shape2 (atleast_3d (Arr2 [[C1]])) = 1%nat
  /\ cbed (Arr2 [[C1]]) (Arr2 [[C1]]) 1 200 1 = fraunhofer (Arr2 [[C1]]).
Proof.
  assert (Hr : rect3 (atleast_3d (Arr2 [[C1]]))) by reflexivity.
  repeat split; try reflexivity.
  apply (proj1 (cbed_unit_slice_fraunhofer
                  (Arr2 [[C1]]) (Arr2 [[C1]]) 1 200 1
                  Hr eq_refl eq_refl)).
  intros y x Hy Hx. cbn in Hy, Hx.
  destruct y; [|lia]. destruct x; [|lia]. reflexivity.
Defined.

(** ** Beam shifting and the 4D-STEM map *)

(** A single position: one phase ramp between the two transforms. *)
Lemma shift_beam_fourier_single (beam : ndarray) (dy dx calib : R) :
  shift_beam_fourier beam [[dy; dx]] calib
  = [ifft2 (mul_newaxis
              (fft2 (atleast_3d beam))
              (phase_ramp (fftfreq (shape0 (atleast_3d beam)) calib)
                          (fftfreq (shape1 (atleast_3d beam)) calib)
                          dy dx))].
Proof. reflexivity. Qed.

Lemma phase_ramp_zero (qy qx : list R) (y x : nat) :
  phase_ramp qy qx 0 0 y x = C1.
Proof.
  unfold phase_ramp.
  replace (-2.0 * PI * (nth y qy 0 * 0 + nth x qx 0 * 0)) with 0 by ring.
  apply Cexp_i_0.
Qed.

Lemma phase_ramp_opposite (qy qx : list R) (dy dx : R) (y x : nat) :
  (phase_ramp qy qx dy dx y x * phase_ramp qy qx (- dy) (- dx) y x)%C = C1.
Proof.
  unfold phase_ramp. rewrite <- Cexp_i_add.
  match goal with |- Cexp_i ?t = _ => replace t with 0 by ring end.
  apply Cexp_i_0.
Qed.

(** C5 -- shifting a beam by the single displacement (0, 0) returns the
    beam, and shifting by a displacement [(dy, dx)] and then by
    [(- dy, - dx)] returns the beam, in exact arithmetic. *)
Theorem shift_beam_fourier_roundtrip (beam : ndarray) (calib : R) :
  rect3 (atleast_3d beam) ->
  shift_beam_fourier beam [[0; 0]] calib = [atleast_3d beam]
  /\ forall dy dx : R, exists shifted : array3,
       shift_beam_fourier beam [[dy; dx]] calib = [shifted]
       /\ shift_beam_fourier (Arr3 shifted) [[- dy; - dx]] calib
          = [atleast_3d beam].
Proof.
  intros Hrect. set (b := atleast_3d beam) in *. split.
  - rewrite shift_beam_fourier_single. fold b. f_equal.
    rewrite mul_newaxis_one.
    + now apply ifft2_fft2.
    + apply rect3_fft2.
    + intros y x _ _. apply phase_ramp_zero.
  - intros dy dx. eexists. split.
    + rewrite shift_beam_fourier_single. fold b. reflexivity.
    + rewrite shift_beam_fourier_single. cbn [atleast_3d]. f_equal.
      set (r := phase_ramp (fftfreq (shape0 b) calib)
                           (fftfreq (shape1 b) calib) dy dx).
      destruct (shape_ifft2 (mul_newaxis (fft2 b) r)) as (-> & -> & _).
      destruct (shape_mul_newaxis (fft2 b) r) as (-> & -> & _).
      destruct (shape_fft2 b) as (-> & -> & _).
      rewrite fft2_ifft2 by apply rect3_mul_newaxis.
      rewrite mul_newaxis_mul_newaxis.
      rewrite mul_newaxis_one.
      * now apply ifft2_fft2.
      * apply rect3_fft2.
      * intros y x _ _. unfold r. apply phase_ramp_opposite.
Qed.

Lemma shift_beam_fourier_roundtrip_witness :
  rect3 (atleast_3d (Arr2 [[C1; C0]; [C0; C1]]))
  /\ shift_beam_fourier (Arr2 [[C1; C0]; [C0; C1]]) [[0; 0]] 1
     = [atleast_3d (Arr2 [[C1; C0]; [C0; C1]])]
  /\ exists shifted : array3,
       shift_beam_fourier (Arr2 [[C1; C0]; [C0; C1]]) [[1 / 2; 1 / 4]] 1
       = [shifted]
       /\ shift_beam_fourier (Arr3 shifted) [[- (1 / 2); - (1 / 4)]] 1
          = [atleast_3d (Arr2 [[C1; C0]; [C0; C1]])].
Proof.
  assert (Hr : rect3 (atleast_3d (Arr2 [[C1; C0]; [C0; C1]])))
    by reflexivity.
  split; [exact Hr|].
  split.
  - exact (proj1 (shift_beam_fourier_roundtrip
                    (Arr2 [[C1; C0]; [C0; C1]]) 1 Hr)).
  - exact (proj2 (shift_beam_fourier_roundtrip
                    (Arr2 [[C1; C0]; [C0; C1]]) 1 Hr) (1 / 2) (1 / 4)).
Defined.

(** C2 -- [stem_4D] returns one pattern per position, in the order of the
    positions, and pattern [i] is [cbed] of the beam shifted to position
    [i] alone. *)
Theorem stem_4D_per_position
        (pot_slice beam : array3) (positions : matrixR) (t V calib : R) :
  length (stem_4D pot_slice beam positions t V calib) = length positions
  /\ forall i : nat, (i < length positions)%nat ->
       nth i (stem_4D pot_slice beam positions t V calib) []
       = cbed (Arr3 pot_slice)
              (Arr3 (nth 0 (shift_beam_fourier (Arr3 beam)
                                               [nth i positions []] calib)
                         []))
              t V calib.
Proof.
  unfold stem_4D. cbv zeta. unfold shape0 at 1 2. split.
  - apply tab_length.
  - intros i Hi. rewrite nth_tab by assumption.
    f_equal. f_equal.
    unfold shift_beam_fourier. cbv zeta.
    unfold shape0 at 3. rewrite nth_tab by assumption.
    cbn [shape0 length tab map seq nth].
    unfold apply_shift, getR2. reflexivity.
Qed.

Lemma stem_4D_per_position_witness :
  (1 < length [[0; 0]; [1; 0]])%nat
  /\ nth 1 (stem_4D [[[C1]]] [[[C1]]] [[0; 0]; [1; 0]] 1 200 1) []
     = cbed (Arr3 [[[C1]]])
            (Arr3 (nth 0 (shift_beam_fourier (Arr3 [[[C1]]])
                                             [nth 1 [[0; 0]; [1; 0]] []] 1)
                       []))
            1 200 1.
Proof.
  split; [cbn; lia|].
  apply (proj2 (stem_4D_per_position [[[C1]]] [[[C1]]]
                                     [[0; 0]; [1; 0]] 1 200 1) 1%nat).
  cbn; lia.
Defined.

(* ================================================================== *)
(** * Part IV: the properties of the reconstruction loops *)
(* ================================================================== *)

Section ReconstructionFacts.
Context {OptState : Type} (adam adagrad rmsprop : Optimizer OptState).
Context (grad2 :
  (matrixC * matrixC -> R) -> matrixC * matrixC -> matrixC * matrixC).
Context (grad3 :
  (matrixC * matrixC * matrixR -> R) ->
  matrixC * matrixC * matrixR -> matrixC * matrixC * matrixR).
Context (calibrated_dtype : CalibratedArray -> exn + dtype).
Context {ProbeModes MultiModalResult : Type}.
Context (probe_modes_forward_fn :
  R -> R -> R -> matrixC * ProbeModes * matrixR -> list matrixR).
Context (single_slice_multi_modal_body :
  (matrixC * ProbeModes * matrixR -> R) -> Optimizer OptState ->
  matrixC -> ProbeModes -> matrixR -> nat -> nat -> rarray ->
  M MultiModalResult).

Local Abbreviation get_optimizer' :=
  (get_optimizer OptState adam adagrad rmsprop).
Local Abbreviation single_slice_ptychography' :=
  (single_slice_ptychography OptState adam adagrad rmsprop grad2).
Local Abbreviation single_slice_poscorrected' :=
  (single_slice_poscorrected OptState adam adagrad rmsprop grad3
                             calibrated_dtype).
Local Abbreviation single_slice_multi_modal' :=
  (single_slice_multi_modal OptState adam adagrad rmsprop
                            ProbeModes MultiModalResult
                            probe_modes_forward_fn
                            single_slice_multi_modal_body).
Local Abbreviation multi_slice_multi_modal' :=
  (multi_slice_multi_modal OptState adam adagrad rmsprop grad3).

(** Both lookups of the setup, for an unregistered optimizer name. *)
Lemma setup_lookups_fail {P A : Type}
      (forward_fn : P -> list matrixR) (experimental : list matrixR)
      (loss_type optimizer_name : string)
      (k : (P -> R) -> Optimizer OptState -> M A) (tr : list event) :
  ~ In optimizer_name ["adam"; "adagrad"; "rmsprop"]%string ->
  bind (lift (create_loss_function forward_fn experimental loss_type))
       (fun loss_func =>
          bind (lift (get_optimizer' optimizer_name))
               (fun optimizer => k loss_func optimizer)) tr
  = (inl (setup_error loss_type optimizer_name), tr).
Proof.
  intros Hname. unfold setup_error.
  destruct (in_dec string_dec loss_type ["mae"; "mse"; "rmse"]%string)
    as [Hin | Hnin].
  - destruct (create_loss_function_registered
                forward_fn experimental loss_type Hin) as [f ->].
    cbn [lift]. rewrite bind_ret.
    rewrite (get_optimizer_unregistered adam adagrad rmsprop _ Hname).
    reflexivity.
  - rewrite (create_loss_function_unregistered
               forward_fn experimental loss_type Hnin).
    reflexivity.
Qed.

(** C4 -- for every optimizer name outside {adam, adagrad, rmsprop}
    [get_optimizer] raises [ValueError], and each of the four
    reconstruction loops fails during its setup with a configuration error
    ([ValueError] for the optimizer, or [KeyError] when the loss type is
    unregistered too, since it is looked up first) with an empty trace:
    before any array computation and any iteration.  For the three
    registered names [get_optimizer] returns the registered optimizer. *)
Theorem unknown_optimizer_fails_at_setup :
  (forall optimizer_name : string,
      ~ In optimizer_name ["adam"; "adagrad"; "rmsprop"]%string ->
      get_optimizer' optimizer_name
      = inl (ValueError (String.append "Unknown optimizer: " optimizer_name))
      /\ forall loss_type : string,
        (In loss_type ["mae"; "mse"; "rmse"]%string ->
         setup_error loss_type optimizer_name
         = ValueError (String.append "Unknown optimizer: " optimizer_name))
        /\ (forall experimental pot beam pos t V calib save_every n lr,
              single_slice_ptychography'
                experimental pot beam pos t V calib save_every n lr
                loss_type optimizer_name []
              = (inl (setup_error loss_type optimizer_name), []))
        /\ (forall experimental pot beam pos t V calib save_every n lr,
              single_slice_poscorrected'
                experimental pot beam pos t V calib save_every n lr
                loss_type optimizer_name []
              = (inl (setup_error loss_type optimizer_name), []))
        /\ (forall experimental pot beam pos t V calib save_every n lr,
              single_slice_multi_modal'
                experimental pot beam pos t V calib save_every n lr
                loss_type optimizer_name []
              = (inl (setup_error loss_type optimizer_name), []))
        /\ (forall experimental pot beam pos t V calib save_every n lr plr,
              multi_slice_multi_modal'
                experimental pot beam pos t V calib save_every n lr plr
                loss_type optimizer_name []
              = (inl (setup_error loss_type optimizer_name), [])))
  /\ get_optimizer' "adam" = inr adam
  /\ get_optimizer' "adagrad" = inr adagrad
  /\ get_optimizer' "rmsprop" = inr rmsprop.
Proof.
  split; [|repeat split; reflexivity].
  intros optimizer_name Hname. split.
  - now apply get_optimizer_unregistered.
  - intros loss_type. split; [|repeat split; intros].
    + intros Hin. unfold setup_error.
      destruct (in_dec string_dec loss_type ["mae"; "mse"; "rmse"]%string);
        [reflexivity | contradiction].
    + unfold single_slice_ptychography. cbv zeta.
      now apply setup_lookups_fail.
    + unfold single_slice_poscorrected. cbv zeta.
      now apply setup_lookups_fail.
    + unfold single_slice_multi_modal. cbv zeta.
      now apply (setup_lookups_fail _ _ _ _
                   (fun loss_func optimizer =>
                      single_slice_multi_modal_body
                        loss_func optimizer _ _ _ _ _ _)).
    + unfold multi_slice_multi_modal. cbv zeta.
      now apply setup_lookups_fail.
Qed.

(** C8, on the code: with a scalar [learning_rate] (the default 0.01 is
    one) and registered loss and optimizer names,
    [single_slice_poscorrected] raises [TypeError] at
    [len(learning_rate)], after the three optimizer states and the
    [jnp.array] conversion and before any allocation or iteration. *)
Theorem scalar_learning_rate_raises
        (experimental : list matrixR) (pot beam : CalibratedArray)
        (pos : matrixR) (t V calib : R) (save_every n : nat) (r : R)
        (loss_type optimizer_name : string) :
  In loss_type ["mae"; "mse"; "rmse"]%string ->
  In optimizer_name ["adam"; "adagrad"; "rmsprop"]%string ->
  single_slice_poscorrected'
    experimental pot beam pos t V calib save_every n (LrScalar r)
    loss_type optimizer_name []
  = (inl (TypeError "len() of unsized object"),
     [EvOptimizerInit [shape0 (data_array pot); shape1 (data_array pot)];
      EvOptimizerInit [shape0 (data_array beam); shape1 (data_array beam)];
      EvOptimizerInit [shape0 pos; shape1 pos];
      EvArray]).
Proof.
  intros Hloss Hname. unfold single_slice_poscorrected. cbv zeta.
  destruct (create_loss_function_registered
              (fun p : matrixC * matrixC * matrixR =>
                 stem_4D [fst (fst p)] [snd (fst p)] (snd p) t V calib)
              experimental loss_type Hloss) as [loss_func ->].
  destruct (get_optimizer_registered adam adagrad rmsprop _ Hname)
    as [optimizer ->].
  reflexivity.
Qed.

(** C10, on the code: for a registered loss type and optimizer and a
    non-zero [save_every], [single_slice_ptychography] interprets the
    [real_space] flag of the initial beam during its setup (the inverse
    transform is computed exactly when the flag is [False]) and then
    raises [TypeError] when it allocates the first snapshot buffer, whose
    last dimension [jnp.floor(num_iterations / save_every)] is a float:
    no iteration runs and no [CalibratedArray] is returned. *)
Theorem single_slice_ptychography_raises_after_flag
        (experimental : list matrixR)
        (initial_potential initial_beam : CalibratedArray)
        (pos : matrixR) (t V calib : R) (save_every n : nat) (lr : R)
        (loss_type optimizer_name : string) :
  In loss_type ["mae"; "mse"; "rmse"]%string ->
  In optimizer_name ["adam"; "adagrad"; "rmsprop"]%string ->
  save_every <> 0%nat ->
  single_slice_ptychography'
    experimental initial_potential initial_beam pos t V calib
    save_every n lr loss_type optimizer_name []
  = (inl float_dimension_error,
     [EvOptimizerInit [shape0 (data_array initial_potential);
                       shape1 (data_array initial_potential)];
      EvOptimizerInit [shape0 (data_array initial_beam);
                       shape1 (data_array initial_beam)]]
     ++ (if real_space initial_beam then [] else [EvIfft2])).
Proof.
  intros Hloss Hname Hsave.
  rewrite (ssp_run_registered adam adagrad rmsprop grad2
             experimental initial_potential initial_beam pos t V calib
             save_every n lr loss_type optimizer_name Hloss Hname).
  now rewrite (allocation_error_nonzero save_every Hsave).
Qed.

(** C3, on the code: whatever the inputs, none of the three loops records
    a snapshot.  Each call ends in an exception during its setup, at the
    latest when it allocates the first snapshot buffer: no buffer is
    allocated, no iteration runs and no history is returned. *)
Theorem snapshot_buffers_never_allocated :
  (forall experimental pot beam pos t V calib save_every n lr
          loss_type optimizer_name,
      raises_during_setup
        (single_slice_ptychography'
           experimental pot beam pos t V calib save_every n lr
           loss_type optimizer_name []))
  /\ (forall experimental pot beam pos t V calib save_every n lr
             loss_type optimizer_name,
         raises_during_setup
           (single_slice_poscorrected'
              experimental pot beam pos t V calib save_every n lr
              loss_type optimizer_name []))
  /\ (forall experimental pot beam pos t V calib save_every n lr plr
             loss_type optimizer_name,
         raises_during_setup
           (multi_slice_multi_modal'
              experimental pot beam pos t V calib save_every n lr plr
              loss_type optimizer_name [])).
Proof.
  repeat split; intros; unfold raises_during_setup;
    (destruct (loss_type_dec loss_type) as [Hloss | Hloss];
     [destruct (in_dec string_dec optimizer_name
                       ["adam"; "adagrad"; "rmsprop"]%string)
        as [Hname | Hname]|]).
  - rewrite (ssp_run_registered adam adagrad rmsprop grad2) by assumption.
    do 2 eexists. split; [reflexivity | apply setup_trace_events].
  - unfold single_slice_ptychography. cbv zeta.
    rewrite setup_lookups_fail by assumption.
    do 2 eexists. split; [reflexivity | constructor].
  - unfold single_slice_ptychography. cbv zeta.
    rewrite loss_lookup_fails by assumption.
    do 2 eexists. split; [reflexivity | constructor].
  - rewrite (psc_run_registered adam adagrad rmsprop grad3 calibrated_dtype)
      by assumption.
    do 2 eexists. split; [reflexivity | repeat constructor].
  - unfold single_slice_poscorrected. cbv zeta.
    rewrite setup_lookups_fail by assumption.
    do 2 eexists. split; [reflexivity | constructor].
  - unfold single_slice_poscorrected. cbv zeta.
    rewrite loss_lookup_fails by assumption.
    do 2 eexists. split; [reflexivity | constructor].
  - rewrite (msm_run_registered adam adagrad rmsprop grad3) by assumption.
    do 2 eexists. split; [reflexivity | repeat constructor].
  - unfold multi_slice_multi_modal. cbv zeta.
    rewrite setup_lookups_fail by assumption.
    do 2 eexists. split; [reflexivity | constructor].
  - unfold multi_slice_multi_modal. cbv zeta.
    rewrite loss_lookup_fails by assumption.
    do 2 eexists. split; [reflexivity | constructor].
Qed.

End ReconstructionFacts.

(** ** The loops on concrete inputs *)

Lemma sgd_unregistered :
  ~ In "sgd"%string ["adam"; "adagrad"; "rmsprop"]%string.
Proof. intros [H | [H | [H | []]]]; discriminate. Qed.

Lemma unknown_optimizer_fails_at_setup_witness :
  ~ In "sgd"%string ["adam"; "adagrad"; "rmsprop"]%string
  /\ get_optimizer unit frozen_optimizer frozen_optimizer frozen_optimizer
                   "sgd"
     = inl (ValueError "Unknown optimizer: sgd")
  /\ single_slice_ptychography
       unit frozen_optimizer frozen_optimizer frozen_optimizer example_grad2
       [[[0]]] (unit_pixel true) (unit_pixel true) [[0; 0]] 1 200 1
       10 1000 0.001 "mse" "sgd" []
     = (inl (ValueError "Unknown optimizer: sgd"), []).
Proof.
  pose proof (proj1 (unknown_optimizer_fails_at_setup
                       frozen_optimizer frozen_optimizer frozen_optimizer
                       example_grad2 example_grad3 example_dtype
                       example_forward_fn example_body)
                    "sgd"%string sgd_unregistered) as [Hget Hloops].
  split; [exact sgd_unregistered|]. split; [exact Hget|].
  destruct (Hloops "mse"%string) as (_ & Hssp & _).
  exact (Hssp [[[0]]] (unit_pixel true) (unit_pixel true) [[0; 0]]
              1 200 1 10%nat 1000%nat 0.001).
Defined.

Lemma scalar_learning_rate_raises_witness :
  In "mse"%string ["mae"; "mse"; "rmse"]%string
  /\ In "adam"%string ["adam"; "adagrad"; "rmsprop"]%string
  /\ single_slice_poscorrected
       unit frozen_optimizer frozen_optimizer frozen_optimizer example_grad3
       example_dtype
       [[[0]]] (unit_pixel true) (unit_pixel true) [[0; 0]] 1 200 1
       10 1000 (LrScalar 0.01) "mse" "adam" []
     = (inl (TypeError "len() of unsized object"),
        [EvOptimizerInit [1; 1]%nat; EvOptimizerInit [1; 1]%nat;
         EvOptimizerInit [1; 2]%nat; EvArray]).
Proof.
  assert (Hl : In "mse"%string ["mae"; "mse"; "rmse"]%string)
    by (cbn; auto).
  assert (Hn : In "adam"%string ["adam"; "adagrad"; "rmsprop"]%string)
    by (cbn; auto).
  split; [exact Hl|]. split; [exact Hn|].
  exact (scalar_learning_rate_raises
           frozen_optimizer frozen_optimizer frozen_optimizer example_grad3
           example_dtype
           [[[0]]] (unit_pixel true) (unit_pixel true) [[0; 0]] 1 200 1
           10%nat 1000%nat 0.01 "mse" "adam" Hl Hn).
Defined.

Lemma single_slice_ptychography_raises_after_flag_witness :
  In "mse"%string ["mae"; "mse"; "rmse"]%string
  /\ In "adam"%string ["adam"; "adagrad"; "rmsprop"]%string
  /\ 10%nat <> 0%nat
  /\ single_slice_ptychography
       unit frozen_optimizer frozen_optimizer frozen_optimizer example_grad2
       [[[0]]] (unit_pixel true) (unit_pixel false) [[0; 0]] 1 200 1
       10 20 0.001 "mse" "adam" []
     = (inl float_dimension_error,
        [EvOptimizerInit [1; 1]%nat; EvOptimizerInit [1; 1]%nat; EvIfft2]).
Proof.
  assert (Hl : In "mse"%string ["mae"; "mse"; "rmse"]%string)
    by (cbn; auto).
  assert (Hn : In "adam"%string ["adam"; "adagrad"; "rmsprop"]%string)
    by (cbn; auto).
  assert (Hs : 10%nat <> 0%nat) by discriminate.
  split; [exact Hl|]. split; [exact Hn|]. split; [exact Hs|].
  exact (single_slice_ptychography_raises_after_flag
           frozen_optimizer frozen_optimizer frozen_optimizer example_grad2
           [[[0]]] (unit_pixel true) (unit_pixel false) [[0; 0]] 1 200 1
           10%nat 20%nat 0.001 "mse" "adam" Hl Hn Hs).
Defined.

(** C3 at a concrete input: one iteration with [save_every = 1].  The call
    stops at the allocation of the first snapshot buffer, after the two
    optimizer states: there is no update step and no snapshot. *)
Lemma single_iteration_call_raises :
  single_slice_ptychography
    unit frozen_optimizer frozen_optimizer frozen_optimizer example_grad2
    [[[0]]] (unit_pixel true) (unit_pixel true) [[0; 0]] 1 200 1
    1 1 0 "mse" "adam" []
  = (inl float_dimension_error,
     [EvOptimizerInit [1; 1]%nat; EvOptimizerInit [1; 1]%nat]).
Proof.
  assert (Hl : In "mse"%string ["mae"; "mse"; "rmse"]%string)
    by (cbn; auto).
  assert (Hn : In "adam"%string ["adam"; "adagrad"; "rmsprop"]%string)
    by (cbn; auto).
  exact (ssp_run_registered
           frozen_optimizer frozen_optimizer frozen_optimizer example_grad2
           [[[0]]] (unit_pixel true) (unit_pixel true) [[0; 0]] 1 200 1
           1%nat 1%nat 0 "mse" "adam" Hl Hn).
Qed.

(* ================================================================== *)
(** * Part V: further properties of the forward model *)
(* ================================================================== *)

(** ** Entrywise operations *)

Lemma zip_with_map_out {A B D E : Type} (k : D -> E) (f : A -> B -> D)
      (a : list A) (b : list B) :
  map k (zip_with f a b) = zip_with (fun x y => k (f x y)) a b.
Proof. unfold zip_with. now rewrite map_map. Qed.

Lemma zip_with_map_in {A A' B B' D : Type} (f : A' -> B' -> D)
      (g : A -> A') (h : B -> B') (a : list A) (b : list B) :
  zip_with f (map g a) (map h b) = zip_with (fun x y => f (g x) (h y)) a b.
Proof.
  unfold zip_with. revert b.
  induction a as [|x a IH]; intros [|y b]; cbn; try reflexivity.
  now rewrite IH.
Qed.

Lemma zip_with_ext {A B D : Type} (f g : A -> B -> D)
      (a : list A) (b : list B) :
  (forall x y, f x y = g x y) -> zip_with f a b = zip_with g a b.
Proof. intros Hfg. unfold zip_with. apply map_ext. intros [x y]. apply Hfg. Qed.

Lemma zip_with_tab {A B D : Type} (f : A -> B -> D) (n : nat)
      (g : nat -> A) (h : nat -> B) :
  zip_with f (tab n g) (tab n h) = tab n (fun i => f (g i) (h i)).
Proof.
  unfold tab. rewrite zip_with_map_in. unfold zip_with.
  induction (seq 0 n) as [|i l IH]; cbn; [reflexivity|]. now rewrite IH.
Qed.

Lemma get2_tab2 (H W : nat) (f : nat -> nat -> C) (y x : nat) :
  (y < H)%nat -> (x < W)%nat -> get2 (tab2 H W f) y x = f y x.
Proof.
  intros Hy Hx. unfold get2, tab2. now rewrite !nth_tab by assumption.
Qed.

(** ** The wavelength *)

(** X1 -- for positive voltages the wavelength is positive and strictly
    decreasing in the voltage. *)
Theorem wavelength_ang_positive_decreasing (V1 V2 : R) :
  0 < V1 -> V1 < V2 ->
  0 < wavelength_ang V2 < wavelength_ang V1.
Proof.
  intros H1 H12. assert (H2 : 0 < V2) by lra.
  pose proof (denominator_pos V1 H1) as HD1.
  pose proof (denominator_pos V2 H2) as HD2.
  destruct constants_pos as (Hm & He & Hc & Hh).
  unfold wavelength_ang. cbv zeta.
  set (N := Rsqr h_planck * Rsqr c_light).
  set (D1 := V1 * 1000.0 * e_e * (2 * m_e * Rsqr c_light + V1 * 1000.0 * e_e))
    in *.
  set (D2 := V2 * 1000.0 * e_e * (2 * m_e * Rsqr c_light + V2 * 1000.0 * e_e))
    in *.
  assert (HN : 0 < N).
  { unfold N, Rsqr. apply Rmult_lt_0_compat; nra. }
  assert (HD : D1 < D2).
  { unfold D1, D2.
    assert (Hc2 : 0 < Rsqr c_light) by (unfold Rsqr; nra).
    set (a := 2 * m_e * Rsqr c_light).
    assert (Ha : 0 < a) by (unfold a; nra).
    set (u1 := V1 * 1000.0 * e_e). set (u2 := V2 * 1000.0 * e_e).
    assert (Hu1 : 0 < u1) by (unfold u1; nra).
    assert (Hu : u1 < u2) by (unfold u1, u2; nra).
    nra. }
  assert (Hq2 : 0 < N / D2) by (apply Rdiv_lt_0_compat; assumption).
  assert (Hq : N / D2 < N / D1).
  { unfold Rdiv. apply Rmult_lt_compat_l; [assumption|].
    apply Rinv_lt_contravar; [nra | assumption]. }
  assert (0 < sqrt (N / D2)) by (apply sqrt_lt_R0; assumption).
  assert (sqrt (N / D2) < sqrt (N / D1))
    by (apply sqrt_lt_1_alt; lra).
  split; lra.
Qed.

Lemma wavelength_ang_positive_decreasing_witness :
  0 < 200 /\ 200 < 300 /\ 0 < wavelength_ang 300 < wavelength_ang 200.
Proof.
  split; [lra|]. split; [lra|].
  apply wavelength_ang_positive_decreasing; lra.
Defined.

(** ** The propagation kernel *)

(** X2 -- the propagation kernel has the requested shape and every entry has
    absolute value one, for every thickness, voltage and calibration. *)
Theorem propagation_func_pure_phase (H W : nat) (t V calib : R) :
  length (propagation_func H W t V calib) = H
  /\ Forall (fun row => length row = W /\ Forall (fun z => Cabs z = 1) row)
            (propagation_func H W t V calib).
Proof.
  unfold propagation_func. cbv zeta. unfold tab2. split.
  - apply tab_length.
  - apply Forall_tab. intros y _. split.
    + apply tab_length.
    + apply Forall_tab. intros x _. apply Cabs_Cexp_i.
Qed.

(** X3 -- the kernel of zero thickness is one everywhere, and the entrywise
    product of the kernels of two thicknesses is the kernel of their sum:
    propagating twice is propagating once over the total distance. *)
Theorem propagation_func_additive (H W : nat) (t1 t2 V calib : R) :
  propagation_func H W 0 V calib = tab2 H W (fun _ _ => C1)
  /\ mul2 (propagation_func H W t1 V calib) (propagation_func H W t2 V calib)
     = propagation_func H W (t1 + t2) V calib.
Proof.
  unfold propagation_func, mul2. cbv zeta. split.
  - apply tab2_ext. intros y x _ _.
    match goal with |- Cexp_i ?a = _ => replace a with 0 by ring end.
    apply Cexp_i_0.
  - unfold tab2. rewrite zip_with_tab. apply tab_ext. intros y _.
    rewrite zip_with_tab. apply tab_ext. intros x _.
    rewrite <- Cexp_i_add. f_equal. ring.
Qed.

(** ** The transmission function *)

(** X4 -- the transmission function turns sums of potentials into products:
    a potential that is zero everywhere gives transmission one everywhere,
    and the transmission of the entrywise sum of two potentials is the
    entrywise product of their transmissions. *)
Theorem transmission_func_additive (P1 P2 : matrixR) (V : R) :
  transmission_func (map (map (fun _ => 0)) P1) V
  = map (map (fun _ => C1)) P1
  /\ transmission_func (add2 P1 P2) V
     = mul2 (transmission_func P1 V) (transmission_func P2 V).
Proof.
  unfold transmission_func, add2, mul2. split.
  - rewrite map_map. apply map_ext. intros row.
    rewrite map_map. apply map_ext. intros _.
    rewrite Rmult_0_r. apply Cexp_i_0.
  - rewrite zip_with_map_out, zip_with_map_in.
    apply zip_with_ext. intros r1 r2.
    rewrite zip_with_map_out, zip_with_map_in.
    apply zip_with_ext. intros p1 p2.
    rewrite Rmult_plus_distr_l. apply Cexp_i_add.
Qed.

(** ** The aberration function *)

(** X5 -- with all three coefficients zero (the ideal lens of the defaults)
    the aberration phase is zero everywhere, and the phase is an even
    function of the frequency coordinate. *)
Theorem aberration_ideal_and_even (q : matrixR) (lambda defocus c3 c5 : R) :
  aberration q lambda 0 0 0 = map (map (fun _ => 0)) q
  /\ aberration (map (map Ropp) q) lambda defocus c3 c5
     = aberration q lambda defocus c3 c5.
Proof.
  unfold aberration. split.
  - apply map_ext. intros row. apply map_ext. intros v.
    cbv zeta. unfold Rdiv. ring.
  - rewrite map_map. apply map_ext. intros row.
    rewrite map_map. apply map_ext. intros v.
    cbv zeta. unfold Rdiv. ring.
Qed.

(** ** Mode weights *)

Lemma sum_map_div (l : list R) (s : R) :
  fold_right Rplus 0 (map (fun w => w / s) l) = fold_right Rplus 0 l / s.
Proof.
  induction l as [|w l IH]; cbn.
  - unfold Rdiv. ring.
  - rewrite IH. unfold Rdiv. ring.
Qed.

(** X6 -- when the weights do not sum to zero, the normalized weights sum to
    one, there are as many of them, and non-negative weights of positive
    sum stay non-negative. *)
Theorem normalize_mode_weights_sum (weights : list R) :
  fold_right Rplus 0 weights <> 0 ->
  fold_right Rplus 0 (normalize_mode_weights weights) = 1
  /\ length (normalize_mode_weights weights) = length weights
  /\ (0 < fold_right Rplus 0 weights ->
      Forall (fun w => 0 <= w) weights ->
      Forall (fun w => 0 <= w) (normalize_mode_weights weights)).
Proof.
  intros Hs. unfold normalize_mode_weights. repeat split.
  - rewrite sum_map_div. now field.
  - apply length_map.
  - intros Hpos Hw. apply Forall_map.
    eapply Forall_impl; [|exact Hw].
    intros w Hw0. cbv beta. apply Rle_mult_inv_pos; assumption.
Qed.

Lemma normalize_mode_weights_sum_witness :
  fold_right Rplus 0 [1; 3] <> 0
  /\ fold_right Rplus 0 (normalize_mode_weights [1; 3]) = 1.
Proof.
  assert (Hs : fold_right Rplus 0 [1; 3] <> 0) by (cbn; lra).
  split; [exact Hs|].
  exact (proj1 (normalize_mode_weights_sum [1; 3] Hs)).
Defined.

(** X7 -- scaling all weights by one non-zero factor does not change the
    normalized weights; in particular normalizing twice is normalizing
    once. *)
Theorem normalize_mode_weights_scale (weights : list R) (c : R) :
  c <> 0 -> fold_right Rplus 0 weights <> 0 ->
  normalize_mode_weights (map (Rmult c) weights)
  = normalize_mode_weights weights
  /\ normalize_mode_weights (normalize_mode_weights weights)
     = normalize_mode_weights weights.
Proof.
  intros Hc Hs.
  assert (Hsum : forall k, fold_right Rplus 0 (map (Rmult k) weights)
                           = k * fold_right Rplus 0 weights).
  { intros k. clear Hs. induction weights as [|w l IH]; cbn; [ring|].
    rewrite IH. ring. }
  assert (Hscale : forall k, k <> 0 ->
             normalize_mode_weights (map (Rmult k) weights)
             = normalize_mode_weights weights).
  { intros k Hk. unfold normalize_mode_weights at 1.
    rewrite Hsum, map_map. unfold normalize_mode_weights.
    apply map_ext. intros w. field. now split. }
  split; [now apply Hscale|].
  etransitivity;
    [|apply (Hscale (/ fold_right Rplus 0 weights));
      now apply Rinv_neq_0_compat].
  f_equal. unfold normalize_mode_weights. apply map_ext.
  intros w. unfold Rdiv. ring.
Qed.

Lemma normalize_mode_weights_scale_witness :
  2 <> 0 /\ fold_right Rplus 0 [1; 3] <> 0
  /\ normalize_mode_weights (map (Rmult 2) [1; 3])
     = normalize_mode_weights [1; 3].
Proof.
  assert (Hc : 2 <> 0) by lra.
  assert (Hs : fold_right Rplus 0 [1; 3] <> 0) by (cbn; lra).
  split; [exact Hc|]. split; [exact Hs|].
  exact (proj1 (normalize_mode_weights_scale [1; 3] 2 Hc Hs)).
Defined.

(** ** The multislice scan *)

Lemma Cabs_mul (a b : C) : Cabs (a * b)%C = Cabs a * Cabs b.
Proof.
  destruct a as [a1 a2], b as [b1 b2]. unfold Cabs, Cmul; simpl.
  rewrite <- sqrt_mult by nra. f_equal. ring.
Qed.

Lemma getR2_tab2 (H W : nat) (f : nat -> nat -> R) (y x : nat) :
  (y < H)%nat -> (x < W)%nat -> getR2 (tab2 H W f) y x = f y x.
Proof.
  intros Hy Hx. unfold getR2, tab2. now rewrite !nth_tab by assumption.
Qed.

Lemma get3_mul_newaxis (a : array3) (r : nat -> nat -> C) (y x m : nat) :
  (y < shape0 a)%nat -> (x < shape1 a)%nat -> (m < shape2 a)%nat ->
  get3 (mul_newaxis a r) y x m = (get3 a y x m * r y x)%C.
Proof. intros. unfold mul_newaxis. now rewrite get3_tab3. Qed.

Lemma get3_fft2 (a : array3) (k l m : nat) :
  (k < shape0 a)%nat -> (l < shape1 a)%nat -> (m < shape2 a)%nat ->
  get3 (fft2 a) k l m
  = dft2 (shape0 a) (shape1 a) (fun y x => get3 a y x m) k l.
Proof. intros. unfold fft2. now rewrite get3_tab3. Qed.

Lemma get3_ifft2 (a : array3) (y x m : nat) :
  (y < shape0 a)%nat -> (x < shape1 a)%nat -> (m < shape2 a)%nat ->
  get3 (ifft2 a) y x m
  = idft2 (shape0 a) (shape1 a) (fun k l => get3 a k l m) y x.
Proof. intros. unfold ifft2. now rewrite get3_tab3. Qed.

Lemma shape_propagate (K : matrixC) (w : array3) :
  shape0 (propagate K w) = shape0 w /\ shape1 (propagate K w) = shape1 w
  /\ shape2 (propagate K w) = shape2 w.
Proof.
  unfold propagate. cbv zeta.
  destruct (shape_ifft2 (mul_newaxis (fft2 w) (get2 K))) as (-> & -> & ->).
  destruct (shape_mul_newaxis (fft2 w) (get2 K)) as (-> & -> & ->).
  apply shape_fft2.
Qed.

Lemma fft2_propagate (K : matrixC) (w : array3) :
  fft2 (propagate K w) = mul_newaxis (fft2 w) (get2 K).
Proof. unfold propagate. cbv zeta. apply fft2_ifft2, rect3_mul_newaxis. Qed.

Lemma shape_scan_fn (pot : array3) (K : matrixC) (S : nat) (w : array3)
      (i : nat) :
  shape0 (scan_fn pot K S w i) = shape0 w
  /\ shape1 (scan_fn pot K S w i) = shape1 w
  /\ shape2 (scan_fn pot K S w i) = shape2 w.
Proof.
  unfold scan_fn. cbv zeta.
  destruct (i =? S - 1)%nat.
  - apply shape_mul_newaxis.
  - destruct (shape_propagate K (mul_newaxis w (fun y x => get3 pot y x i)))
      as (-> & -> & ->).
    apply shape_mul_newaxis.
Qed.

Lemma shape_scan (pot : array3) (K : matrixC) (S : nat) (l : list nat)
      (w : array3) :
  shape0 (fold_left (scan_fn pot K S) l w) = shape0 w
  /\ shape1 (fold_left (scan_fn pot K S) l w) = shape1 w
  /\ shape2 (fold_left (scan_fn pot K S) l w) = shape2 w.
Proof.
  revert w. induction l as [|i l IH]; intros w; cbn [fold_left].
  - auto.
  - destruct (IH (scan_fn pot K S w i)) as (-> & -> & ->).
    apply shape_scan_fn.
Qed.

(** X8 -- the pattern returned by [cbed] has the height and the width of
    the beam, whatever the slices. *)
Theorem cbed_shape (pot_slice beam : ndarray) (t V calib : R) :
  length (cbed pot_slice beam t V calib) = shape0 (atleast_3d beam)
  /\ Forall (fun row => length row = shape1 (atleast_3d beam))
            (cbed pot_slice beam t V calib).
Proof.
  unfold cbed. cbv zeta. rewrite far_field_shape.
  match goal with
  | |- context [fold_left ?f ?l ?w] =>
      destruct (shape_scan (atleast_3d pot_slice)
                  (propagation_func (shape0 w) (shape1 w) t V calib)
                  (shape2 (atleast_3d pot_slice)) l w) as (-> & -> & _)
  end.
  unfold tab2. split.
  - apply tab_length.
  - apply Forall_tab. intros y _. apply tab_length.
Qed.

(** The diffraction pattern only depends on the moduli of the transformed
    wave. *)
Lemma get3_fftshift (a : array3) (y x m : nat) :
  (y < shape0 a)%nat -> (x < shape1 a)%nat -> (m < shape2 a)%nat ->
  get3 (fftshift a) y x m
  = get3 a (shift_index (shape0 a) y) (shift_index (shape1 a) x) m.
Proof. intros. unfold fftshift. now rewrite get3_tab3. Qed.

Lemma far_field_ext (a b : array3) :
  shape0 a = shape0 b -> shape1 a = shape1 b -> shape2 a = shape2 b ->
  (forall k l m, (k < shape0 b)%nat -> (l < shape1 b)%nat ->
                 (m < shape2 b)%nat ->
                 Cabs (get3 (fft2 a) k l m) = Cabs (get3 (fft2 b) k l m)) ->
  far_field_intensity a = far_field_intensity b.
Proof.
  intros E0 E1 E2 Habs. rewrite !far_field_shape, E0, E1, E2.
  apply tab2_ext. intros y x Hy Hx. apply Rsum_ext. intros m Hm.
  destruct (shape_fft2 a) as (A0 & A1 & A2).
  destruct (shape_fft2 b) as (B0 & B1 & B2).
  rewrite !get3_fftshift by (rewrite ?A0, ?A1, ?A2, ?B0, ?B1, ?B2; lia).
  rewrite A0, A1, B0, B1, E0, E1.
  rewrite Habs; [reflexivity | | | assumption].
  - apply shift_index_lt; lia.
  - apply shift_index_lt; lia.
Qed.

Lemma get2_propagation_func (H W : nat) (t V calib : R) (y x : nat) :
  (y < H)%nat -> (x < W)%nat ->
  Cabs (get2 (propagation_func H W t V calib) y x) = 1.
Proof.
  intros Hy Hx. unfold propagation_func. cbv zeta.
  rewrite get2_tab2 by assumption. apply Cabs_Cexp_i.
Qed.

(** Behind slices that are one everywhere, the scan keeps the shape of the
    wave and the moduli of its transform. *)
Lemma scan_unit_slices (pot b : array3) (t V calib : R) (l : list nat)
      (w : array3) :
  (forall y x s, (y < shape0 b)%nat -> (x < shape1 b)%nat ->
                 (s < shape2 pot)%nat -> get3 pot y x s = C1) ->
  Forall (fun i => (i < shape2 pot)%nat) l ->
  rect3 w ->
  shape0 w = shape0 b -> shape1 w = shape1 b -> shape2 w = shape2 b ->
  (forall k l0 m, (k < shape0 b)%nat -> (l0 < shape1 b)%nat ->
                  (m < shape2 b)%nat ->
                  Cabs (get3 (fft2 w) k l0 m) = Cabs (get3 (fft2 b) k l0 m)) ->
  let final :=
    fold_left (scan_fn pot (propagation_func (shape0 b) (shape1 b) t V calib)
                       (shape2 pot)) l w in
  shape0 final = shape0 b /\ shape1 final = shape1 b
  /\ shape2 final = shape2 b
  /\ forall k l0 m, (k < shape0 b)%nat -> (l0 < shape1 b)%nat ->
                    (m < shape2 b)%nat ->
                    Cabs (get3 (fft2 final) k l0 m)
                    = Cabs (get3 (fft2 b) k l0 m).
Proof.
  intros Hone Hl. revert w.
  induction Hl as [|i l Hi Hl IH]; intros w Hrect E0 E1 E2 Habs final.
  - cbn in final. now repeat split.
  - cbn [fold_left] in final. unfold final.
    set (K := propagation_func (shape0 b) (shape1 b) t V calib) in *.
    assert (Hmul : mul_newaxis w (fun y x => get3 pot y x i) = w).
    { apply mul_newaxis_one; [assumption|].
      intros y x Hy Hx. apply Hone; [lia | lia | assumption]. }
    assert (Hstep : scan_fn pot K (shape2 pot) w i = w
                    \/ scan_fn pot K (shape2 pot) w i = propagate K w).
    { unfold scan_fn. cbv zeta. rewrite Hmul.
      destruct (i =? shape2 pot - 1)%nat; auto. }
    destruct Hstep as [-> | ->].
    + now apply IH.
    + destruct (shape_propagate K w) as (P0 & P1 & P2).
      apply IH.
      * unfold propagate. cbv zeta. apply rect3_ifft2.
      * congruence.
      * congruence.
      * congruence.
      * intros k l0 m Hk Hl0 Hm. rewrite fft2_propagate.
        destruct (shape_fft2 w) as (F0 & F1 & F2).
        rewrite get3_mul_newaxis by (rewrite ?F0, ?F1, ?F2; lia).
        rewrite Cabs_mul. unfold K.
        rewrite get2_propagation_func by assumption.
        rewrite Rmult_1_r. now apply Habs.
Qed.

Lemma cbed_unit_slices_far_field (pot_slice beam : ndarray) (t V calib : R) :
  rect3 (atleast_3d beam) ->
  (forall y x s, (y < shape0 (atleast_3d beam))%nat ->
                 (x < shape1 (atleast_3d beam))%nat ->
                 (s < shape2 (atleast_3d pot_slice))%nat ->
                 get3 (atleast_3d pot_slice) y x s = C1) ->
  cbed pot_slice beam t V calib = far_field_intensity (atleast_3d beam).
Proof.
  intros Hrect Hone. unfold cbed. cbv zeta.
  set (b := atleast_3d beam) in *. set (pot := atleast_3d pot_slice) in *.
  destruct (scan_unit_slices pot b t V calib (seq 0 (shape2 pot)) b Hone)
    as (E0 & E1 & E2 & Habs); try reflexivity; try assumption.
  - apply Forall_forall. intros i Hi. apply in_seq in Hi. lia.
  - now apply far_field_ext.
Qed.

(** X9 -- behind any number of slices that are one everywhere (an empty
    specimen), for any slice thickness and any number of modes, [cbed]
    returns the diffraction pattern of the incoming beam itself: free-space
    propagation between the slices does not change the pattern. *)
Theorem cbed_empty_specimen (pot_slice beam : ndarray) (t V calib : R) :
  rect3 (atleast_3d beam) ->
  (forall y x s, (y < shape0 (atleast_3d beam))%nat ->
                 (x < shape1 (atleast_3d beam))%nat ->
                 (s < shape2 (atleast_3d pot_slice))%nat ->
                 get3 (atleast_3d pot_slice) y x s = C1) ->
  cbed pot_slice beam t V calib = far_field_intensity (atleast_3d beam).
Proof. apply cbed_unit_slices_far_field. Qed.

Lemma cbed_empty_specimen_witness :
  rect3 (atleast_3d (Arr3 [[[C1; C0]]]))
  /\ cbed (Arr3 [[[C1; C1; C1]]]) (Arr3 [[[C1; C0]]]) 5 200 1
     = far_field_intensity [[[C1; C0]]].
Proof.
  assert (Hr : rect3 (atleast_3d (Arr3 [[[C1; C0]]]))) by reflexivity.
  split; [exact Hr|].
  apply (cbed_empty_specimen (Arr3 [[[C1; C1; C1]]]) (Arr3 [[[C1; C0]]])
                             5 200 1 Hr).
  intros y x s Hy Hx Hs. cbn in Hy, Hx, Hs.
  destruct y; [|lia]. destruct x; [|lia].
  destruct s as [|[|[|s]]]; [reflexivity | reflexivity | reflexivity | lia].
Defined.

(** ** Free-space propagation between slices *)

Lemma mul_newaxis_ext (a : array3) (r s : nat -> nat -> C) :
  (forall y x, (y < shape0 a)%nat -> (x < shape1 a)%nat -> r y x = s y x) ->
  mul_newaxis a r = mul_newaxis a s.
Proof.
  intros Hrs. unfold mul_newaxis. apply tab3_ext.
  intros y x m Hy Hx _. now rewrite Hrs.
Qed.

Lemma get2_propagation_func_value (H W : nat) (t V calib : R) (y x : nat) :
  (y < H)%nat -> (x < W)%nat ->
  get2 (propagation_func H W t V calib) y x
  = Cexp_i (- (PI * wavelength_ang V * t
               * (Rsqr (nth x (fftfreq W calib) 0)
                  + Rsqr (nth y (fftfreq H calib) 0)))).
Proof.
  intros Hy Hx. unfold propagation_func. cbv zeta.
  now rewrite get2_tab2.
Qed.

(** X24 -- propagating a wave over zero thickness returns the wave, and
    propagating over [t1] and then over [t2] is propagating once over
    [t1 + t2]. *)
Theorem propagate_compose (w : array3) (t1 t2 V calib : R) :
  (rect3 w ->
   propagate (propagation_func (shape0 w) (shape1 w) 0 V calib) w = w)
  /\ propagate (propagation_func (shape0 w) (shape1 w) t2 V calib)
               (propagate (propagation_func (shape0 w) (shape1 w) t1 V calib)
                          w)
     = propagate (propagation_func (shape0 w) (shape1 w) (t1 + t2) V calib)
                 w.
Proof.
  destruct (shape_fft2 w) as (F0 & F1 & F2). split.
  - intros Hrect. unfold propagate. cbv zeta.
    rewrite mul_newaxis_one.
    + now apply ifft2_fft2.
    + apply rect3_fft2.
    + intros y x Hy Hx. rewrite F0 in Hy. rewrite F1 in Hx.
      rewrite get2_propagation_func_value by assumption.
      match goal with |- Cexp_i ?a = _ => replace a with 0 by ring end.
      apply Cexp_i_0.
  - unfold propagate at 1. cbv zeta. rewrite fft2_propagate.
    rewrite mul_newaxis_mul_newaxis. unfold propagate. cbv zeta.
    f_equal. apply mul_newaxis_ext. intros y x Hy Hx.
    rewrite F0 in Hy. rewrite F1 in Hx.
    rewrite !get2_propagation_func_value by assumption.
    rewrite <- Cexp_i_add. f_equal. ring.
Qed.

Lemma propagate_compose_witness :
  rect3 [[[C1; C0]]]
  /\ propagate (propagation_func (shape0 [[[C1; C0]]]) (shape1 [[[C1; C0]]])
                                 0 200 1) [[[C1; C0]]]
     = [[[C1; C0]]].
Proof.
  assert (Hr : rect3 [[[C1; C0]]]) by reflexivity.
  split; [exact Hr|].
  exact (proj1 (propagate_compose [[[C1; C0]]] 1 2 200 1) Hr).
Defined.

(** With zero thickness the scan multiplies the wave by one slice after
    the other. *)
Lemma Cmul_1_l (z : C) : (C1 * z)%C = z.
Proof. now rewrite Cmul_comm, Cmul_1_r. Qed.

Lemma scan_zero_thickness (pot b : array3) (V calib : R) (n : nat) :
  (0 < n)%nat ->
  fold_left (scan_fn pot (propagation_func (shape0 b) (shape1 b) 0 V calib)
                     (shape2 pot))
            (seq 0 n) b
  = mul_newaxis b (fun y x => Cprod n (fun s => get3 pot y x s)).
Proof.
  intros Hn. destruct n as [|n]; [lia|]. clear Hn.
  set (K := propagation_func (shape0 b) (shape1 b) 0 V calib).
  assert (Hstep : forall r i,
             scan_fn pot K (shape2 pot) (mul_newaxis b r) i
             = mul_newaxis b (fun y x => (r y x * get3 pot y x i)%C)).
  { intros r i. unfold scan_fn. cbv zeta.
    rewrite mul_newaxis_mul_newaxis.
    destruct (i =? shape2 pot - 1)%nat; [reflexivity|].
    set (w := mul_newaxis b _).
    destruct (shape_mul_newaxis b (fun y x => (r y x * get3 pot y x i)%C))
      as (E0 & E1 & _).
    fold w in E0, E1. unfold K. rewrite <- E0, <- E1.
    apply (proj1 (propagate_compose w 0 0 V calib)).
    apply rect3_mul_newaxis. }
  induction n as [|n IH].
  - cbn [seq fold_left Cprod].
    unfold scan_fn. cbv zeta.
    assert (Hfirst : scan_fn pot K (shape2 pot) b 0
                     = mul_newaxis b (fun y x => get3 pot y x 0)).
    { unfold scan_fn. cbv zeta.
      destruct (0 =? shape2 pot - 1)%nat; [reflexivity|].
      set (w := mul_newaxis b _).
      destruct (shape_mul_newaxis b (fun y x => get3 pot y x 0))
        as (E0 & E1 & _).
      fold w in E0, E1. unfold K. rewrite <- E0, <- E1.
      apply (proj1 (propagate_compose w 0 0 V calib)).
      apply rect3_mul_newaxis. }
    unfold scan_fn in Hfirst. cbv zeta in Hfirst. rewrite Hfirst.
    apply mul_newaxis_ext. intros y x _ _. now rewrite Cmul_1_l.
  - rewrite seq_S, fold_left_app, IH. cbn [fold_left Nat.add].
    rewrite Hstep. reflexivity.
Qed.

(** X25 -- with slice thickness zero the multislice calculation is the
    projection approximation: [cbed] behind a stack of slices equals
    [cbed] behind the single slice that is their entrywise product. *)
Theorem cbed_zero_thickness_projection (pot_slice beam : ndarray)
        (V calib t' V' calib' : R) :
  (0 < shape0 (atleast_3d beam))%nat ->
  (0 < shape1 (atleast_3d beam))%nat ->
  (0 < shape2 (atleast_3d pot_slice))%nat ->
  cbed pot_slice beam 0 V calib
  = cbed (Arr3 (projected_slice (atleast_3d pot_slice)
                                (shape0 (atleast_3d beam))
                                (shape1 (atleast_3d beam))))
         beam t' V' calib'.
Proof.
  intros H0 H1 HS.
  set (b := atleast_3d beam) in *. set (pot := atleast_3d pot_slice) in *.
  assert (Hp : shape2 (projected_slice pot (shape0 b) (shape1 b)) = 1%nat).
  { unfold projected_slice. now apply shape_tab3. }
  rewrite (cbed_single_slice (Arr3 _) beam t' V' calib') by exact Hp.
  unfold cbed. cbv zeta. fold b pot.
  rewrite scan_zero_thickness by assumption.
  f_equal. apply mul_newaxis_ext. intros y x Hy Hx.
  cbn [atleast_3d]. unfold projected_slice.
  now rewrite get3_tab3 by lia.
Qed.

Lemma cbed_zero_thickness_projection_witness :
  (0 < shape0 (atleast_3d (Arr2 [[C1]])))%nat
  /\ (0 < shape1 (atleast_3d (Arr2 [[C1]])))%nat
  /\ (0 < shape2 (atleast_3d (Arr3 [[[C1; C0]]])))%nat
  /\ cbed (Arr3 [[[C1; C0]]]) (Arr2 [[C1]]) 0 200 1
     = cbed (Arr3 (projected_slice (atleast_3d (Arr3 [[[C1; C0]]]))
                                   (shape0 (atleast_3d (Arr2 [[C1]])))
                                   (shape1 (atleast_3d (Arr2 [[C1]])))))
            (Arr2 [[C1]]) 5 300 2.
Proof.
  assert (H0 : (0 < shape0 (atleast_3d (Arr2 [[C1]])))%nat) by (cbn; lia).
  assert (H1 : (0 < shape1 (atleast_3d (Arr2 [[C1]])))%nat) by (cbn; lia).
  assert (HS : (0 < shape2 (atleast_3d (Arr3 [[[C1; C0]]])))%nat)
    by (cbn; lia).
  split; [exact H0|]. split; [exact H1|]. split; [exact HS|].
  exact (cbed_zero_thickness_projection
           (Arr3 [[[C1; C0]]]) (Arr2 [[C1]]) 200 1 5 300 2 H0 H1 HS).
Defined.

(** ** Shifted beams and the 4D-STEM map *)

Lemma Cabs_phase_ramp (qy qx : list R) (dy dx : R) (y x : nat) :
  Cabs (phase_ramp qy qx dy dx y x) = 1.
Proof. unfold phase_ramp. apply Cabs_Cexp_i. Qed.

Lemma phase_ramp_add (qy qx : list R) (dy1 dx1 dy2 dx2 : R) (y x : nat) :
  (phase_ramp qy qx dy1 dx1 y x * phase_ramp qy qx dy2 dx2 y x)%C
  = phase_ramp qy qx (dy1 + dy2) (dx1 + dx2) y x.
Proof. unfold phase_ramp. rewrite <- Cexp_i_add. f_equal. ring. Qed.

Lemma shape_apply_shift (beam_k : array3) (qy qx : list R) (pos : matrixR)
      (i : nat) :
  shape0 (apply_shift beam_k qy qx pos i) = shape0 beam_k
  /\ shape1 (apply_shift beam_k qy qx pos i) = shape1 beam_k
  /\ shape2 (apply_shift beam_k qy qx pos i) = shape2 beam_k.
Proof.
  unfold apply_shift. cbv zeta.
  match goal with
  | |- context [ifft2 (mul_newaxis ?a ?r)] =>
      destruct (shape_ifft2 (mul_newaxis a r)) as (-> & -> & ->);
      apply (shape_mul_newaxis a r)
  end.
Qed.

(** X10 -- [shift_beam_fourier] returns one beam per position, and every
    shifted beam has the shape of the (3-D) input beam. *)
Theorem shift_beam_fourier_shape (beam : ndarray) (pos : matrixR)
        (calib : R) :
  length (shift_beam_fourier beam pos calib) = length pos
  /\ Forall (fun shifted =>
               shape0 shifted = shape0 (atleast_3d beam)
               /\ shape1 shifted = shape1 (atleast_3d beam)
               /\ shape2 shifted = shape2 (atleast_3d beam))
            (shift_beam_fourier beam pos calib).
Proof.
  unfold shift_beam_fourier. cbv zeta. split.
  - apply tab_length.
  - apply Forall_tab. intros i _.
    destruct (shape_apply_shift
                (fft2 (atleast_3d beam))
                (fftfreq (shape0 (atleast_3d beam)) calib)
                (fftfreq (shape1 (atleast_3d beam)) calib) pos i)
      as (-> & -> & ->).
    apply shape_fft2.
Qed.

(** X11 -- shifts compose: shifting a beam by one displacement and the
    result by a second one is shifting the beam by the sum of the two. *)
Theorem shift_beam_fourier_compose (beam : ndarray) (calib : R)
        (dy1 dx1 dy2 dx2 : R) :
  rect3 (atleast_3d beam) ->
  exists shifted : array3,
    shift_beam_fourier beam [[dy1; dx1]] calib = [shifted]
    /\ shift_beam_fourier (Arr3 shifted) [[dy2; dx2]] calib
       = shift_beam_fourier beam [[dy1 + dy2; dx1 + dx2]] calib.
Proof.
  intros Hrect. set (b := atleast_3d beam) in *.
  eexists. split.
  - rewrite shift_beam_fourier_single. fold b. reflexivity.
  - rewrite !shift_beam_fourier_single. fold b. cbn [atleast_3d]. f_equal.
    set (r := phase_ramp (fftfreq (shape0 b) calib)
                         (fftfreq (shape1 b) calib) dy1 dx1).
    destruct (shape_ifft2 (mul_newaxis (fft2 b) r)) as (-> & -> & _).
    destruct (shape_mul_newaxis (fft2 b) r) as (-> & -> & _).
    destruct (shape_fft2 b) as (-> & -> & _).
    rewrite fft2_ifft2 by apply rect3_mul_newaxis.
    rewrite mul_newaxis_mul_newaxis. f_equal.
    unfold mul_newaxis. apply tab3_ext. intros y x m _ _ _.
    unfold r. now rewrite phase_ramp_add.
Qed.

Lemma shift_beam_fourier_compose_witness :
  rect3 (atleast_3d (Arr2 [[C1; C0]; [C0; C1]]))
  /\ exists shifted : array3,
      shift_beam_fourier (Arr2 [[C1; C0]; [C0; C1]]) [[1 / 2; 1 / 4]] 1
      = [shifted]
      /\ shift_beam_fourier (Arr3 shifted) [[1; 3 / 4]] 1
         = shift_beam_fourier (Arr2 [[C1; C0]; [C0; C1]])
                              [[1 / 2 + 1; 1 / 4 + 3 / 4]] 1.
Proof.
  assert (Hr : rect3 (atleast_3d (Arr2 [[C1; C0]; [C0; C1]])))
    by reflexivity.
  split; [exact Hr|].
  exact (shift_beam_fourier_compose (Arr2 [[C1; C0]; [C0; C1]]) 1
                                    (1 / 2) (1 / 4) 1 (3 / 4) Hr).
Defined.

(** The 4D-STEM map, position by position. *)
Lemma tab_map_nth {A B : Type} (f : A -> B) (l : list A) (d : A) :
  tab (length l) (fun i => f (nth i l d)) = map f l.
Proof.
  rewrite <- (tab_nth l d) at 2. unfold tab. rewrite map_map.
  apply map_ext_in. intros i Hi. reflexivity.
Qed.

Lemma stem_4D_as_map (pot_slice beam : array3) (positions : matrixR)
      (t V calib : R) :
  stem_4D pot_slice beam positions t V calib
  = map (pattern_at pot_slice beam t V calib) positions.
Proof.
  rewrite <- (tab_map_nth (pattern_at pot_slice beam t V calib)
                          positions []).
  unfold stem_4D. cbv zeta. unfold shape0 at 1.
  apply tab_ext. intros i Hi.
  unfold shift_beam_fourier. cbv zeta.
  rewrite nth_tab by (unfold shape0; assumption). reflexivity.
Qed.

(** X12 -- the positions are processed independently: the patterns of two
    non-empty position lists put one after the other are the patterns of
    the first list followed by those of the second. *)
Theorem stem_4D_concatenation (pot_slice beam : array3)
        (positions1 positions2 : matrixR) (t V calib : R) :
  positions1 <> [] -> positions2 <> [] ->
  stem_4D pot_slice beam (positions1 ++ positions2) t V calib
  = stem_4D pot_slice beam positions1 t V calib
    ++ stem_4D pot_slice beam positions2 t V calib.
Proof.
  intros _ _. rewrite !stem_4D_as_map. apply map_app.
Qed.

Lemma stem_4D_concatenation_witness :
  [[0; 0]] <> ([] : matrixR) /\ [[1 / 2; 3]; [1; 1]] <> ([] : matrixR)
  /\ stem_4D [[[C1]]] [[[C1; C0]]] ([[0; 0]] ++ [[1 / 2; 3]; [1; 1]])
             5 200 1
     = stem_4D [[[C1]]] [[[C1; C0]]] [[0; 0]] 5 200 1
       ++ stem_4D [[[C1]]] [[[C1; C0]]] [[1 / 2; 3]; [1; 1]] 5 200 1.
Proof.
  assert (H1 : [[0; 0]] <> ([] : matrixR)) by discriminate.
  assert (H2 : [[1 / 2; 3]; [1; 1]] <> ([] : matrixR)) by discriminate.
  split; [exact H1|]. split; [exact H2|].
  exact (stem_4D_concatenation [[[C1]]] [[[C1; C0]]]
                               [[0; 0]] [[1 / 2; 3]; [1; 1]] 5 200 1 H1 H2).
Defined.

(** X13 -- without a specimen (slices that are one everywhere) the pattern
    does not depend on the probe position: every pattern of [stem_4D] is the
    diffraction pattern of the unshifted beam. *)
Theorem stem_4D_empty_specimen (pot_slice beam : array3)
        (positions : matrixR) (t V calib : R) :
  rect3 beam ->
  (forall y x s, (y < shape0 beam)%nat -> (x < shape1 beam)%nat ->
                 (s < shape2 pot_slice)%nat -> get3 pot_slice y x s = C1) ->
  Forall (fun pattern => pattern = far_field_intensity beam)
         (stem_4D pot_slice beam positions t V calib).
Proof.
  intros Hrect Hone. rewrite stem_4D_as_map.
  apply Forall_map, Forall_forall. intros row _.
  unfold pattern_at.
  set (r := phase_ramp (fftfreq (shape0 beam) calib)
                       (fftfreq (shape1 beam) calib)
                       (nth 0 row 0) (nth 1 row 0)).
  set (shifted := ifft2 (mul_newaxis (fft2 beam) r)).
  assert (Hs : shape0 shifted = shape0 beam /\ shape1 shifted = shape1 beam
               /\ shape2 shifted = shape2 beam).
  { unfold shifted.
    destruct (shape_ifft2 (mul_newaxis (fft2 beam) r)) as (-> & -> & ->).
    destruct (shape_mul_newaxis (fft2 beam) r) as (-> & -> & ->).
    apply shape_fft2. }
  destruct Hs as (S0 & S1 & S2).
  rewrite cbed_unit_slices_far_field.
  - cbn [atleast_3d]. apply far_field_ext; try assumption.
    intros k l m Hk Hl Hm. unfold shifted.
    rewrite fft2_ifft2 by apply rect3_mul_newaxis.
    destruct (shape_fft2 beam) as (F0 & F1 & F2).
    rewrite get3_mul_newaxis by (rewrite ?F0, ?F1, ?F2; assumption).
    rewrite Cabs_mul. unfold r. rewrite Cabs_phase_ramp. apply Rmult_1_r.
  - cbn [atleast_3d]. apply rect3_ifft2.
  - cbn [atleast_3d]. rewrite S0, S1. exact Hone.
Qed.

Lemma stem_4D_empty_specimen_witness :
  rect3 [[[C1; C0]]]
  /\ Forall (fun pattern => pattern = far_field_intensity [[[C1; C0]]])
            (stem_4D [[[C1]]] [[[C1; C0]]] [[0; 0]; [1 / 2; 3]] 5 200 1).
Proof.
  assert (Hr : rect3 [[[C1; C0]]]) by reflexivity.
  split; [exact Hr|].
  apply (stem_4D_empty_specimen [[[C1]]] [[[C1; C0]]]
                                [[0; 0]; [1 / 2; 3]] 5 200 1 Hr).
  intros y x s Hy Hx Hs. cbn in Hy, Hx, Hs.
  destruct y; [|lia]. destruct x; [|lia]. destruct s; [|lia].
  reflexivity.
Defined.

(** ** Incoherent modes *)

Lemma modewise_fft2 (w wm : array3) (m : nat) :
  modewise w wm m -> modewise (fft2 w) (fft2 wm) m.
Proof.
  intros (E0 & E1 & Hm & M1 & Hent).
  destruct (shape_fft2 w) as (A0 & A1 & A2).
  destruct (shape_fft2 wm) as (B0 & B1 & B2).
  unfold modewise. rewrite A0, A1, A2, B0, B1, B2.
  repeat split; try assumption.
  intros k l Hk Hl.
  rewrite !get3_fft2 by lia. rewrite <- E0, <- E1.
  apply dft2_ext. intros y x Hy Hx. now apply Hent.
Qed.

Lemma modewise_ifft2 (w wm : array3) (m : nat) :
  modewise w wm m -> modewise (ifft2 w) (ifft2 wm) m.
Proof.
  intros (E0 & E1 & Hm & M1 & Hent).
  destruct (shape_ifft2 w) as (A0 & A1 & A2).
  destruct (shape_ifft2 wm) as (B0 & B1 & B2).
  unfold modewise. rewrite A0, A1, A2, B0, B1, B2.
  repeat split; try assumption.
  intros y x Hy Hx.
  rewrite !get3_ifft2 by lia. rewrite <- E0, <- E1.
  apply idft2_ext. intros k l Hk Hl. now apply Hent.
Qed.

Lemma modewise_mul_newaxis (w wm : array3) (m : nat) (r : nat -> nat -> C) :
  modewise w wm m -> modewise (mul_newaxis w r) (mul_newaxis wm r) m.
Proof.
  intros (E0 & E1 & Hm & M1 & Hent).
  destruct (shape_mul_newaxis w r) as (A0 & A1 & A2).
  destruct (shape_mul_newaxis wm r) as (B0 & B1 & B2).
  unfold modewise. rewrite A0, A1, A2, B0, B1, B2.
  repeat split; try assumption.
  intros y x Hy Hx.
  rewrite !get3_mul_newaxis by lia. now rewrite Hent.
Qed.

Lemma modewise_scan_fn (pot : array3) (K : matrixC) (S : nat)
      (w wm : array3) (m i : nat) :
  modewise w wm m ->
  modewise (scan_fn pot K S w i) (scan_fn pot K S wm i) m.
Proof.
  intros Hw. unfold scan_fn. cbv zeta.
  destruct (i =? S - 1)%nat.
  - now apply modewise_mul_newaxis.
  - unfold propagate. cbv zeta.
    now apply modewise_ifft2, modewise_mul_newaxis, modewise_fft2,
      modewise_mul_newaxis.
Qed.

Lemma modewise_scan (pot : array3) (K : matrixC) (S : nat) (l : list nat)
      (w wm : array3) (m : nat) :
  modewise w wm m ->
  modewise (fold_left (scan_fn pot K S) l w)
           (fold_left (scan_fn pot K S) l wm) m.
Proof.
  revert w wm. induction l as [|i l IH]; intros w wm Hw; cbn [fold_left].
  - assumption.
  - now apply IH, modewise_scan_fn.
Qed.

Lemma modewise_single_mode (b : array3) (m : nat) :
  (0 < shape0 b)%nat -> (0 < shape1 b)%nat -> (m < shape2 b)%nat ->
  modewise b (single_mode b m) m.
Proof.
  intros H0 H1 Hm. unfold modewise, single_mode.
  destruct (shape_tab3 (shape0 b) (shape1 b) 1
                       (fun y x (_ : nat) => get3 b y x m) H0 H1)
    as (-> & -> & ->).
  repeat split; try assumption; try reflexivity.
  intros y x Hy Hx. now rewrite get3_tab3 by lia.
Qed.

(** X14 -- the modes are summed incoherently: every entry of the pattern of
    a multi-mode beam is the sum, over the modes, of the same entry of the
    pattern each mode gives on its own behind the same slices. *)
Theorem cbed_sum_over_modes (pot_slice : ndarray) (beam : array3)
        (t V calib : R) (y x : nat) :
  (y < shape0 beam)%nat -> (x < shape1 beam)%nat ->
  getR2 (cbed pot_slice (Arr3 beam) t V calib) y x
  = Rsum (shape2 beam)
         (fun m => getR2 (cbed pot_slice (Arr3 (single_mode beam m))
                               t V calib) y x).
Proof.
  intros Hy Hx.
  assert (H0 : (0 < shape0 beam)%nat) by lia.
  assert (H1 : (0 < shape1 beam)%nat) by lia.
  unfold cbed at 1. cbv zeta. cbn [atleast_3d].
  set (pot := atleast_3d pot_slice).
  set (K := propagation_func (shape0 beam) (shape1 beam) t V calib).
  set (S := shape2 pot).
  set (final := fold_left (scan_fn pot K S) (seq 0 S) beam).
  destruct (shape_scan pot K S (seq 0 S) beam) as (F0 & F1 & F2).
  fold final in F0, F1, F2.
  rewrite far_field_shape, F0, F1, F2.
  rewrite getR2_tab2 by assumption.
  apply Rsum_ext. intros m Hm.
  pose proof (modewise_single_mode beam m H0 H1 Hm) as Hsm.
  pose proof Hsm as (E0 & E1 & _ & M1 & _).
  unfold cbed. cbv zeta. cbn [atleast_3d]. fold pot S.
  rewrite <- E0, <- E1. fold K.
  set (final_m := fold_left (scan_fn pot K S) (seq 0 S) (single_mode beam m)).
  pose proof (modewise_scan pot K S (seq 0 S) beam (single_mode beam m) m Hsm)
    as Hfin.
  fold final final_m in Hfin.
  pose proof (modewise_fft2 _ _ _ Hfin) as (G0 & G1 & Gm & G2 & Gent).
  destruct (shape_fft2 final) as (A0 & A1 & A2).
  destruct (shape_fft2 final_m) as (B0 & B1 & B2).
  rewrite far_field_shape.
  assert (Ey : (y < shape0 final_m)%nat) by (rewrite <- B0, <- G0, A0, F0; lia).
  assert (Ex : (x < shape1 final_m)%nat) by (rewrite <- B1, <- G1, A1, F1; lia).
  rewrite getR2_tab2 by assumption.
  rewrite <- B2, G2. cbn [Rsum]. rewrite Rplus_0_l.
  rewrite !get3_fftshift by lia.
  rewrite <- G0, <- G1. rewrite Gent; [reflexivity | |].
  - apply shift_index_lt. lia.
  - apply shift_index_lt. lia.
Qed.

Lemma cbed_sum_over_modes_witness :
  (0 < shape0 [[[C1; C0]]])%nat /\ (0 < shape1 [[[C1; C0]]])%nat
  /\ getR2 (cbed (Arr2 [[C1]]) (Arr3 [[[C1; C0]]]) 1 200 1) 0 0
     = Rsum (shape2 [[[C1; C0]]])
            (fun m => getR2 (cbed (Arr2 [[C1]])
                                  (Arr3 (single_mode [[[C1; C0]]] m))
                                  1 200 1) 0 0).
Proof.
  assert (Hy : (0 < shape0 [[[C1; C0]]])%nat) by (cbn; lia).
  assert (Hx : (0 < shape1 [[[C1; C0]]])%nat) by (cbn; lia).
  split; [exact Hy|]. split; [exact Hx|].
  exact (cbed_sum_over_modes (Arr2 [[C1]]) [[[C1; C0]]] 1 200 1 0 0 Hy Hx).
Defined.

(** ** Shifts by whole pixels *)

Lemma Csum_shift (n : nat) (f : nat -> C) :
  Csum (S n) f = (f 0%nat + Csum n (fun i => f (S i)))%C.
Proof.
  induction n as [|n IH].
  - cbn. now rewrite Cadd_0_l, Cadd_0_r.
  - cbn [Csum] in *. rewrite IH. now rewrite Cadd_assoc.
Qed.

Lemma Csum_cyclic_1 (N : nat) (h : nat -> C) :
  Csum N (fun y => h ((y + 1) mod N)%nat) = Csum N h.
Proof.
  destruct N as [|n]; [reflexivity|].
  rewrite (Csum_shift n h). cbn [Csum].
  replace ((n + 1) mod S n)%nat with 0%nat
    by (replace (n + 1)%nat with (S n) by lia; now rewrite Nat.Div0.mod_same).
  rewrite Cadd_comm. f_equal.
  apply Csum_ext. intros i Hi.
  rewrite Nat.mod_small by lia. f_equal. lia.
Qed.

(** A finite sum is invariant under a cyclic shift of its index. *)
Lemma Csum_cyclic (N s : nat) (h : nat -> C) :
  Csum N (fun y => h ((y + s) mod N)%nat) = Csum N h.
Proof.
  revert h. induction s as [|s IH]; intros h.
  - apply Csum_ext. intros y Hy.
    now rewrite Nat.add_0_r, Nat.mod_small.
  - rewrite <- (Csum_cyclic_1 N h).
    rewrite <- (IH (fun z => h ((z + 1) mod N)%nat)).
    apply Csum_ext. intros y Hy. f_equal.
    rewrite Nat.Div0.add_mod_idemp_l. f_equal. lia.
Qed.

Lemma twiddle_add (s : R) (N k a b : nat) :
  twiddle s N k (a + b) = (twiddle s N k a * twiddle s N k b)%C.
Proof.
  unfold twiddle. rewrite <- Cexp_i_add, plus_INR. f_equal.
  unfold Rdiv. ring.
Qed.

Lemma twiddle_multiple (N k q : nat) :
  (0 < N)%nat -> twiddle (-1) N k (N * q) = C1.
Proof.
  intros HN. assert (0 < INR N) by (apply lt_0_INR; lia).
  unfold twiddle. rewrite mult_INR.
  replace (-1 * (2 * PI) * (INR k * (INR N * INR q)) / INR N)
    with (- (2 * PI * INR (k * q))) by (rewrite mult_INR; field; lra).
  apply Cexp_i_neg_2PI_nat.
Qed.

Lemma twiddle_mod (N k a : nat) :
  (0 < N)%nat -> twiddle (-1) N k (a mod N) = twiddle (-1) N k a.
Proof.
  intros HN. rewrite (Nat.div_mod_eq a N) at 2.
  rewrite twiddle_add, twiddle_multiple by assumption.
  now rewrite Cmul_comm, Cmul_1_r.
Qed.

(** The shift theorem along one axis: multiplying the transform by the
    kernel at [n] is transforming the sequence rolled by [n]. *)
Lemma dft1_roll (N : nat) (g : nat -> C) (k n : nat) :
  (0 < N)%nat ->
  (dft1 N g k * twiddle (-1) N k n)%C
  = dft1 N (fun y => g ((y + (N - n mod N)) mod N)%nat) k.
Proof.
  intros HN. unfold dft1.
  rewrite <- Csum_mul_r.
  rewrite <- (Csum_cyclic N (N - n mod N)
                (fun y => (g y * twiddle (-1) N k y
                           * twiddle (-1) N k n)%C)).
  apply Csum_ext. intros y Hy.
  rewrite <- Cmul_assoc. f_equal.
  rewrite <- twiddle_add.
  rewrite <- (twiddle_mod N k ((y + (N - n mod N)) mod N + n)) by assumption.
  f_equal.
  rewrite Nat.Div0.add_mod_idemp_l.
  pose proof (Nat.mod_upper_bound n N ltac:(lia)) as Hn.
  rewrite (Nat.div_mod_eq n N) at 2.
  replace (y + (N - n mod N) + (N * (n / N) + n mod N))%nat
    with (y + (1 + n / N) * N)%nat by nia.
  rewrite Nat.Div0.mod_add. now apply Nat.mod_small.
Qed.

Lemma dft1_mul_r (N : nat) (A : nat -> C) (c : C) (k : nat) :
  (dft1 N A k * c)%C = dft1 N (fun y => (A y * c)%C) k.
Proof.
  unfold dft1. rewrite <- Csum_mul_r. apply Csum_ext. intros y _.
  rewrite <- !Cmul_assoc. f_equal. apply Cmul_comm.
Qed.

Lemma dft2_roll (H W : nat) (f : nat -> nat -> C) (k l ny nx : nat) :
  (0 < H)%nat -> (0 < W)%nat ->
  (dft2 H W f k l * (twiddle (-1) H k ny * twiddle (-1) W l nx))%C
  = dft2 H W (fun y x => f ((y + (H - ny mod H)) mod H)%nat
                           ((x + (W - nx mod W)) mod W)%nat) k l.
Proof.
  intros HH HW. unfold dft2.
  rewrite (Cmul_comm (twiddle (-1) H k ny)), Cmul_assoc.
  rewrite dft1_mul_r.
  rewrite (dft1_ext H _
             (fun y => dft1 W (fun x => f y ((x + (W - nx mod W)) mod W)%nat) l)).
  2:{ intros y _. now apply dft1_roll. }
  now rewrite dft1_roll.
Qed.

Lemma nth_fftfreq (n : nat) (d : R) (k : nat) :
  (k < n)%nat ->
  nth k (fftfreq n d) 0
  = (if (k <? (n - 1) / 2 + 1)%nat then INR k else INR k - INR n)
    / (d * INR n).
Proof. intros Hk. unfold fftfreq. now rewrite nth_tab. Qed.

(** The phase ramp of a displacement by a whole number of pixels. *)
Lemma Cexp_i_fftfreq (N k n : nat) (calib : R) :
  (k < N)%nat -> calib <> 0 ->
  Cexp_i (-2.0 * PI * (nth k (fftfreq N calib) 0 * (INR n * calib)))
  = twiddle (-1) N k n.
Proof.
  intros Hk Hc. assert (HN : 0 < INR N) by (apply lt_0_INR; lia).
  rewrite nth_fftfreq by assumption. unfold twiddle.
  replace (-2.0) with (-2) by lra.
  destruct (k <? (N - 1) / 2 + 1)%nat.
  - f_equal. field. split; lra.
  - replace (-2 * PI * ((INR k - INR N) / (calib * INR N) * (INR n * calib)))
      with (-1 * (2 * PI) * (INR k * INR n) / INR N + 2 * PI * INR n)
      by (field; split; lra).
    rewrite Cexp_i_add, Cexp_i_2PI_nat. apply Cmul_1_r.
Qed.

Lemma phase_ramp_whole_pixels (H W k l ny nx : nat) (calib : R) :
  (k < H)%nat -> (l < W)%nat -> calib <> 0 ->
  phase_ramp (fftfreq H calib) (fftfreq W calib)
             (INR ny * calib) (INR nx * calib) k l
  = (twiddle (-1) H k ny * twiddle (-1) W l nx)%C.
Proof.
  intros Hk Hl Hc. unfold phase_ramp.
  rewrite <- (Cexp_i_fftfreq H k ny calib), <- (Cexp_i_fftfreq W l nx calib)
    by assumption.
  rewrite <- Cexp_i_add. f_equal. ring.
Qed.

(** X15 -- a displacement by whole pixels, [(ny * calib_ang, nx * calib_ang)],
    is the periodic translation of the beam: the result is the beam rolled
    by [(ny, nx)] along its two spatial axes, with wrap-around at the
    borders. *)
Theorem shift_beam_fourier_whole_pixels (beam : array3) (calib : R)
        (ny nx : nat) :
  rect3 beam -> calib <> 0 ->
  shift_beam_fourier (Arr3 beam) [[INR ny * calib; INR nx * calib]] calib
  = [roll_pixels beam ny nx].
Proof.
  intros Hrect Hc. rewrite shift_beam_fourier_single. cbn [atleast_3d].
  f_equal. unfold ifft2, roll_pixels.
  set (r := phase_ramp (fftfreq (shape0 beam) calib)
                       (fftfreq (shape1 beam) calib)
                       (INR ny * calib) (INR nx * calib)).
  destruct (shape_mul_newaxis (fft2 beam) r) as (-> & -> & ->).
  destruct (shape_fft2 beam) as (F0 & F1 & F2). rewrite F0, F1, F2.
  apply tab3_ext. intros y x m Hy Hx Hm.
  rewrite (idft2_ext _ _ _
             (dft2 (shape0 beam) (shape1 beam)
                   (fun y0 x0 =>
                      get3 beam
                        ((y0 + (shape0 beam - ny mod shape0 beam))
                           mod shape0 beam)%nat
                        ((x0 + (shape1 beam - nx mod shape1 beam))
                           mod shape1 beam)%nat m))).
  - now rewrite idft2_dft2.
  - intros k l Hk Hl.
    rewrite get3_mul_newaxis by (rewrite ?F0, ?F1, ?F2; assumption).
    rewrite get3_fft2 by assumption.
    unfold r. rewrite phase_ramp_whole_pixels by assumption.
    apply dft2_roll; lia.
Qed.

Lemma shift_beam_fourier_whole_pixels_witness :
  rect3 [[[C1]; [C0]]; [[C0]; [C1]]] /\ 2 <> 0
  /\ shift_beam_fourier (Arr3 [[[C1]; [C0]]; [[C0]; [C1]]])
                        [[INR 1 * 2; INR 0 * 2]] 2
     = [roll_pixels [[[C1]; [C0]]; [[C0]; [C1]]] 1 0].
Proof.
  assert (Hr : rect3 [[[C1]; [C0]]; [[C0]; [C1]]]) by reflexivity.
  assert (Hc : 2 <> 0) by lra.
  split; [exact Hr|]. split; [exact Hc|].
  exact (shift_beam_fourier_whole_pixels
           [[[C1]; [C0]]; [[C0]; [C1]]] 2 1 0 Hr Hc).
Defined.

(** ** Conservation of the total intensity *)

Lemma Rsqr_Cabs (z : C) : Rsqr (Cabs z) = Re z * Re z + Im z * Im z.
Proof.
  unfold Cabs. apply Rsqr_sqrt.
  pose proof (Rle_0_sqr (Re z)) as Ha. pose proof (Rle_0_sqr (Im z)) as Hb.
  unfold Rsqr in Ha, Hb. lra.
Qed.

Lemma RtoC_inj (a b : R) : RtoC a = RtoC b -> a = b.
Proof. intros Hab. now injection Hab. Qed.

Lemma Csum_RtoC (n : nat) (f : nat -> R) :
  Csum n (fun i => RtoC (f i)) = RtoC (Rsum n f).
Proof.
  induction n as [|n IH]; cbn [Csum Rsum]; [reflexivity|].
  rewrite IH. unfold Cadd, RtoC; cbn [Re Im fst snd]. f_equal. ring.
Qed.

Lemma Rsum_add (n : nat) (f g : nat -> R) :
  Rsum n (fun i => f i + g i) = Rsum n f + Rsum n g.
Proof.
  induction n as [|n IH]; cbn [Rsum]; [ring|]. rewrite IH. ring.
Qed.

Lemma Rsum_scal (n : nat) (c : R) (f : nat -> R) :
  Rsum n (fun i => c * f i) = c * Rsum n f.
Proof.
  induction n as [|n IH]; cbn [Rsum]; [ring|]. rewrite IH. ring.
Qed.

Lemma Rsum_swap (n m : nat) (f : nat -> nat -> R) :
  Rsum n (fun i => Rsum m (fun j => f i j))
  = Rsum m (fun j => Rsum n (fun i => f i j)).
Proof.
  induction n as [|n IH]; cbn [Rsum].
  - now rewrite Rsum_zero.
  - now rewrite Rsum_add, IH.
Qed.

Lemma Rsum_cyclic (N s : nat) (h : nat -> R) :
  Rsum N (fun y => h ((y + s) mod N)%nat) = Rsum N h.
Proof.
  apply RtoC_inj.
  rewrite <- (Csum_RtoC N h).
  rewrite <- (Csum_RtoC N (fun y => h ((y + s) mod N)%nat)).
  exact (Csum_cyclic N s (fun y => RtoC (h y))).
Qed.

Lemma Rsum3_ext (H W M : nat) (f g : nat -> nat -> nat -> R) :
  (forall y x m, (y < H)%nat -> (x < W)%nat -> (m < M)%nat ->
                 f y x m = g y x m) ->
  Rsum H (fun y => Rsum W (fun x => Rsum M (fun m => f y x m)))
  = Rsum H (fun y => Rsum W (fun x => Rsum M (fun m => g y x m))).
Proof.
  intros Hfg. apply Rsum_ext. intros y Hy. apply Rsum_ext. intros x Hx.
  apply Rsum_ext. intros m Hm. now apply Hfg.
Qed.

Lemma Rsum3_swap (H W M : nat) (f : nat -> nat -> nat -> R) :
  Rsum H (fun y => Rsum W (fun x => Rsum M (fun m => f y x m)))
  = Rsum M (fun m => Rsum H (fun y => Rsum W (fun x => f y x m))).
Proof.
  rewrite (Rsum_ext H _
             (fun y => Rsum M (fun m => Rsum W (fun x => f y x m))))
    by (intros y _; apply Rsum_swap).
  apply (Rsum_swap H M (fun y m => Rsum W (fun x => f y x m))).
Qed.

Lemma Cmul_Cconj (z : C) : (z * Cconj z)%C = RtoC (Rsqr (Cabs z)).
Proof.
  rewrite Rsqr_Cabs. destruct z as [a b].
  unfold Cmul, Cconj, RtoC; cbn [Re Im fst snd]. f_equal; ring.
Qed.

Lemma Cconj_mul (a b : C) : Cconj (a * b)%C = (Cconj a * Cconj b)%C.
Proof.
  destruct a, b; unfold Cmul, Cconj; cbn [Re Im fst snd]; f_equal; ring.
Qed.

Lemma Cconj_Csum (n : nat) (f : nat -> C) :
  Cconj (Csum n f) = Csum n (fun i => Cconj (f i)).
Proof.
  induction n as [|n IH]; cbn [Csum].
  - unfold Cconj, C0; cbn [Re Im fst snd]. f_equal. ring.
  - rewrite <- IH. destruct (Csum n f), (f n).
    unfold Cadd, Cconj; cbn [Re Im fst snd]. f_equal. ring.
Qed.

Lemma Cconj_twiddle (N k y : nat) :
  Cconj (twiddle (-1) N k y) = twiddle 1 N k y.
Proof.
  assert (E : -1 * (2 * PI) * (INR k * INR y) / INR N
              = - (1 * (2 * PI) * (INR k * INR y) / INR N))
    by (unfold Rdiv; ring).
  unfold twiddle. rewrite E. unfold Cconj, Cexp_i; cbn [Re Im fst snd].
  rewrite cos_neg, sin_neg. f_equal. ring.
Qed.

Lemma Cconj_dft1 (N : nat) (g : nat -> C) (k : nat) :
  Cconj (dft1 N g k)
  = Csum N (fun y => (Cconj (g y) * twiddle 1 N k y)%C).
Proof.
  unfold dft1. rewrite Cconj_Csum. apply Csum_ext. intros y _.
  now rewrite Cconj_mul, Cconj_twiddle.
Qed.

(** Parseval's identity for the unscaled transform, along one axis and
    along two. *)
Lemma dft1_parseval (N : nat) (g : nat -> C) :
  Rsum N (fun k => Rsqr (Cabs (dft1 N g k)))
  = INR N * Rsum N (fun y => Rsqr (Cabs (g y))).
Proof.
  apply RtoC_inj.
  rewrite <- (Csum_RtoC N (fun k => Rsqr (Cabs (dft1 N g k)))).
  rewrite (Csum_ext N _
    (fun k => Csum N (fun y => ((dft1 N g k * twiddle 1 N k y)
                                * Cconj (g y))%C))).
  2:{ intros k _. cbv beta.
      rewrite <- Cmul_Cconj, Cconj_dft1, <- Csum_mul_l.
      apply Csum_ext. intros y _.
      rewrite (Cmul_comm (Cconj (g y))). apply Cmul_assoc. }
  rewrite Csum_swap.
  rewrite (Csum_ext N _ (fun y => RtoC (INR N * Rsqr (Cabs (g y))))).
  2:{ intros y Hy. rewrite Csum_mul_r. unfold dft1.
      rewrite (double_sum_orth 1 (-1)) by (auto; lia).
      rewrite Rsqr_Cabs. destruct (g y) as [a b].
      unfold Cmul, Cconj, RtoC; cbn [Re Im fst snd]. f_equal; ring. }
  rewrite Csum_RtoC. f_equal. apply Rsum_scal.
Qed.

Lemma dft2_parseval (H W : nat) (f : nat -> nat -> C) :
  Rsum H (fun k => Rsum W (fun l => Rsqr (Cabs (dft2 H W f k l))))
  = INR H * INR W
    * Rsum H (fun y => Rsum W (fun x => Rsqr (Cabs (f y x)))).
Proof.
  unfold dft2. rewrite Rsum_swap.
  rewrite (Rsum_ext W _
    (fun l => INR H
              * Rsum H (fun y => Rsqr (Cabs (dft1 W (fun x => f y x) l))))).
  2:{ intros l _. apply (dft1_parseval H (fun y => dft1 W (fun x => f y x) l)). }
  rewrite Rsum_scal, Rsum_swap.
  rewrite (Rsum_ext H _
    (fun y => INR W * Rsum W (fun x => Rsqr (Cabs (f y x))))).
  2:{ intros y _. apply (dft1_parseval W (fun x => f y x)). }
  rewrite Rsum_scal. ring.
Qed.

(** The transform multiplies the energy of a wave by the number of
    pixels. *)
Lemma wave_energy_fft2 (w : array3) :
  wave_energy (fft2 w) = INR (shape0 w) * INR (shape1 w) * wave_energy w.
Proof.
  unfold wave_energy. destruct (shape_fft2 w) as (-> & -> & ->).
  rewrite (Rsum3_ext _ _ _ _
    (fun k l m => Rsqr (Cabs (dft2 (shape0 w) (shape1 w)
                                   (fun y x => get3 w y x m) k l)))).
  2:{ intros k l m Hk Hl Hm. now rewrite get3_fft2. }
  rewrite (Rsum3_swap (shape0 w) (shape1 w) (shape2 w)
             (fun k l m => Rsqr (Cabs (dft2 (shape0 w) (shape1 w)
                                            (fun y x => get3 w y x m) k l)))).
  rewrite (Rsum3_swap (shape0 w) (shape1 w) (shape2 w)
             (fun y x m => Rsqr (Cabs (get3 w y x m)))).
  rewrite <- Rsum_scal. apply Rsum_ext. intros m _.
  apply (dft2_parseval _ _ (fun y x => get3 w y x m)).
Qed.

(** Centring the zero frequency permutes the entries. *)
Lemma wave_energy_fftshift (a : array3) :
  wave_energy (fftshift a) = wave_energy a.
Proof.
  unfold wave_energy. destruct (shape_fftshift a) as (-> & -> & ->).
  rewrite (Rsum3_ext _ _ _ _
    (fun y x m => Rsqr (Cabs (get3 a (shift_index (shape0 a) y)
                                     (shift_index (shape1 a) x) m)))).
  2:{ intros y x m Hy Hx Hm. now rewrite get3_fftshift. }
  unfold shift_index.
  rewrite (Rsum_cyclic (shape0 a) (shape0 a - shape0 a / 2)
    (fun y' => Rsum (shape1 a)
       (fun x => Rsum (shape2 a)
          (fun m => Rsqr (Cabs (get3 a y'
                      ((x + (shape1 a - shape1 a / 2)) mod shape1 a)%nat
                      m)))))).
  apply Rsum_ext. intros y _.
  apply (Rsum_cyclic (shape1 a) (shape1 a - shape1 a / 2)
    (fun x' => Rsum (shape2 a) (fun m => Rsqr (Cabs (get3 a y x' m))))).
Qed.

(** Multiplying by a plane of unit-modulus entries keeps the energy. *)
Lemma wave_energy_mul_newaxis (w : array3) (r : nat -> nat -> C) :
  (forall y x, (y < shape0 w)%nat -> (x < shape1 w)%nat ->
               Cabs (r y x) = 1) ->
  wave_energy (mul_newaxis w r) = wave_energy w.
Proof.
  intros Hr. unfold wave_energy.
  destruct (shape_mul_newaxis w r) as (-> & -> & ->).
  apply Rsum3_ext. intros y x m Hy Hx Hm.
  rewrite get3_mul_newaxis by assumption.
  rewrite Cabs_mul, Hr by assumption. now rewrite Rmult_1_r.
Qed.

Lemma wave_energy_empty (w : array3) :
  shape0 w = 0%nat \/ shape1 w = 0%nat -> wave_energy w = 0.
Proof.
  unfold wave_energy. intros [E | E]; rewrite E.
  - reflexivity.
  - cbn [Rsum]. apply Rsum_zero.
Qed.

(** Free-space propagation with a unit-modulus kernel keeps the energy. *)
Lemma wave_energy_propagate (K : matrixC) (w : array3) :
  (forall y x, (y < shape0 w)%nat -> (x < shape1 w)%nat ->
               Cabs (get2 K y x) = 1) ->
  wave_energy (propagate K w) = wave_energy w.
Proof.
  intros HK. destruct (shape_propagate K w) as (P0 & P1 & P2).
  destruct (Nat.eq_dec (shape0 w) 0) as [H0 | H0].
  { rewrite !wave_energy_empty; auto. left. now rewrite P0. }
  destruct (Nat.eq_dec (shape1 w) 0) as [H1 | H1].
  { rewrite !wave_energy_empty; auto. right. now rewrite P1. }
  pose proof (wave_energy_fft2 (propagate K w)) as E.
  rewrite fft2_propagate, P0, P1 in E.
  rewrite wave_energy_mul_newaxis, wave_energy_fft2 in E.
  - assert (Hpos : 0 < INR (shape0 w) * INR (shape1 w)).
    { apply Rmult_lt_0_compat; apply lt_0_INR; lia. }
    apply Rmult_eq_reg_l with (r := INR (shape0 w) * INR (shape1 w)); lra.
  - destruct (shape_fft2 w) as (-> & -> & _). exact HK.
Qed.

Lemma wave_energy_scan_fn (pot : array3) (K : matrixC) (S : nat) (w : array3)
      (i : nat) :
  (forall y x, (y < shape0 w)%nat -> (x < shape1 w)%nat ->
               Cabs (get3 pot y x i) = 1) ->
  (forall y x, (y < shape0 w)%nat -> (x < shape1 w)%nat ->
               Cabs (get2 K y x) = 1) ->
  wave_energy (scan_fn pot K S w i) = wave_energy w.
Proof.
  intros Hpot HK. unfold scan_fn. cbv zeta.
  destruct (i =? S - 1)%nat.
  - now apply wave_energy_mul_newaxis.
  - rewrite wave_energy_propagate.
    + now apply wave_energy_mul_newaxis.
    + destruct (shape_mul_newaxis w (fun y x => get3 pot y x i))
        as (-> & -> & _).
      exact HK.
Qed.

Lemma wave_energy_scan (pot : array3) (K : matrixC) (S H W : nat)
      (l : list nat) (w : array3) :
  shape0 w = H -> shape1 w = W ->
  (forall i y x, In i l -> (y < H)%nat -> (x < W)%nat ->
                 Cabs (get3 pot y x i) = 1) ->
  (forall y x, (y < H)%nat -> (x < W)%nat -> Cabs (get2 K y x) = 1) ->
  wave_energy (fold_left (scan_fn pot K S) l w) = wave_energy w.
Proof.
  revert w. induction l as [|i l IH]; intros w E0 E1 Hpot HK;
    cbn [fold_left]; [reflexivity|].
  destruct (shape_scan_fn pot K S w i) as (S0 & S1 & _).
  rewrite IH.
  - apply wave_energy_scan_fn.
    + intros y x Hy Hx. apply Hpot; [now left|lia|lia].
    + intros y x Hy Hx. apply HK; lia.
  - now rewrite S0.
  - now rewrite S1.
  - intros j y x Hj. apply Hpot. now right.
  - exact HK.
Qed.

Lemma pattern_total_tab2 (H W : nat) (f : nat -> nat -> R) :
  pattern_total (tab2 H W f) = Rsum H (fun y => Rsum W (fun x => f y x)).
Proof.
  unfold pattern_total.
  assert (E0 : shape0 (tab2 H W f) = H).
  { unfold shape0, tab2, tab. now rewrite length_map, length_seq. }
  rewrite E0. destruct H as [|H]; [reflexivity|].
  assert (E1 : shape1 (tab2 (S H) W f) = W).
  { unfold shape1, tab2, tab. cbn [seq map nth].
    now rewrite length_map, length_seq. }
  rewrite E1. apply Rsum_ext. intros y Hy. apply Rsum_ext. intros x Hx.
  now apply getR2_tab2.
Qed.

(** X26 -- a specimen whose slices have entries of modulus one absorbs
    nothing: the diffraction pattern adds up to the number of pixels times
    the energy of the incoming beam, whatever the slice thickness, the
    voltage and the calibration. *)
Theorem cbed_total_intensity (pot_slice beam : ndarray) (t V calib : R) :
  (forall y x s, (y < shape0 (atleast_3d beam))%nat ->
                 (x < shape1 (atleast_3d beam))%nat ->
                 (s < shape2 (atleast_3d pot_slice))%nat ->
                 Cabs (get3 (atleast_3d pot_slice) y x s) = 1) ->
  pattern_total (cbed pot_slice beam t V calib)
  = INR (shape0 (atleast_3d beam)) * INR (shape1 (atleast_3d beam))
    * wave_energy (atleast_3d beam).
Proof.
  intros Hpot. unfold cbed. cbv zeta.
  set (b := atleast_3d beam) in *. set (pot := atleast_3d pot_slice) in *.
  set (K := propagation_func (shape0 b) (shape1 b) t V calib).
  set (final := fold_left (scan_fn pot K (shape2 pot)) (seq 0 (shape2 pot)) b).
  destruct (shape_scan pot K (shape2 pot) (seq 0 (shape2 pot)) b)
    as (F0 & F1 & F2).
  fold final in F0, F1, F2.
  assert (Efinal : wave_energy final = wave_energy b).
  { unfold final.
    apply (wave_energy_scan pot K (shape2 pot) (shape0 b) (shape1 b));
      try reflexivity.
    - intros i y x Hi Hy Hx. apply Hpot; try assumption.
      apply in_seq in Hi. lia.
    - intros y x Hy Hx. unfold K. now apply get2_propagation_func. }
  rewrite far_field_shape, pattern_total_tab2.
  transitivity (wave_energy (fftshift (fft2 final))).
  - unfold wave_energy.
    destruct (shape_fftshift (fft2 final)) as (-> & -> & ->).
    now destruct (shape_fft2 final) as (-> & -> & ->).
  - rewrite wave_energy_fftshift, wave_energy_fft2, Efinal, F0, F1.
    reflexivity.
Qed.

Lemma cbed_total_intensity_witness :
  (forall y x s,
      (y < shape0 (atleast_3d (Arr2 [[C1; Cexp_i 1]])))%nat ->
      (x < shape1 (atleast_3d (Arr2 [[C1; Cexp_i 1]])))%nat ->
      (s < shape2 (atleast_3d
                     (Arr2 (transmission_func [[1%R; 2%R]] 200))))%nat ->
      Cabs (get3 (atleast_3d (Arr2 (transmission_func [[1%R; 2%R]] 200)))
                 y x s) = 1)
  /\ pattern_total (cbed (Arr2 (transmission_func [[1%R; 2%R]] 200))
                         (Arr2 [[C1; Cexp_i 1]]) 5 200 1)
     = INR (shape0 (atleast_3d (Arr2 [[C1; Cexp_i 1]])))
       * INR (shape1 (atleast_3d (Arr2 [[C1; Cexp_i 1]])))
       * wave_energy (atleast_3d (Arr2 [[C1; Cexp_i 1]])).
Proof.
  assert (Hpot : forall y x s,
      (y < shape0 (atleast_3d (Arr2 [[C1; Cexp_i 1]])))%nat ->
      (x < shape1 (atleast_3d (Arr2 [[C1; Cexp_i 1]])))%nat ->
      (s < shape2 (atleast_3d
                     (Arr2 (transmission_func [[1%R; 2%R]] 200))))%nat ->
      Cabs (get3 (atleast_3d (Arr2 (transmission_func [[1%R; 2%R]] 200)))
                 y x s) = 1).
  { cbn [atleast_3d transmission_func map shape0 shape1 shape2 length nth].
    intros y x s Hy Hx Hs.
    destruct y as [|y]; [|lia]. destruct s as [|s]; [|lia].
    destruct x as [|[|x]]; [| |lia]; cbn [get3 nth]; apply Cabs_Cexp_i. }
  split; [exact Hpot|].
  exact (cbed_total_intensity (Arr2 (transmission_func [[1%R; 2%R]] 200))
                              (Arr2 [[C1; Cexp_i 1]]) 5 200 1 Hpot).
Defined.

(** The same count for the patterns of a scan. *)
Lemma far_field_total (final : array3) :
  pattern_total (far_field_intensity final)
  = INR (shape0 final) * INR (shape1 final) * wave_energy final.
Proof.
  rewrite far_field_shape, pattern_total_tab2.
  transitivity (wave_energy (fftshift (fft2 final))).
  - unfold wave_energy.
    destruct (shape_fftshift (fft2 final)) as (-> & -> & ->).
    now destruct (shape_fft2 final) as (-> & -> & ->).
  - now rewrite wave_energy_fftshift, wave_energy_fft2.
Qed.

(** Shifting a beam keeps its energy. *)
Lemma wave_energy_modulate (w : array3) (r : nat -> nat -> C) :
  (forall y x, (y < shape0 w)%nat -> (x < shape1 w)%nat ->
               Cabs (r y x) = 1) ->
  wave_energy (ifft2 (mul_newaxis (fft2 w) r)) = wave_energy w.
Proof.
  intros Hr. destruct (shape_fft2 w) as (F0 & F1 & _).
  rewrite <- (wave_energy_propagate (tab2 (shape0 w) (shape1 w) r) w).
  - unfold propagate. cbv zeta. do 2 f_equal. apply mul_newaxis_ext.
    intros y x Hy Hx. rewrite F0 in Hy. rewrite F1 in Hx.
    now rewrite get2_tab2.
  - intros y x Hy Hx. rewrite get2_tab2 by assumption. now apply Hr.
Qed.

(** X21 -- behind a specimen whose slices have entries of modulus one,
    every pattern of a 4D-STEM scan adds up to the number of pixels times
    the energy of the beam: the total does not depend on the probe
    position. *)
Theorem stem_4D_total_intensity (pot_slice beam : array3)
        (positions : matrixR) (t V calib : R) :
  positions <> [] ->
  (forall y x s, (y < shape0 beam)%nat -> (x < shape1 beam)%nat ->
                 (s < shape2 pot_slice)%nat ->
                 Cabs (get3 pot_slice y x s) = 1) ->
  Forall (fun pattern =>
            pattern_total pattern
            = INR (shape0 beam) * INR (shape1 beam) * wave_energy beam)
         (stem_4D pot_slice beam positions t V calib).
Proof.
  intros _ Hpot. rewrite stem_4D_as_map.
  apply Forall_map, Forall_forall. intros row _.
  unfold pattern_at, cbed. cbv zeta. cbn [atleast_3d].
  set (r := phase_ramp (fftfreq (shape0 beam) calib)
                       (fftfreq (shape1 beam) calib)
                       (nth 0 row 0) (nth 1 row 0)).
  set (shifted := ifft2 (mul_newaxis (fft2 beam) r)).
  assert (Hs : shape0 shifted = shape0 beam /\ shape1 shifted = shape1 beam).
  { unfold shifted.
    destruct (shape_ifft2 (mul_newaxis (fft2 beam) r)) as (-> & -> & _).
    destruct (shape_mul_newaxis (fft2 beam) r) as (-> & -> & _).
    destruct (shape_fft2 beam) as (-> & -> & _). now split. }
  destruct Hs as (S0 & S1).
  set (K := propagation_func (shape0 shifted) (shape1 shifted) t V calib).
  rewrite far_field_total.
  destruct (shape_scan pot_slice K (shape2 pot_slice)
                       (seq 0 (shape2 pot_slice)) shifted) as (-> & -> & _).
  rewrite (wave_energy_scan pot_slice K (shape2 pot_slice)
                            (shape0 beam) (shape1 beam));
    try assumption.
  - rewrite S0, S1. f_equal. unfold shifted.
    apply wave_energy_modulate. intros y x _ _. unfold r.
    apply Cabs_phase_ramp.
  - intros i y x Hi Hy Hx. apply Hpot; try assumption.
    apply in_seq in Hi. lia.
  - intros y x Hy Hx. unfold K. rewrite S0, S1.
    now apply get2_propagation_func.
Qed.

Lemma stem_4D_total_intensity_witness :
  [[0; 0]; [1 / 2; 3]] <> ([] : matrixR)
  /\ (forall y x s,
         (y < shape0 [[[C1]; [Cexp_i 1]]])%nat ->
         (x < shape1 [[[C1]; [Cexp_i 1]]])%nat ->
         (s < shape2 [[[Cexp_i 2]; [C1]]])%nat ->
         Cabs (get3 [[[Cexp_i 2]; [C1]]] y x s) = 1)
  /\ Forall (fun pattern =>
               pattern_total pattern
               = INR (shape0 [[[C1]; [Cexp_i 1]]])
                 * INR (shape1 [[[C1]; [Cexp_i 1]]])
                 * wave_energy [[[C1]; [Cexp_i 1]]])
            (stem_4D [[[Cexp_i 2]; [C1]]] [[[C1]; [Cexp_i 1]]]
                     [[0; 0]; [1 / 2; 3]] 5 200 1).
Proof.
  assert (Hp : [[0; 0]; [1 / 2; 3]] <> ([] : matrixR)) by discriminate.
  assert (Hpot : forall y x s,
             (y < shape0 [[[C1]; [Cexp_i 1]]])%nat ->
             (x < shape1 [[[C1]; [Cexp_i 1]]])%nat ->
             (s < shape2 [[[Cexp_i 2]; [C1]]])%nat ->
             Cabs (get3 [[[Cexp_i 2]; [C1]]] y x s) = 1).
  { cbn [shape0 shape1 shape2 length nth]. intros y x s Hy Hx Hs.
    destruct y as [|y]; [|lia]. destruct s as [|s]; [|lia].
    destruct x as [|[|x]]; [| |lia]; cbn [get3 nth];
      [apply Cabs_Cexp_i | apply Cabs_C1]. }
  split; [exact Hp|]. split; [exact Hpot|].
  exact (stem_4D_total_intensity [[[Cexp_i 2]; [C1]]] [[[C1]; [Cexp_i 1]]]
                                 [[0; 0]; [1 / 2; 3]] 5 200 1 Hp Hpot).
Defined.

(** ** Fourier coordinates *)

Lemma nth_arange_scaled (n i : nat) (fov : R) :
  (i < n)%nat ->
  nth i (map (fun v => v / fov) (arange_centered n)) 0
  = (- (INR n / 2) + INR i) / fov.
Proof.
  intros Hi. unfold arange_centered, tab. rewrite map_map.
  change (map (fun x => (- (INR n / 2) + INR x) / fov) (seq 0 n))
    with (tab n (fun x => (- (INR n / 2) + INR x) / fov)).
  now rewrite nth_tab.
Qed.

Lemma length_arange_scaled (n : nat) (fov : R) :
  length (map (fun v => v / fov) (arange_centered n)) = n.
Proof. unfold arange_centered. now rewrite length_map, tab_length. Qed.

(** X16 -- for an image of at least two pixels along each axis and non-zero
    pixel sizes, [fourier_coords] returns an array of the size of the image,
    flagged as Fourier space, whose calibrations are the reciprocals of the
    fields of view: the values [fourier_calib] computes. *)
Theorem fourier_coords_calibration (cal : calibration) (h w : nat) :
  (2 <= h)%nat -> (2 <= w)%nat ->
  calib_axis cal 0 <> 0 -> calib_axis cal 1 <> 0 ->
  exists r : CalibratedReal,
    fourier_coords cal (h, w) = Some r
    /\ cr_real_space r = false
    /\ (cr_calib_y r, cr_calib_x r) = fourier_calib cal (h, w)
    /\ length (cr_data_array r) = h
    /\ Forall (fun row => length row = w) (cr_data_array r).
Proof.
  intros Hh Hw Hcy Hcx.
  destruct h as [|[|h]]; [lia | lia |].
  destruct w as [|[|w]]; [lia | lia |].
  unfold fourier_coords. cbv zeta. cbn [fst snd].
  set (fy := INR (S (S h)) * calib_axis cal 0).
  set (fx := INR (S (S w)) * calib_axis cal 1).
  set (ay := map (fun v => v / fy) (arange_centered (S (S h)))).
  set (ax := map (fun v => v / fx) (arange_centered (S (S w)))).
  assert (Hay : exists a0 a1 resty, ay = a0 :: a1 :: resty
                 /\ a1 - a0 = 1 / fy).
  { unfold ay, arange_centered, tab. cbn [seq map].
    do 3 eexists. split; [reflexivity|].
    cbn [INR]. unfold Rdiv. ring. }
  assert (Hax : exists a0 a1 restx, ax = a0 :: a1 :: restx
                 /\ a1 - a0 = 1 / fx).
  { unfold ax, arange_centered, tab. cbn [seq map].
    do 3 eexists. split; [reflexivity|].
    cbn [INR]. unfold Rdiv. ring. }
  destruct Hay as (y0 & y1 & resty & Ey & Dy).
  destruct Hax as (x0 & x1 & restx & Ex & Dx).
  assert (Ly : length ay = S (S h)) by apply length_arange_scaled.
  assert (Lx : length ax = S (S w)) by apply length_arange_scaled.
  rewrite Ey, Ex. rewrite <- Ey, <- Ex.
  eexists. split; [reflexivity|].
  cbn [cr_real_space cr_calib_y cr_calib_x cr_data_array].
  repeat split.
  - unfold fourier_calib. cbn [fst snd]. fold fy fx.
    rewrite Ey, Ex. cbn [nth]. now rewrite Dy, Dx.
  - unfold tab2. rewrite tab_length. unfold roll. now rewrite tab_length.
  - unfold tab2. apply Forall_tab. intros r _.
    rewrite tab_length. unfold roll. now rewrite tab_length.
Qed.

Lemma fourier_coords_calibration_witness :
  (2 <= 4)%nat /\ (2 <= 2)%nat
  /\ calib_axis (CalScalar (1 / 2)) 0 <> 0
  /\ calib_axis (CalScalar (1 / 2)) 1 <> 0
  /\ exists r : CalibratedReal,
      fourier_coords (CalScalar (1 / 2)) (4%nat, 2%nat) = Some r
      /\ cr_real_space r = false
      /\ (cr_calib_y r, cr_calib_x r)
         = fourier_calib (CalScalar (1 / 2)) (4%nat, 2%nat).
Proof.
  assert (H1 : (2 <= 4)%nat) by lia. assert (H2 : (2 <= 2)%nat) by lia.
  assert (H3 : calib_axis (CalScalar (1 / 2)) 0 <> 0) by (cbn; lra).
  assert (H4 : calib_axis (CalScalar (1 / 2)) 1 <> 0) by (cbn; lra).
  split; [exact H1|]. split; [exact H2|]. split; [exact H3|].
  split; [exact H4|].
  destruct (fourier_coords_calibration (CalScalar (1 / 2)) 4 2 H1 H2 H3 H4)
    as (r & Hr & Hf & Hc & _).
  exists r. split; [exact Hr|]. split; [exact Hf | exact Hc].
Defined.

(** The rolled frequency axis of an even size is the axis of the FFT. *)
Lemma roll_arange_even (k : nat) (c : R) :
  (0 < k)%nat ->
  roll (map (fun v => v / (INR (2 * k) * c)) (arange_centered (2 * k))) k
  = fftfreq (2 * k) c.
Proof.
  intros Hk. unfold roll. rewrite length_arange_scaled. unfold fftfreq.
  apply tab_ext. intros j Hj.
  assert (Hmod : (k mod (2 * k) = k)%nat) by (apply Nat.mod_small; lia).
  rewrite Hmod.
  replace ((2 * k - 1) / 2 + 1)%nat with k.
  2:{ replace (2 * k - 1)%nat with (1 + (k - 1) * 2)%nat by lia.
      rewrite Nat.div_add by lia. cbn. lia. }
  replace (2 * k - k)%nat with k by lia.
  assert (H2k : INR (2 * k) = 2 * INR k) by (rewrite mult_INR; cbn; ring).
  destruct (Nat.ltb_spec j k) as [Hlt | Hge].
  - rewrite Nat.mod_small by lia.
    rewrite nth_arange_scaled by lia.
    rewrite plus_INR, H2k.
    replace (- (2 * INR k / 2) + (INR j + INR k)) with (INR j) by lra.
    f_equal. ring.
  - replace ((j + k) mod (2 * k))%nat with (j - k)%nat.
    2:{ replace (j + k)%nat with ((j - k) + 1 * (2 * k))%nat by lia.
        rewrite Nat.Div0.mod_add. symmetry. apply Nat.mod_small. lia. }
    rewrite nth_arange_scaled by lia.
    rewrite minus_INR by lia. rewrite H2k.
    replace (- (2 * INR k / 2) + (INR j - INR k))
      with (INR j - 2 * INR k) by lra.
    f_equal. ring.
Qed.

(** X17 -- for even image sizes the array of [fourier_coords] is the
    magnitude of the spatial frequency on the grid of the FFT: entry
    [(r, c)] is [sqrt (qy[r]^2 + qx[c]^2)] with [qy] and [qx] the
    [fftfreq] axes that [propagation_func] and [shift_beam_fourier] use. *)
Theorem fourier_coords_even_grid (cal : calibration) (ky kx : nat) :
  (0 < ky)%nat -> (0 < kx)%nat ->
  exists r : CalibratedReal,
    fourier_coords cal ((2 * ky)%nat, (2 * kx)%nat) = Some r
    /\ cr_data_array r
       = tab2 (2 * ky) (2 * kx)
              (fun y x =>
                 sqrt (nth y (fftfreq (2 * ky) (calib_axis cal 0)) 0
                       * nth y (fftfreq (2 * ky) (calib_axis cal 0)) 0
                       + nth x (fftfreq (2 * kx) (calib_axis cal 1)) 0
                         * nth x (fftfreq (2 * kx) (calib_axis cal 1)) 0)).
Proof.
  intros Hky Hkx. unfold fourier_coords. cbv zeta. cbn [fst snd].
  replace ((2 * ky) / 2)%nat with ky
    by (rewrite Nat.mul_comm, Nat.div_mul; lia).
  replace ((2 * kx) / 2)%nat with kx
    by (rewrite Nat.mul_comm, Nat.div_mul; lia).
  rewrite !roll_arange_even by assumption.
  set (ay := map _ (arange_centered (2 * ky))).
  set (ax := map _ (arange_centered (2 * kx))).
  assert (Ly : length ay = (2 * ky)%nat) by apply length_arange_scaled.
  assert (Lx : length ax = (2 * kx)%nat) by apply length_arange_scaled.
  destruct ay as [|y0 ay']; [cbn in Ly; lia|].
  destruct ax as [|x0 ax']; [cbn in Lx; lia|].
  eexists. split; [reflexivity|].
  cbn [cr_data_array]. unfold fftfreq at 1 2. now rewrite !tab_length.
Qed.

Lemma fourier_coords_even_grid_witness :
  (0 < 2)%nat /\ (0 < 1)%nat
  /\ exists r : CalibratedReal,
      fourier_coords (CalPair 1 2) ((2 * 2)%nat, (2 * 1)%nat) = Some r
      /\ cr_data_array r
         = tab2 (2 * 2) (2 * 1)
                (fun y x =>
                   sqrt (nth y (fftfreq (2 * 2) (calib_axis (CalPair 1 2) 0)) 0
                         * nth y (fftfreq (2 * 2)
                                          (calib_axis (CalPair 1 2) 0)) 0
                         + nth x (fftfreq (2 * 1)
                                          (calib_axis (CalPair 1 2) 1)) 0
                           * nth x (fftfreq (2 * 1)
                                            (calib_axis (CalPair 1 2) 1)) 0)).
Proof.
  assert (H1 : (0 < 2)%nat) by lia. assert (H2 : (0 < 1)%nat) by lia.
  split; [exact H1|]. split; [exact H2|].
  exact (fourier_coords_even_grid (CalPair 1 2) 2 1 H1 H2).
Defined.

(** ** Loss functions *)

Lemma sum_nonneg (l : list R) :
  Forall (fun v => 0 <= v) l -> 0 <= fold_right Rplus 0 l.
Proof.
  induction 1 as [|v l Hv _ IH]; cbn; lra.
Qed.

Lemma sum_zero (l : list R) :
  Forall (fun v => v = 0) l -> fold_right Rplus 0 l = 0.
Proof.
  induction 1 as [|v l Hv _ IH]; cbn; [reflexivity|]. rewrite Hv, IH. ring.
Qed.

Lemma entries_map3 (P : R -> Prop) (g : R -> R) (d : list matrixR) :
  (forall v, P (g v)) -> Forall P (concat (concat (map3 g d))).
Proof.
  intros Hg. apply Forall_forall. intros v Hv.
  apply in_concat in Hv. destruct Hv as (row & Hrow & Hv).
  apply in_concat in Hrow. destruct Hrow as (plane & Hplane & Hrow).
  unfold map3 in Hplane. apply in_map_iff in Hplane.
  destruct Hplane as (plane0 & <- & _).
  apply in_map_iff in Hrow. destruct Hrow as (row0 & <- & _).
  apply in_map_iff in Hv. destruct Hv as (v0 & <- & _). apply Hg.
Qed.

Lemma mean_nonneg (g : R -> R) (d : list matrixR) :
  (forall v, 0 <= g v) -> 0 <= mean (map3 g d).
Proof.
  intros Hg. unfold mean. cbv zeta.
  pose proof (sum_nonneg _ (entries_map3 (fun v => 0 <= v) g d Hg)) as Hs.
  set (n := length (concat (concat (map3 g d)))).
  destruct n as [|n].
  - cbn [INR]. unfold Rdiv. rewrite Rinv_0. lra.
  - apply Rle_mult_inv_pos; [assumption|]. apply lt_0_INR. lia.
Qed.

Lemma zip_with_diag {A D : Type} (f : A -> A -> D) (l : list A) :
  zip_with f l l = map (fun x => f x x) l.
Proof.
  unfold zip_with. induction l as [|x l IH]; cbn; [reflexivity|].
  now rewrite IH.
Qed.

Lemma diff_self (a : list matrixR) :
  zip_with (zip_with (zip_with Rminus)) a a = map3 (fun _ => 0) a.
Proof.
  unfold map3. rewrite zip_with_diag. apply map_ext. intros plane.
  rewrite zip_with_diag. apply map_ext. intros row.
  rewrite zip_with_diag. apply map_ext. intros v. ring.
Qed.

Lemma map3_map3 (f g : R -> R) (d : list matrixR) :
  map3 f (map3 g d) = map3 (fun v => f (g v)) d.
Proof.
  unfold map3. rewrite map_map. apply map_ext. intros plane.
  rewrite map_map. apply map_ext. intros row. now rewrite map_map.
Qed.

Lemma mean_zero (g : R -> R) (d : list matrixR) :
  (forall v, g v = 0) -> mean (map3 g d) = 0.
Proof.
  intros Hg. unfold mean. cbv zeta.
  rewrite (sum_zero _ (entries_map3 (fun v => v = 0) g d Hg)).
  unfold Rdiv. ring.
Qed.

(** X18 -- [create_loss_function] fails with [KeyError] exactly for the
    loss types outside {mae, mse, rmse}; for these three the loss it
    returns is non-negative for every parameter value. *)
Theorem create_loss_function_registry {P : Type}
        (forward_function : P -> list matrixR)
        (experimental_data : list matrixR) (loss_type : string) :
  (~ In loss_type ["mae"; "mse"; "rmse"]%string ->
   create_loss_function forward_function experimental_data loss_type
   = inl (KeyError loss_type))
  /\ (In loss_type ["mae"; "mse"; "rmse"]%string ->
      exists loss_fn,
        create_loss_function forward_function experimental_data loss_type
        = inr loss_fn
        /\ forall params : P, 0 <= loss_fn params).
Proof.
  split; [apply create_loss_function_unregistered|].
  intros [<- | [<- | [<- | []]]]; eexists; (split; [reflexivity|]);
    intros params; cbv beta zeta.
  - unfold mae_loss. apply mean_nonneg. apply Rabs_pos.
  - unfold mse_loss. apply mean_nonneg. apply Rle_0_sqr.
  - unfold rmse_loss. apply sqrt_pos.
Qed.

Lemma create_loss_function_registry_witness :
  ~ In "huber"%string ["mae"; "mse"; "rmse"]%string
  /\ create_loss_function (fun p : R => [[[p]]]) [[[1]]] "huber"
     = inl (KeyError "huber")
  /\ In "rmse"%string ["mae"; "mse"; "rmse"]%string
  /\ exists loss_fn,
      create_loss_function (fun p : R => [[[p]]]) [[[1]]] "rmse"
      = inr loss_fn
      /\ forall params : R, 0 <= loss_fn params.
Proof.
  assert (Hn : ~ In "huber"%string ["mae"; "mse"; "rmse"]%string)
    by (intros [H | [H | [H | []]]]; discriminate).
  assert (Hi : In "rmse"%string ["mae"; "mse"; "rmse"]%string)
    by (cbn; auto).
  split; [exact Hn|]. split.
  - exact (proj1 (create_loss_function_registry
                    (fun p : R => [[[p]]]) [[[1]]] "huber") Hn).
  - split; [exact Hi|].
    exact (proj2 (create_loss_function_registry
                    (fun p : R => [[[p]]]) [[[1]]] "rmse") Hi).
Defined.

(** X19 -- for each of the three loss types, the loss of parameters whose
    simulated data equal the (non-empty) experimental data is zero. *)
Theorem loss_zero_at_perfect_fit {P : Type}
        (forward_function : P -> list matrixR)
        (experimental_data : list matrixR) (loss_type : string)
        (loss_fn : P -> R) (params : P) :
  create_loss_function forward_function experimental_data loss_type
  = inr loss_fn ->
  concat (concat experimental_data) <> [] ->
  forward_function params = experimental_data ->
  loss_fn params = 0.
Proof.
  unfold create_loss_function. intros Hcreate _ Hfit.
  destruct (dict_get loss_type loss_functions) as [sel|] eqn:Hget;
    [|discriminate].
  injection Hcreate as <-. cbv zeta. rewrite Hfit, diff_self.
  unfold loss_functions in Hget. cbn [dict_get] in Hget.
  destruct (String.eqb loss_type "mae");
    [injection Hget as <-; unfold mae_loss; rewrite map3_map3;
     apply mean_zero; intros; apply Rabs_R0|].
  destruct (String.eqb loss_type "mse");
    [injection Hget as <-; unfold mse_loss; rewrite map3_map3;
     apply mean_zero; intros; apply Rsqr_0|].
  destruct (String.eqb loss_type "rmse"); [|discriminate].
  injection Hget as <-. unfold rmse_loss. rewrite map3_map3.
  rewrite mean_zero by (intros; apply Rsqr_0). apply sqrt_0.
Qed.

Lemma loss_zero_at_perfect_fit_witness :
  exists loss_fn : R -> R,
    create_loss_function (fun p : R => [[[p; 2]]]) [[[1; 2]]] "mae"
    = inr loss_fn
    /\ concat (concat [[[1; 2]]]) <> []
    /\ (fun p : R => [[[p; 2]]]) 1 = [[[1; 2]]]
    /\ loss_fn 1 = 0.
Proof.
  eexists. split; [reflexivity|].
  assert (Hne : concat (concat [[[1; 2]]]) <> []) by (cbn; discriminate).
  split; [exact Hne|]. split; [reflexivity|].
  exact (loss_zero_at_perfect_fit
           (fun p : R => [[[p; 2]]]) [[[1; 2]]] "mae" _ 1
           eq_refl Hne eq_refl).
Defined.

(** ** Where the reconstruction loops stop *)

Section LoopSetup.
Context {OptState : Type} (adam adagrad rmsprop : Optimizer OptState).
Context (grad2 :
  (matrixC * matrixC -> R) -> matrixC * matrixC -> matrixC * matrixC).
Context (grad3 :
  (matrixC * matrixC * matrixR -> R) ->
  matrixC * matrixC * matrixR -> matrixC * matrixC * matrixR).
Context (calibrated_dtype : CalibratedArray -> exn + dtype).

(** X20 -- with [save_every = 0] and registered names each of the three
    loops raises [ZeroDivisionError] at the division
    [num_iterations / save_every] of its first buffer, after the
    optimizer states (and the conversion of a pair of learning rates) and
    before any allocation. *)
Theorem zero_save_every_raises (loss_type optimizer_name : string) :
  In loss_type ["mae"; "mse"; "rmse"]%string ->
  In optimizer_name ["adam"; "adagrad"; "rmsprop"]%string ->
  (forall experimental initial_potential initial_beam pos t V calib n lr,
      single_slice_ptychography OptState adam adagrad rmsprop grad2
        experimental initial_potential initial_beam pos t V calib
        0 n lr loss_type optimizer_name []
      = (inl (ZeroDivisionError "division by zero"),
         [EvOptimizerInit [shape0 (data_array initial_potential);
                           shape1 (data_array initial_potential)];
          EvOptimizerInit [shape0 (data_array initial_beam);
                           shape1 (data_array initial_beam)]]
         ++ (if real_space initial_beam then [] else [EvIfft2])))
  /\ (forall experimental pot beam pos t V calib n r0 r1,
         single_slice_poscorrected OptState adam adagrad rmsprop grad3
           calibrated_dtype
           experimental pot beam pos t V calib 0 n (LrPair r0 r1)
           loss_type optimizer_name []
         = (inl (ZeroDivisionError "division by zero"),
            [EvOptimizerInit [shape0 (data_array pot);
                              shape1 (data_array pot)];
             EvOptimizerInit [shape0 (data_array beam);
                              shape1 (data_array beam)];
             EvOptimizerInit [shape0 pos; shape1 pos];
             EvArray]))
  /\ (forall experimental pot beam pos t V calib n lr plr,
         multi_slice_multi_modal OptState adam adagrad rmsprop grad3
           experimental pot beam pos t V calib 0 n lr plr
           loss_type optimizer_name []
         = (inl (ZeroDivisionError "division by zero"),
            [EvOptimizerInit [shape0 pot; shape1 pot];
             EvOptimizerInit [shape0 beam; shape1 beam];
             EvOptimizerInit [shape0 pos; shape1 pos]])).
Proof.
  intros Hloss Hname. repeat split; intros.
  - now rewrite (ssp_run_registered adam adagrad rmsprop grad2).
  - now rewrite (psc_run_registered adam adagrad rmsprop grad3
                   calibrated_dtype).
  - now rewrite (msm_run_registered adam adagrad rmsprop grad3).
Qed.

(** X22 -- for registered names and a non-zero [save_every],
    [multi_slice_multi_modal] raises [TypeError] when it allocates its
    first snapshot buffer, after the three optimizer states: it makes no
    update step and returns nothing, whatever the number of iterations
    and the learning rates. *)
Theorem multi_slice_multi_modal_raises_at_allocation
        (experimental : list matrixR) (pot beam : matrixC)
        (pos : matrixR) (t V calib : R) (save_every n : nat) (lr plr : R)
        (loss_type optimizer_name : string) :
  In loss_type ["mae"; "mse"; "rmse"]%string ->
  In optimizer_name ["adam"; "adagrad"; "rmsprop"]%string ->
  save_every <> 0%nat ->
  multi_slice_multi_modal OptState adam adagrad rmsprop grad3
    experimental pot beam pos t V calib save_every n lr plr
    loss_type optimizer_name []
  = (inl float_dimension_error,
     [EvOptimizerInit [shape0 pot; shape1 pot];
      EvOptimizerInit [shape0 beam; shape1 beam];
      EvOptimizerInit [shape0 pos; shape1 pos]]).
Proof.
  intros Hloss Hname Hsave.
  rewrite (msm_run_registered adam adagrad rmsprop grad3) by assumption.
  now rewrite (allocation_error_nonzero save_every Hsave).
Qed.

(** X23 -- with a pair of learning rates, registered names and a non-zero
    [save_every], [single_slice_poscorrected] passes the normalisation of
    the learning rate and raises [TypeError] when it allocates its first
    snapshot buffer: after the three optimizer states and [jnp.array],
    before [initial_beam.dtype] is read and before any update step. *)
Theorem single_slice_poscorrected_pair_raises_at_allocation
        (experimental : list matrixR) (pot beam : CalibratedArray)
        (pos : matrixR) (t V calib : R) (save_every n : nat) (r0 r1 : R)
        (loss_type optimizer_name : string) :
  In loss_type ["mae"; "mse"; "rmse"]%string ->
  In optimizer_name ["adam"; "adagrad"; "rmsprop"]%string ->
  save_every <> 0%nat ->
  single_slice_poscorrected OptState adam adagrad rmsprop grad3
    calibrated_dtype
    experimental pot beam pos t V calib save_every n (LrPair r0 r1)
    loss_type optimizer_name []
  = (inl float_dimension_error,
     [EvOptimizerInit [shape0 (data_array pot); shape1 (data_array pot)];
      EvOptimizerInit [shape0 (data_array beam); shape1 (data_array beam)];
      EvOptimizerInit [shape0 pos; shape1 pos];
      EvArray]).
Proof.
  intros Hloss Hname Hsave.
  rewrite (psc_run_registered adam adagrad rmsprop grad3 calibrated_dtype)
    by assumption.
  now rewrite (allocation_error_nonzero save_every Hsave).
Qed.

End LoopSetup.

(** ** The loops on concrete inputs, continued *)

Lemma mse_registered : In "mse"%string ["mae"; "mse"; "rmse"]%string.
Proof. cbn; auto. Qed.

Lemma adam_registered : In "adam"%string ["adam"; "adagrad"; "rmsprop"]%string.
Proof. cbn; auto. Qed.

Lemma zero_save_every_raises_witness :
  In "mse"%string ["mae"; "mse"; "rmse"]%string
  /\ In "adam"%string ["adam"; "adagrad"; "rmsprop"]%string
  /\ single_slice_ptychography
       unit frozen_optimizer frozen_optimizer frozen_optimizer example_grad2
       [[[0]]] (unit_pixel true) (unit_pixel false) [[0; 0]] 1 200 1
       0 5 0.001 "mse" "adam" []
     = (inl (ZeroDivisionError "division by zero"),
        [EvOptimizerInit [1; 1]%nat; EvOptimizerInit [1; 1]%nat; EvIfft2]).
Proof.
  split; [exact mse_registered|]. split; [exact adam_registered|].
  exact (proj1 (zero_save_every_raises
                  frozen_optimizer frozen_optimizer frozen_optimizer
                  example_grad2 example_grad3 example_dtype
                  "mse" "adam" mse_registered adam_registered)
               [[[0]]] (unit_pixel true) (unit_pixel false) [[0; 0]]
               1 200 1 5%nat 0.001).
Defined.

Lemma multi_slice_multi_modal_raises_at_allocation_witness :
  In "mse"%string ["mae"; "mse"; "rmse"]%string
  /\ In "adam"%string ["adam"; "adagrad"; "rmsprop"]%string
  /\ 10%nat <> 0%nat
  /\ multi_slice_multi_modal
       unit frozen_optimizer frozen_optimizer frozen_optimizer example_grad3
       [[[0]]] [[C1]] [[C1]] [[0; 0]] 1 200 1
       10 1000 0.001 0.01 "mse" "adam" []
     = (inl float_dimension_error,
        [EvOptimizerInit [1; 1]%nat; EvOptimizerInit [1; 1]%nat;
         EvOptimizerInit [1; 2]%nat]).
Proof.
  assert (Hs : 10%nat <> 0%nat) by discriminate.
  split; [exact mse_registered|]. split; [exact adam_registered|].
  split; [exact Hs|].
  exact (multi_slice_multi_modal_raises_at_allocation
           frozen_optimizer frozen_optimizer frozen_optimizer example_grad3
           [[[0]]] [[C1]] [[C1]] [[0; 0]] 1 200 1
           10%nat 1000%nat 0.001 0.01 "mse" "adam"
           mse_registered adam_registered Hs).
Defined.

Lemma single_slice_poscorrected_pair_raises_at_allocation_witness :
  In "mse"%string ["mae"; "mse"; "rmse"]%string
  /\ In "adam"%string ["adam"; "adagrad"; "rmsprop"]%string
  /\ 10%nat <> 0%nat
  /\ single_slice_poscorrected
       unit frozen_optimizer frozen_optimizer frozen_optimizer example_grad3
       example_dtype
       [[[0]]] (unit_pixel true) (unit_pixel true) [[0; 0]] 1 200 1
       10 1000 (LrPair 0.01 0.001) "mse" "adam" []
     = (inl float_dimension_error,
        [EvOptimizerInit [1; 1]%nat; EvOptimizerInit [1; 1]%nat;
         EvOptimizerInit [1; 2]%nat; EvArray]).
Proof.
  assert (Hs : 10%nat <> 0%nat) by discriminate.
  split; [exact mse_registered|]. split; [exact adam_registered|].
  split; [exact Hs|].
  exact (single_slice_poscorrected_pair_raises_at_allocation
           frozen_optimizer frozen_optimizer frozen_optimizer example_grad3
           example_dtype
           [[[0]]] (unit_pixel true) (unit_pixel true) [[0; 0]] 1 200 1
           10%nat 1000%nat 0.01 0.001 "mse" "adam"
           mse_registered adam_registered Hs).
Defined.
